(** * udpcan: a CAN <-> UDP converter

    A shallow embedding of [udpcan.c]: the wire codec
    ([pack_can_frame], [unpack_can_frame]), the two forwarding operations
    ([udp_to_can], [can_to_udp]) and the body of the [poll] loop of [main],
    followed by the properties of the codec and of the dispatch. *)

From Stdlib Require Import ZArith Lia.
From Stdlib.Strings Require Import Byte Ascii.
From stdpp Require Import base numbers option list strings gmap sorting.

Local Open Scope Z_scope.

(** ** Bytes and fixed-width integers *)

Abbreviation byte := Byte.byte.

Definition Z_of_byte (b : byte) : Z := Z.of_N (Byte.to_N b).

Definition byte_of_Z (z : Z) : byte :=
  match Byte.of_N (Z.to_N (z mod 256)) with
  | Some b => b
  | None => Byte.x00
  end.

(** [uint8_t], [uint32_t] and [size_t] are unsigned: a conversion to one of
    them reduces the value modulo two to the width. [size_t] is 64 bits wide
    ([ssize_t] is its signed counterpart). *)
Definition to_uint8 (z : Z) : Z := z mod 2 ^ 8.
Definition to_uint32 (z : Z) : Z := z mod 2 ^ 32.
Definition to_size_t (z : Z) : Z := z mod 2 ^ 64.

(** The byte order of the machine the program runs on. *)
Inductive endianness := LittleEndian | BigEndian.

(** The four bytes of a 32-bit value, most significant byte first. *)
Definition be_bytes (v : Z) : list byte :=
  [ byte_of_Z (v / 2 ^ 24); byte_of_Z (v / 2 ^ 16);
    byte_of_Z (v / 2 ^ 8); byte_of_Z v ].

(** The value whose bytes, most significant first, are the first four
    bytes of [bs]; missing bytes read as zero. *)
Definition be_value (bs : list byte) : Z :=
  Z_of_byte (nth 0 bs Byte.x00) * 2 ^ 24 +
  Z_of_byte (nth 1 bs Byte.x00) * 2 ^ 16 +
  Z_of_byte (nth 2 bs Byte.x00) * 2 ^ 8 +
  Z_of_byte (nth 3 bs Byte.x00).

(** A [uint32_t] object as it lies in memory on the host. *)
Definition store_u32 (host : endianness) (v : Z) : list byte :=
  match host with
  | BigEndian => be_bytes v
  | LittleEndian => rev (be_bytes v)
  end.

Definition load_u32 (host : endianness) (bs : list byte) : Z :=
  match host with
  | BigEndian => be_value (take 4 bs)
  | LittleEndian => be_value (rev (take 4 bs))
  end.

(** [htonl] returns the [uint32_t] whose object representation on the
    host is the network (big-endian) byte sequence of its argument; [ntohl]
    is the converse. *)
Definition htonl (host : endianness) (v : Z) : Z :=
  load_u32 host (be_bytes v).

Definition ntohl (host : endianness) (v : Z) : Z :=
  be_value (store_u32 host v).

(** [memcpy dst src n]: the contents of [dst] after its first [n] bytes
    were overwritten with the first [n] bytes of [src]. *)
Definition memcpy (dst src : list byte) (n : Z) : list byte :=
  take (Z.to_nat n) src ++ drop (Z.to_nat n) dst.

(** ** Assertions *)

(** A computation in which an [assert] may fail, which aborts the process. *)
Inductive checked (A : Type) : Type :=
| Passed (a : A)
| AssertionFailed.
Arguments Passed {A} a.
Arguments AssertionFailed {A}.

Definition assert (b : bool) : checked unit :=
  if b then Passed tt else AssertionFailed.

Definition checked_bind {A B} (c : checked A) (k : A -> checked B) : checked B :=
  match c with
  | Passed a => k a
  | AssertionFailed => AssertionFailed
  end.

Declare Scope checked_scope.
Delimit Scope checked_scope with checked.
Notation "c ';;;' k" := (checked_bind c (fun _ => k))
  (at level 100, k at level 200, right associativity) : checked_scope.

(** ** Frames *)

(** [struct can_frame] of <linux/can.h>: a 32-bit identifier, an 8-bit
    data length code and an array of 8 data bytes. *)
Record can_frame := {
  can_id : Z;
  can_dlc : Z;
  data : list byte
}.

(** [struct packed_can_frame]: the identifier in network byte order, then
    the data; 12 bytes without padding. *)
Record packed_can_frame := {
  packed_can_id : Z;
  packed_data : list byte
}.

Definition PACKED_CAN_FRAME_MAX_DATA_SIZE : Z := 8.
Definition sizeof_packed_can_frame : Z := 12.
Definition PACKED_CAN_FRAME_HDR_SIZE : Z :=
  sizeof_packed_can_frame - PACKED_CAN_FRAME_MAX_DATA_SIZE.

(** The object representation of a [struct packed_can_frame], which is
    what [recv] fills and [send] reads. *)
Definition packed_bytes (host : endianness) (p : packed_can_frame) : list byte :=
  store_u32 host (packed_can_id p) ++ packed_data p.

Definition packed_of_bytes (host : endianness) (bs : list byte) : packed_can_frame :=
  {| packed_can_id := load_u32 host bs; packed_data := drop 4 bs |}.

Section Codec.
Variable host : endianness.

Local Open Scope checked_scope.

(** [pack_can_frame]: [packed_frame] is the object the second argument
    points to on entry; the result is that object and
    [*packed_frame_size] on return. *)
Definition pack_can_frame (frame : can_frame) (packed_frame : packed_can_frame)
  : checked (packed_can_frame * Z) :=
  let can_id' := htonl host (can_id frame) in
  assert (can_dlc frame <=? PACKED_CAN_FRAME_MAX_DATA_SIZE) ;;;
  let data' := memcpy (packed_data packed_frame) (data frame) (can_dlc frame) in
  Passed ({| packed_can_id := can_id'; packed_data := data' |},
          to_size_t (can_dlc frame + PACKED_CAN_FRAME_HDR_SIZE)).

(** [unpack_can_frame]: [frame] is the object the third argument points
    to on entry; the result is that object on return. *)
Definition unpack_can_frame (packed_frame : packed_can_frame)
    (packed_frame_size : Z) (frame : can_frame) : checked can_frame :=
  assert (packed_frame_size <=? sizeof_packed_can_frame) ;;;
  let data_size := to_size_t (packed_frame_size - PACKED_CAN_FRAME_HDR_SIZE) in
  assert (data_size <=? PACKED_CAN_FRAME_MAX_DATA_SIZE) ;;;
  Passed {| can_id := ntohl host (packed_can_id packed_frame);
            can_dlc := to_uint8 data_size;
            data := memcpy (data frame) (packed_data packed_frame) data_size |}.

End Codec.

(** ** Rendering for the log *)

Definition hex_digit (d : Z) : string :=
  String.substring (Z.to_nat d) 1 "0123456789ABCDEF".

(** The eight hexadecimal digits of an [unsigned], most significant first. *)
Definition nibbles (v : Z) : list Z :=
  map (fun k => Z.land (Z.shiftr v (4 * k)) 15) [7; 6; 5; 4; 3; 2; 1; 0].

(** Leading zeros are dropped as long as more than [prec] digits remain. *)
Fixpoint strip_zeros (prec : nat) (ds : list Z) : list Z :=
  match ds with
  | 0 :: ds' => if (prec <? length ds)%nat then strip_zeros prec ds' else ds
  | _ => ds
  end.

(** The conversion [%.<prec>X] of an [unsigned] value. *)
Definition fmt_X (prec : nat) (v : Z) : string :=
  String.concat "" (map hex_digit (strip_zeros prec (nibbles (to_uint32 v)))).

(** [str_can_frame]: [<can_id>#<data>]. The text is cut to the 31
    characters the static buffer holds; with [can_dlc <= 8] it has at most
    25. (With [can_dlc > 8] the C loop reads past the array; the model
    renders the bytes the array has.) *)
Definition str_can_frame (frame : can_frame) : string :=
  String.substring 0 31
    (fmt_X 3 (can_id frame) +:+ "#" +:+
     String.concat ""
       (map (fun b => fmt_X 2 (Z_of_byte b))
            (take (Z.to_nat (can_dlc frame)) (data frame)))).

Record config := {
  can_ifname : string;
  in_port : string;
  out_host : string;
  out_port : string
}.

(** [str_config]: [CAN_IFNAME:IN_PORT:OUT_HOST:OUT_PORT], cut to the 255
    characters the static buffer holds. *)
Definition str_config (c : config) : string :=
  String.substring 0 255
    (can_ifname c +:+ ":" +:+ in_port c +:+ ":" +:+ out_host c +:+ ":" +:+
     out_port c).

Record connection := {
  conn_config : config;
  can_sfd : Z;
  in_sfd : Z;
  out_sfd : Z
}.

(** ** The environment: sockets and standard output *)

Inductive direction := UDP_to_CAN | CAN_to_UDP.

(** What the [printf] calls of the two forwarding functions say after the
    configuration and the direction. *)
Inductive report :=
| recv_failed (errno : Z)
| message_too_short (size hdr : Z)
| message_truncated (size cap : Z)
| forwarded (frame : string)
| send_failed (errno : Z).

Record log_line := {
  line_config : string;
  line_direction : direction;
  line_report : report
}.

(** What a [recv] finds at the head of a socket's queue. *)
Inductive arrival (A : Type) : Type :=
| arrival_error (errno : Z)
| arrival_message (m : A).
Arguments arrival_error {A} errno.
Arguments arrival_message {A} m.

(** A socket: the queue [recv] takes from, the fate of the coming [send]
    calls ([Some errno]: the call fails; [None], or nothing left: it
    succeeds), and what was sent on it so far, oldest first. *)
Record socket (A : Type) : Type := {
  rx : list (arrival A);
  tx : list (option Z);
  sent : list A
}.
Arguments rx {A} s.
Arguments tx {A} s.
Arguments sent {A} s.

(** What the next [poll] reports: a failure, or the [revents] of each
    entry, by index. *)
Inductive poll_report :=
| poll_failed (errno : Z)
| poll_ready (revents : list Z).

Record world := {
  can_sockets : gmap Z (socket can_frame);
  udp_sockets : gmap Z (socket (list byte));
  stdout : list log_line;
  polls : list poll_report
}.

Definition EBADF : Z := 9.
Definition EAGAIN : Z := 11.

Definition with_can_socket (fd : Z) (s : socket can_frame) (w : world) : world :=
  {| can_sockets := <[fd := s]> (can_sockets w);
     udp_sockets := udp_sockets w; stdout := stdout w; polls := polls w |}.

Definition with_udp_socket (fd : Z) (s : socket (list byte)) (w : world) : world :=
  {| can_sockets := can_sockets w;
     udp_sockets := <[fd := s]> (udp_sockets w);
     stdout := stdout w; polls := polls w |}.

Definition printf (l : log_line) (w : world) : world :=
  {| can_sockets := can_sockets w; udp_sockets := udp_sockets w;
     stdout := stdout w ++ [l]; polls := polls w |}.

(** [recv] without blocking: the head of the queue is taken; an empty
    queue is the error [EAGAIN], a descriptor that is no socket of the kind
    [EBADF]. *)
Definition recv {A} (s : option (socket A)) : (Z + A) * option (socket A) :=
  match s with
  | None => (inl EBADF, None)
  | Some s =>
    match rx s with
    | [] => (inl EAGAIN, Some s)
    | arrival_error e :: q =>
      (inl e, Some {| rx := q; tx := tx s; sent := sent s |})
    | arrival_message m :: q =>
      (inr m, Some {| rx := q; tx := tx s; sent := sent s |})
    end
  end.

(** [send]: [Some errno] when the call fails. *)
Definition send {A} (s : option (socket A)) (m : A) : option Z * option (socket A) :=
  match s with
  | None => (Some EBADF, None)
  | Some s =>
    match tx s with
    | Some e :: t => (Some e, Some {| rx := rx s; tx := t; sent := sent s |})
    | None :: t => (None, Some {| rx := rx s; tx := t; sent := sent s ++ [m] |})
    | [] => (None, Some {| rx := rx s; tx := []; sent := sent s ++ [m] |})
    end
  end.

Definition put_can_socket (fd : Z) (s : option (socket can_frame)) (w : world) : world :=
  match s with Some s => with_can_socket fd s w | None => w end.

Definition put_udp_socket (fd : Z) (s : option (socket (list byte))) (w : world) : world :=
  match s with Some s => with_udp_socket fd s w | None => w end.

(** [recv(fd, buf, len, MSG_DONTWAIT | MSG_TRUNC)] on a UDP socket: the
    datagram is copied to [buf] as far as [len] allows, the rest of it is
    discarded, and the result is the length of the whole datagram. *)
Definition recv_udp (fd : Z) (buf : list byte) (len : Z) (w : world)
  : (Z + Z * list byte) * world :=
  let '(r, s) := recv (udp_sockets w !! fd) in
  match r with
  | inl e => (inl e, put_udp_socket fd s w)
  | inr d =>
    let size := Z.of_nat (length d) in
    (inr (size, memcpy buf d (Z.min size len)), put_udp_socket fd s w)
  end.

(** [recv(fd, &frame, sizeof(frame), MSG_DONTWAIT)] on a raw CAN socket,
    which delivers a whole [struct can_frame]. *)
Definition recv_can (fd : Z) (w : world) : (Z + can_frame) * world :=
  let '(r, s) := recv (can_sockets w !! fd) in (r, put_can_socket fd s w).

Definition send_can (fd : Z) (frame : can_frame) (w : world) : option Z * world :=
  let '(r, s) := send (can_sockets w !! fd) frame in (r, put_can_socket fd s w).

Definition send_udp (fd : Z) (buf : list byte) (len : Z) (w : world)
  : option Z * world :=
  let '(r, s) := send (udp_sockets w !! fd) (take (Z.to_nat len) buf) in
  (r, put_udp_socket fd s w).

(** ** The forwarding operations and the loop of [main] *)

(** How a piece of the program ends: it returns, an [assert] aborts the
    process, [err] exits it, [poll] has nothing more to report, or an array
    is read outside its bounds. *)
Inductive outcome :=
| Returned (w : world)
| Aborted (w : world)
| Exited (w : world)
| Blocked (w : world)
| OutOfBounds (w : world).

Record pollfd := {
  fd : Z;
  events : Z;
  revents : Z
}.

Section Program.
(** The byte order of the host. *)
Variable host : endianness.
(** The contents of the automatic objects [struct can_frame frame] and
    [struct packed_can_frame packed_frame] before anything was stored in
    them: indeterminate, so nothing is assumed about them. *)
Variable uninit_frame : world -> can_frame.
Variable uninit_packed_frame : world -> packed_can_frame.
(** The bit [POLLIN] of <poll.h>. *)
Variable POLLIN : Z.

Definition say (conn : connection) (d : direction) (r : report) : world -> world :=
  printf {| line_config := str_config (conn_config conn);
            line_direction := d; line_report := r |}.

(** Forwards a CAN frame from [in_sfd] to [can_sfd]. *)
Definition udp_to_can (conn : connection) (w : world) : outcome :=
  let packed_frame := packed_bytes host (uninit_packed_frame w) in
  match recv_udp (in_sfd conn) packed_frame sizeof_packed_can_frame w with
  | (inl errno, w) => Returned (say conn UDP_to_CAN (recv_failed errno) w)
  | (inr (size, packed_frame), w) =>
    if to_size_t size <? PACKED_CAN_FRAME_HDR_SIZE then
      Returned (say conn UDP_to_CAN
                  (message_too_short size PACKED_CAN_FRAME_HDR_SIZE) w)
    else
      let '(size, w) :=
        if to_size_t size >? sizeof_packed_can_frame then
          (sizeof_packed_can_frame,
           say conn UDP_to_CAN
             (message_truncated size sizeof_packed_can_frame) w)
        else (size, w) in
      match unpack_can_frame host (packed_of_bytes host packed_frame)
              (to_size_t size) (uninit_frame w) with
      | AssertionFailed => Aborted w
      | Passed frame =>
        let w := say conn UDP_to_CAN (forwarded (str_can_frame frame)) w in
        match send_can (can_sfd conn) frame w with
        | (Some errno, w) =>
          Returned (say conn UDP_to_CAN (send_failed errno) w)
        | (None, w) => Returned w
        end
      end
  end.

(** Forwards a CAN frame from [can_sfd] to [out_sfd]. *)
Definition can_to_udp (conn : connection) (w : world) : outcome :=
  match recv_can (can_sfd conn) w with
  | (inl errno, w) => Returned (say conn CAN_to_UDP (recv_failed errno) w)
  | (inr frame, w) =>
    let w := say conn CAN_to_UDP (forwarded (str_can_frame frame)) w in
    match pack_can_frame host frame (uninit_packed_frame w) with
    | AssertionFailed => Aborted w
    | Passed (packed_frame, size) =>
      match send_udp (out_sfd conn) (packed_bytes host packed_frame) size w with
      | (Some errno, w) => Returned (say conn CAN_to_UDP (send_failed errno) w)
      | (None, w) => Returned w
      end
    end
  end.

(** The [pollfd] array [main] fills before the loop: for connection [i],
    entry [2i] watches [can_sfd] and entry [2i+1] watches [in_sfd].
    ([revents] is assigned by every [poll] before it is read.) *)
Definition watch (connections : list connection) : list pollfd :=
  flat_map (fun conn =>
    [ {| fd := can_sfd conn; events := POLLIN; revents := 0 |};
      {| fd := in_sfd conn; events := POLLIN; revents := 0 |} ]) connections.

(** [poll] assigns [revents] of every entry. *)
Definition set_revents (pfds : list pollfd) (rs : list Z) : list pollfd :=
  imap (fun i p => {| fd := fd p; events := events p;
                      revents := default 0 (rs !! i) |}) pfds.

Section Loop.
Variable connections : list connection.
Variable pfds : list pollfd.

Definition n_connections : Z := Z.of_nat (length connections).

(** The body of [for (int i = 0; i < n_connections * 2; i++)]. *)
Definition dispatch (i : Z) (w : world) : outcome :=
  match pfds !! Z.to_nat i with
  | None => OutOfBounds w
  | Some p =>
    if Z.land (revents p) POLLIN =? 0 then Returned w
    else
      match connections !! Z.to_nat (Z.quot i 2) with
      | None => OutOfBounds w
      | Some conn =>
        if Z.rem i 2 =? 0 then
          if fd p =? can_sfd conn then can_to_udp conn w else Aborted w
        else
          if fd p =? in_sfd conn then udp_to_can conn w else Aborted w
      end
  end.

(** The [for] loop from index [i], with [count] entries to go. *)
Fixpoint scan_from (count : nat) (i : Z) (w : world) : outcome :=
  match count with
  | O => Returned w
  | S count' =>
    match dispatch i w with
    | Returned w' => scan_from count' (i + 1) w'
    | stopped => stopped
    end
  end.

Definition scan (w : world) : outcome :=
  scan_from (Z.to_nat (n_connections * 2)) 0 w.
End Loop.

(** One turn of [while (1)]: [poll], then the scan. The second component
    is the [pollfd] array afterwards. *)
Definition wake (connections : list connection) (pfds : list pollfd)
    (w : world) : outcome * list pollfd :=
  match polls w with
  | [] => (Blocked w, pfds)
  | r :: rest =>
    let w := {| can_sockets := can_sockets w; udp_sockets := udp_sockets w;
                stdout := stdout w; polls := rest |} in
    match r with
    | poll_failed _ => (Exited w, pfds)
    | poll_ready rs =>
      let pfds := set_revents pfds rs in
      (scan connections pfds w, pfds)
    end
  end.

(** [turns] turns of the loop, as long as each scan returns. *)
Fixpoint event_loop (turns : nat) (connections : list connection)
    (pfds : list pollfd) (w : world) : outcome :=
  match turns with
  | O => Returned w
  | S turns' =>
    match wake connections pfds w with
    | (Returned w', pfds') => event_loop turns' connections pfds' w'
    | (stopped, _) => stopped
    end
  end.

End Program.

(** ** Start-up: configuration and sockets *)

(** Why the process exits with [EXIT_FAILURE] before the loop. *)
Inductive failure :=
| out_of_memory
| usage
| invalid_config (config_str : string)
| socket_failed (errno : Z)
| resolve_failed (errcode : Z)
| bind_failed (errno : Z)
| connect_failed (errno : Z).

(** A step of the start-up: it yields a value or exits. *)
Inductive start (A : Type) : Type :=
| Ready (a : A)
| Fatal (why : failure).
Arguments Ready {A} a.
Arguments Fatal {A} why.

(** [xstrdup]: the copy, unless [strdup] found no memory. A [string]
    stands for the characters of a C string before its terminator. *)
Definition xstrdup (enough_memory : bool) (s : string) : start string :=
  if enough_memory then Ready s else Fatal out_of_memory.

(** [end = strchr(s, c)] followed by [*end = '\0'] and [s = end + 1]: the
    text before the first [c] and the text after it, or [None] when [strchr]
    returns a null pointer. *)
Fixpoint cut_at (c : ascii) (s : string) : option (string * string) :=
  match s with
  | EmptyString => None
  | String a s' =>
    if Ascii.eqb a c then Some (EmptyString, s')
    else
      match cut_at c s' with
      | Some (before, after) => Some (String a before, after)
      | None => None
      end
  end.

(** [parse_config]: the string is cut at its first three colons. *)
Definition parse_config (enough_memory : bool) (config_str : string)
  : start config :=
  match xstrdup enough_memory config_str with
  | Fatal why => Fatal why
  | Ready s =>
    match cut_at ":"%char s with
    | None => Fatal (invalid_config config_str)
    | Some (can_ifname', s) =>
      match cut_at ":"%char s with
      | None => Fatal (invalid_config config_str)
      | Some (in_port', s) =>
        match cut_at ":"%char s with
        | None => Fatal (invalid_config config_str)
        | Some (out_host', out_port') =>
          Ready {| can_ifname := can_ifname'; in_port := in_port';
                   out_host := out_host'; out_port := out_port' |}
        end
      end
    end
  end.

(** One [struct addrinfo] of the list [getaddrinfo] returned, with what
    the system answers when it is tried: the result of [socket] ([-1] and
    an [errno] when it fails) and the [errno] of a failing [bind] or
    [connect] ([None] when that call succeeds). *)
Record candidate := {
  socket_returns : Z;
  socket_errno : Z;
  attach_fails : option Z
}.

(** The loop of [bind_udp] from a candidate on: the descriptor it ends
    with, the error kept in [errcode], and the open descriptors. *)
Fixpoint bind_udp_loop (ai : list candidate) (sfd errcode : Z) (open : gset Z)
  : start (Z * Z * gset Z) :=
  match ai with
  | [] => Ready (sfd, errcode, open)
  | rp :: rest =>
    let sfd := socket_returns rp in
    if sfd =? -1 then Fatal (socket_failed (socket_errno rp))
    else
      let open := {[ sfd ]} ∪ open in
      match attach_fails rp with
      | None => Ready (sfd, errcode, open)
      | Some errno => bind_udp_loop rest (-1) errno (open ∖ {[ sfd ]})
      end
  end.

(** [bind_udp]: [errcode] is what [getaddrinfo] returned and [ai] its
    list. The result is the descriptor and the open descriptors. *)
Definition bind_udp (errcode : Z) (ai : list candidate) (open : gset Z)
  : start (Z * gset Z) :=
  if negb (errcode =? 0) then Fatal (resolve_failed errcode)
  else
    match bind_udp_loop ai (-1) errcode open with
    | Fatal why => Fatal why
    | Ready (sfd, errcode, open) =>
      if sfd =? -1 then Fatal (bind_failed errcode) else Ready (sfd, open)
    end.

(** The loop of [connect_udp]: as in [bind_udp], but [sfd] keeps the
    descriptor that was closed. *)
Fixpoint connect_udp_loop (ai : list candidate) (sfd errcode : Z)
    (open : gset Z) : start (Z * Z * gset Z) :=
  match ai with
  | [] => Ready (sfd, errcode, open)
  | rp :: rest =>
    let sfd := socket_returns rp in
    if sfd =? -1 then Fatal (socket_failed (socket_errno rp))
    else
      let open := {[ sfd ]} ∪ open in
      match attach_fails rp with
      | None => Ready (sfd, errcode, open)
      | Some errno => connect_udp_loop rest sfd errno (open ∖ {[ sfd ]})
      end
  end.

Definition connect_udp (errcode : Z) (ai : list candidate) (open : gset Z)
  : start (Z * gset Z) :=
  if negb (errcode =? 0) then Fatal (resolve_failed errcode)
  else
    match connect_udp_loop ai (-1) errcode open with
    | Fatal why => Fatal why
    | Ready (sfd, errcode, open) =>
      if sfd =? -1 then Fatal (connect_failed errcode) else Ready (sfd, open)
    end.

(** [xmalloc]: the process exits when [malloc] finds no memory. *)
Definition xmalloc (enough_memory : bool) : start unit :=
  if enough_memory then Ready tt else Fatal out_of_memory.

(** What the system answers while one connection is set up: whether
    [strdup] finds memory, the results of [socket], [ioctl] and [bind] for
    the CAN socket, and what [getaddrinfo] returns for the port to listen
    on and for the host and port to send to. *)
Record answers := {
  strdup_memory : bool;
  can_socket_returns : Z;
  can_socket_errno : Z;
  ioctl_fails : option Z;
  can_bind_fails : option Z;
  in_errcode : Z;
  in_ai : list candidate;
  out_errcode : Z;
  out_ai : list candidate
}.

Section Startup.
(** The size [IFNAMSIZ] of [ifr_name] in <net/if.h>, and the bit
    [POLLIN]. *)
Variable IFNAMSIZ : Z.
Variable POLLIN : Z.

(** [bind_can]. [strcpy] copies the name and its terminator into
    [ifr_name] without a check; the result is [None] when that writes past
    the array, after which nothing is known. *)
Definition bind_can (ifname : string) (a : answers) (open : gset Z)
  : option (start (Z * gset Z)) :=
  let sfd := can_socket_returns a in
  if sfd =? -1 then Some (Fatal (socket_failed (can_socket_errno a)))
  else
    let open := {[ sfd ]} ∪ open in
    if IFNAMSIZ <? Z.of_nat (String.length ifname) + 1 then None
    else
      match ioctl_fails a with
      | Some errno => Some (Fatal (resolve_failed errno))
      | None =>
        match can_bind_fails a with
        | Some errno => Some (Fatal (bind_failed errno))
        | None => Some (Ready (sfd, open))
        end
      end.

(** [setup_connection]: the three sockets of a connection whose
    configuration is [cfg]. *)
Definition setup_connection (cfg : config) (a : answers) (open : gset Z)
  : option (start (connection * gset Z)) :=
  match bind_can (can_ifname cfg) a open with
  | None => None
  | Some (Fatal why) => Some (Fatal why)
  | Some (Ready (can_sfd', open)) =>
    match bind_udp (in_errcode a) (in_ai a) open with
    | Fatal why => Some (Fatal why)
    | Ready (in_sfd', open) =>
      match connect_udp (out_errcode a) (out_ai a) open with
      | Fatal why => Some (Fatal why)
      | Ready (out_sfd', open) =>
        Some (Ready ({| conn_config := cfg; can_sfd := can_sfd';
                        in_sfd := in_sfd'; out_sfd := out_sfd' |}, open))
      end
    end
  end.

(** The assignments to [pfds[i].fd] and [pfds[i].events]. *)
Definition watch_fd (sfd : Z) (p : pollfd) : pollfd :=
  {| fd := sfd; events := POLLIN; revents := revents p |}.

(** The first loop of [main] from index [i] on: each argument comes with
    the answers of the system for it. *)
Fixpoint init_from (i : nat) (args : list (string * answers))
    (connections : list connection) (pfds : list pollfd) (open : gset Z)
  : option (start (list connection * list pollfd * gset Z)) :=
  match args with
  | [] => Some (Ready (connections, pfds, open))
  | (config_str, a) :: rest =>
    match parse_config (strdup_memory a) config_str with
    | Fatal why => Some (Fatal why)
    | Ready cfg =>
      match setup_connection cfg a open with
      | None => None
      | Some (Fatal why) => Some (Fatal why)
      | Some (Ready (conn, open)) =>
        let connections := <[ i := conn ]> connections in
        let pfds := alter (watch_fd (can_sfd conn)) (i * 2)%nat pfds in
        let pfds := alter (watch_fd (in_sfd conn)) (i * 2 + 1)%nat pfds in
        init_from (S i) rest connections pfds open
      end
    end
  end.

(** [main] up to the loop [while (1)]: [args] are the arguments after the
    name of the program, [malloc_memory] tells whether the two [malloc]
    calls find memory, and [heap_connections] and [heap_pfds] are what the
    allocated arrays hold at first. *)
Definition main_init (args : list (string * answers))
    (malloc_memory : bool * bool)
    (heap_connections : nat -> connection) (heap_pfds : nat -> pollfd)
    (open : gset Z)
  : option (start (list connection * list pollfd * gset Z)) :=
  if (1 + length args =? 1)%nat then Some (Fatal usage)
  else
    let n_connections := length args in
    match xmalloc malloc_memory.1 with
    | Fatal why => Some (Fatal why)
    | Ready _ =>
      let connections := heap_connections <$> seq 0 n_connections in
      match xmalloc malloc_memory.2 with
      | Fatal why => Some (Fatal why)
      | Ready _ =>
        let pfds := heap_pfds <$> seq 0 (n_connections * 2) in
        init_from 0 args connections pfds open
      end
    end.

End Startup.

(** * Vocabulary of the properties *)

(** ** Frames and bytes on the wire *)

(** The data a frame carries: the first [can_dlc] bytes of its array. *)
Definition payload (frame : can_frame) : list byte :=
  take (Z.to_nat (can_dlc frame)) (data frame).

(** A frame as the CAN socket delivers it. *)
Definition valid_frame (frame : can_frame) : Prop :=
  0 <= can_id frame < 2 ^ 32 /\
  0 <= can_dlc frame <= 8 /\
  length (data frame) = 8%nat.

(** The bytes [send] reads in [can_to_udp]: the first
    [*packed_frame_size] bytes of the packed frame. *)
Definition wire (host : endianness) (packed : packed_can_frame) (size : Z)
  : list byte :=
  take (Z.to_nat size) (packed_bytes host packed).

(** The frame [udp_to_can] builds from the first [size] bytes of the
    datagram [d], in a [struct can_frame] that held [frame] before. *)
Definition received_frame (d : list byte) (size : Z) (frame : can_frame)
  : can_frame :=
  {| can_id := be_value (take 4 d);
     can_dlc := size - 4;
     data := take (Z.to_nat (size - 4)) (drop 4 d) ++
             drop (Z.to_nat (size - 4)) (data frame) |}.

(** ** Steps of the forwarding operations *)

(** What the next [recv] on a UDP descriptor yields, and the world after
    it. *)
Definition udp_arrival (fd : Z) (w : world) : Z + list byte :=
  (recv (udp_sockets w !! fd)).1.

Definition after_udp_recv (fd : Z) (w : world) : world :=
  put_udp_socket fd (recv (udp_sockets w !! fd)).2 w.

(** The same for a CAN descriptor. *)
Definition can_arrival (fd : Z) (w : world) : Z + can_frame :=
  (recv (can_sockets w !! fd)).1.

Definition after_can_recv (fd : Z) (w : world) : world :=
  put_can_socket fd (recv (can_sockets w !! fd)).2 w.

(** The end of [udp_to_can]: the frame is printed and sent on the bus. *)
Definition forward_to_bus (conn : connection) (frame : can_frame) (w : world)
  : world :=
  let w := say conn UDP_to_CAN (forwarded (str_can_frame frame)) w in
  match send_can (can_sfd conn) frame w with
  | (Some errno, w) => say conn UDP_to_CAN (send_failed errno) w
  | (None, w) => w
  end.

(** The end of [can_to_udp]: the packed bytes are sent to the network. *)
Definition forward_to_network (conn : connection) (buf : list byte) (size : Z)
    (w : world) : world :=
  match send_udp (out_sfd conn) buf size w with
  | (Some errno, w) => say conn CAN_to_UDP (send_failed errno) w
  | (None, w) => w
  end.

(** The world an operation leaves behind, however it ended. *)
Definition world_of (o : outcome) : world :=
  match o with
  | Returned w | Aborted w | Exited w | Blocked w | OutOfBounds w => w
  end.

(** [touches_only cfd ufd w w']: from [w] to [w'] nothing changed except,
    possibly, the CAN socket [cfd], the UDP socket [ufd] and lines added at
    the end of the output. *)
Definition touches_only (cfd ufd : Z) (w w' : world) : Prop :=
  polls w' = polls w /\
  (forall fd', fd' <> cfd -> can_sockets w' !! fd' = can_sockets w !! fd') /\
  (forall fd', fd' <> ufd -> udp_sockets w' !! fd' = udp_sockets w !! fd') /\
  exists lines, stdout w' = stdout w ++ lines.

(** ** Calls made by the loop *)

(** A call of a forwarding operation on the bridge with a given index. *)
Inductive call :=
| bus_to_network (bridge : nat)
| network_to_bus (bridge : nat).

(** The call that belongs to an entry of the [pollfd] array: entry [2i] is
    the bus of bridge [i], entry [2i+1] its UDP socket. *)
Definition call_of_index (k : nat) : call :=
  if (k mod 2 =? 0)%nat then bus_to_network (k / 2) else network_to_bus (k / 2).

Section Calls.
Variable host : endianness.
Variable uninit_frame : world -> can_frame.
Variable uninit_packed_frame : world -> packed_can_frame.
Variable POLLIN : Z.
Variable connections : list connection.

Definition perform (c : call) (w : world) : outcome :=
  match c with
  | bus_to_network i =>
    match connections !! i with
    | Some conn => can_to_udp host uninit_packed_frame conn w
    | None => OutOfBounds w
    end
  | network_to_bus i =>
    match connections !! i with
    | Some conn => udp_to_can host uninit_frame uninit_packed_frame conn w
    | None => OutOfBounds w
    end
  end.

(** The calls one after the other, as long as each returns. *)
Fixpoint perform_all (cs : list call) (w : world) : outcome :=
  match cs with
  | [] => Returned w
  | c :: cs' =>
    match perform c w with
    | Returned w' => perform_all cs' w'
    | stopped => stopped
    end
  end.

Definition readable (p : pollfd) : bool :=
  negb (Z.land (revents p) POLLIN =? 0).

Definition readable_at (pfds : list pollfd) (k : nat) : bool :=
  match pfds !! k with
  | Some p => readable p
  | None => false
  end.

(** The indices of the entries that report [POLLIN] among [count]
    entries from [k] on, in increasing order. *)
Definition ready_indices (pfds : list pollfd) (k count : nat) : list nat :=
  filter (fun i => readable_at pfds i = true) (seq k count).

End Calls.

(** ** Example frames and worlds *)

Definition frame_123 : can_frame :=
  {| can_id := 0x123; can_dlc := 4;
     data := [xde; xad; xbe; xef; x00; x00; x00; x00] |}.

(** Objects filled with zero bytes, to stand for the previous contents of
    a frame in the examples. *)
Definition blank_packed_frame : packed_can_frame :=
  {| packed_can_id := 0; packed_data := repeat x00 8 |}.

Definition blank_frame : can_frame :=
  {| can_id := 0; can_dlc := 0; data := repeat x00 8 |}.

(** The two bridges of the README. *)
Definition vcan0 : config :=
  {| can_ifname := "vcan0"; in_port := "8880";
     out_host := "127.0.0.1"; out_port := "9990" |}.

Definition vcan1 : config :=
  {| can_ifname := "vcan1"; in_port := "8881";
     out_host := "127.0.0.1"; out_port := "9991" |}.

Definition bridge0 : connection :=
  {| conn_config := vcan0; can_sfd := 3; in_sfd := 4; out_sfd := 5 |}.

Definition bridge1 : connection :=
  {| conn_config := vcan1; can_sfd := 6; in_sfd := 7; out_sfd := 8 |}.

Definition idle {A : Type} : socket A := {| rx := []; tx := []; sent := [] |}.

Definition pending {A : Type} (q : list (arrival A)) : socket A :=
  {| rx := q; tx := []; sent := [] |}.

(** Both bridges open; [bus0] is the CAN socket of [bridge0] and [net0]
    its receiving UDP socket. *)
Definition example_world (bus0 : socket can_frame) (net0 : socket (list byte))
    (ps : list poll_report) : world :=
  {| can_sockets := {[ 3 := bus0; 6 := idle ]};
     udp_sockets := {[ 4 := net0; 5 := idle; 7 := idle; 8 := idle ]};
     stdout := [];
     polls := ps |}.

(** Nothing is waiting anywhere. *)
Definition world_quiet : world := example_world idle idle [].

(** A datagram of 3 bytes is waiting. *)
Definition world_short : world :=
  example_world idle (pending [arrival_message [x00; x00; x01]]) [].

(** The datagram 00 00 00 AB AB is waiting. *)
Definition world_scenario_2 : world :=
  example_world idle
    (pending [arrival_message [x00; x00; x00; xab; xab]]) [].

Definition datagram_13 : list byte :=
  [x00; x00; x01; x23; x01; x02; x03; x04; x05; x06; x07; x08; x09].

(** A datagram of 13 bytes is waiting. *)
Definition world_oversized : world :=
  example_world idle (pending [arrival_message datagram_13]) [].

(** The datagram 00 00 00 AB AB is waiting and the next [send] on the bus
    fails with errno 105. *)
Definition world_bus_down : world :=
  example_world {| rx := []; tx := [Some 105]; sent := [] |}
    (pending [arrival_message [x00; x00; x00; xab; xab]]) [].

(** The frame 123#DEADBEEF is waiting on the bus and the next [send] to
    the network fails with errno 111. *)
Definition world_net_down : world :=
  {| can_sockets := {[ 3 := pending [arrival_message frame_123]; 6 := idle ]};
     udp_sockets :=
       {[ 4 := idle; 5 := {| rx := []; tx := [Some 111]; sent := [] |};
          7 := idle; 8 := idle ]};
     stdout := [];
     polls := [] |}.

(** Linux values of the <poll.h> bits, for the examples. *)
Definition POLLIN_linux : Z := 0x001.
Definition POLLERR_linux : Z := 0x008.
Definition POLLHUP_linux : Z := 0x010.

(** A frame on the bus and a datagram on the UDP port of [bridge0], and a
    [poll] that reports both readable and the UDP port of [bridge1] hung
    up. *)
Definition world_woken : world :=
  example_world (pending [arrival_message frame_123])
    (pending [arrival_message [x00; x00; x00; xab; xab]])
    [poll_ready [POLLIN_linux; POLLIN_linux; 0; POLLHUP_linux]].

(** The [pollfd] array after that [poll]. *)
Definition pfds_woken : list pollfd :=
  set_revents (watch POLLIN_linux [bridge0; bridge1])
    [POLLIN_linux; POLLIN_linux; 0; POLLHUP_linux].

(** An entry that reports only [POLLERR] and [POLLHUP]. *)
Definition hung_up : list pollfd :=
  [ {| fd := 3; events := POLLIN_linux;
       revents := Z.lor POLLERR_linux POLLHUP_linux |};
    {| fd := 4; events := POLLIN_linux; revents := 0 |} ].

(** A datagram of 3 bytes on the UDP port of [bridge0] and a frame on the
    bus of [bridge1], both reported readable. *)
Definition world_scenario_3 : world :=
  {| can_sockets := {[ 3 := idle; 6 := pending [arrival_message frame_123] ]};
     udp_sockets :=
       {[ 4 := pending [arrival_message [x00; x00; x01]];
          5 := idle; 7 := idle; 8 := idle ]};
     stdout := [];
     polls := [poll_ready [0; POLLIN_linux; POLLIN_linux; 0]] |}.

(** ** Configuration strings *)

(** How often a character occurs in a string. *)
Fixpoint occurrences (c : ascii) (s : string) : nat :=
  match s with
  | EmptyString => 0
  | String a s' => (if Ascii.eqb a c then 1 else 0) + occurrences c s'
  end.

(** The four fields of a configuration with colons between them, which is
    what [str_config] prints before it cuts it to the buffer. *)
Definition config_text (c : config) : string :=
  can_ifname c +:+ ":" +:+ in_port c +:+ ":" +:+ out_host c +:+ ":" +:+
  out_port c.

(** ** Candidates of [bind_udp] and [connect_udp] *)

(** A candidate on which [socket] succeeds and [bind] or [connect]
    fails. *)
Definition attach_failed (rp : candidate) : Prop :=
  socket_returns rp <> -1 /\ is_Some (attach_fails rp).

(** The descriptors [socket] returns for a list of candidates. *)
Definition descriptors (ai : list candidate) : gset Z :=
  list_to_set (socket_returns <$> ai).

(** The [errno] of the last failing [bind] or [connect] of a list, or
    [errcode] when none fails. *)
Fixpoint kept_errcode (errcode : Z) (ai : list candidate) : Z :=
  match ai with
  | [] => errcode
  | rp :: rest => kept_errcode (default errcode (attach_fails rp)) rest
  end.

(** The descriptor [connect_udp] holds after a list of candidates that
    all failed: the one of the last candidate, closed by then. *)
Definition last_descriptor (sfd : Z) (ai : list candidate) : Z :=
  match last ai with
  | Some rp => socket_returns rp
  | None => sfd
  end.

(** Two candidates of which the second can be bound, and two that both
    refuse the connection. *)
Definition second_binds : list candidate :=
  [ {| socket_returns := 4; socket_errno := 0; attach_fails := Some 98 |};
    {| socket_returns := 4; socket_errno := 0; attach_fails := None |} ].

Definition both_refuse : list candidate :=
  [ {| socket_returns := 5; socket_errno := 0; attach_fails := Some 111 |};
    {| socket_returns := 5; socket_errno := 0; attach_fails := Some 101 |} ].

(** ** What a call does to a socket *)

(** From [s] to [s'] at most one arrival was taken, and nothing was
    sent. *)
Definition only_received {A : Type} (s s' : socket A) : Prop :=
  tx s' = tx s /\ sent s' = sent s /\
  (rx s' = rx s \/ rx s' = tail (rx s)).

(** From [s] to [s'] nothing was taken, and at most one [send] was tried,
    which added at most one message. *)
Definition only_sent {A : Type} (s s' : socket A) : Prop :=
  rx s' = rx s /\
  ((tx s' = tx s /\ sent s' = sent s) \/
   (tx s' = tail (tx s) /\
    (sent s' = sent s \/ exists m, sent s' = sent s ++ [m]))).

(** Every socket of [m'] comes from the socket of [m] with the same
    descriptor in the way [R] says, and no socket appears or disappears. *)
Definition sockets_related {A : Type} (R : socket A -> socket A -> Prop)
    (m m' : gmap Z (socket A)) : Prop :=
  forall fd, option_Forall2 R (m !! fd) (m' !! fd).

(** A line that names the connection and a direction. *)
Definition reported_by (conn : connection) (d : direction) (l : log_line)
  : Prop :=
  line_config l = str_config (conn_config conn) /\ line_direction l = d.

(** Every frame that waits on a CAN socket has a data length code of at
    most 8. *)
Definition bus_valid (w : world) : Prop :=
  forall fd s f,
    can_sockets w !! fd = Some s ->
    arrival_message f ∈ rx s ->
    0 <= can_dlc f <= 8.

(** The loop ended neither in a failed assertion nor outside an array. *)
Definition no_crash (o : outcome) : Prop :=
  match o with
  | Aborted _ | OutOfBounds _ => False
  | Returned _ | Exited _ | Blocked _ => True
  end.

(** ** More examples *)

(** The first argument of the README's command line. *)
Definition arg_vcan0 : string := "vcan0:8880:127.0.0.1:9990".

(** The datagram for the frame 123#DEADBEEF waits on the UDP port of
    [bridge1]. *)
Definition world_peer : world :=
  {| can_sockets := {[ 3 := idle; 6 := idle ]};
     udp_sockets :=
       {[ 4 := idle; 5 := idle;
          7 := pending
                 [arrival_message [x00; x00; x01; x23; xde; xad; xbe; xef]];
          8 := idle ]};
     stdout := [];
     polls := [] |}.

(** The frame 0AB#AB as [udp_to_can] leaves it in a blank
    [struct can_frame]. *)
Definition frame_ab : can_frame :=
  {| can_id := 0xAB; can_dlc := 1;
     data := [xab; x00; x00; x00; x00; x00; x00; x00] |}.

(** ** Start-up *)

(** [conn] is what the start-up makes of the argument [config_str] under
    the answers [a]: its configuration is read from the argument, the name
    of the interface fits [ifr_name], and its three descriptors are results
    of successful [socket] calls, the first of them for the CAN socket. *)
Definition set_up (IFNAMSIZ : Z) (config_str : string) (a : answers)
    (conn : connection) : Prop :=
  parse_config true config_str = Ready (conn_config conn) /\
  Z.of_nat (String.length (can_ifname (conn_config conn))) < IFNAMSIZ /\
  can_sfd conn = can_socket_returns a /\
  can_sfd conn <> -1 /\ in_sfd conn <> -1 /\ out_sfd conn <> -1.

(** Entry [k] of the array [pfds] watches the descriptor [sfd]. *)
Definition watches (POLLIN : Z) (pfds : list pollfd) (k : nat) (sfd : Z)
  : Prop :=
  exists p, pfds !! k = Some p /\ fd p = sfd /\ events p = POLLIN.

(** Answers under which the first bridge of the README starts. *)
Definition answers_vcan0 : answers :=
  {| strdup_memory := true;
     can_socket_returns := 3; can_socket_errno := 0;
     ioctl_fails := None; can_bind_fails := None;
     in_errcode := 0; in_ai := second_binds;
     out_errcode := 0;
     out_ai := [ {| socket_returns := 5; socket_errno := 0;
                    attach_fails := None |} ] |}.

(** The failures that report an answer of the system, not the command
    line or the memory. *)
Definition system_refused (why : failure) : Prop :=
  match why with
  | socket_failed _ | resolve_failed _ | bind_failed _ | connect_failed _ =>
    True
  | out_of_memory | usage | invalid_config _ => False
  end.

(** What a failure of the start-up says about the command line [args] and
    the memory. *)
Definition explained (args : list (string * answers))
    (malloc_memory : bool * bool) (why : failure) : Prop :=
  match why with
  | usage => args = []
  | invalid_config config_str =>
    exists i a, args !! i = Some (config_str, a) /\
                (occurrences ":" config_str < 3)%nat
  | out_of_memory =>
    args <> [] /\
    (malloc_memory <> (true, true) \/
     exists i config_str a, args !! i = Some (config_str, a) /\
                            strdup_memory a = false)
  | _ => args <> []
  end.

(** An argument whose interface name has sixteen characters, one more than
    [ifr_name] holds on Linux besides the terminator. *)
Definition arg_long_name : string := "vcan000000000000:8880:127.0.0.1:9990".

(** What the two arrays allocated by [main] might hold at first. *)
Definition stale_connection (i : nat) : connection := bridge1.

Definition stale_pollfd (i : nat) : pollfd :=
  {| fd := 9; events := 9; revents := POLLIN_linux |}.

(** A command line for one bridge, and one whose second argument lacks
    two fields. *)
Definition args_vcan0 : list (string * answers) :=
  [ (arg_vcan0, answers_vcan0) ].

Definition args_short : list (string * answers) :=
  [ (arg_vcan0, answers_vcan0); ("vcan1:8881", answers_vcan0) ].

(** * Properties *)

(** ** Bytes and byte order *)

Lemma Z_of_byte_range (b : byte) : 0 <= Z_of_byte b < 256.
Proof.
  unfold Z_of_byte. pose proof (Byte.to_N_bounded b) as H.
  split; [apply N2Z.is_nonneg|]. lia.
Qed.

Lemma Z_of_byte_of_Z (z : Z) : Z_of_byte (byte_of_Z z) = z mod 256.
Proof.
  unfold Z_of_byte, byte_of_Z.
  assert (Hr : 0 <= z mod 256 < 256) by (apply Z.mod_pos_bound; lia).
  destruct (Byte.of_N (Z.to_N (z mod 256))) as [b|] eqn:E.
  - apply Byte.to_of_N in E. rewrite E. lia.
  - apply Byte.of_N_None_iff in E. lia.
Qed.

Lemma byte_of_Z_of_byte (b : byte) : byte_of_Z (Z_of_byte b) = b.
Proof.
  unfold byte_of_Z, Z_of_byte.
  pose proof (Byte.to_N_bounded b) as Hb.
  rewrite Z.mod_small by lia.
  rewrite N2Z.id, Byte.of_to_N. reflexivity.
Qed.

Lemma byte_of_Z_mod (z : Z) (b : byte) :
  z mod 256 = Z_of_byte b -> byte_of_Z z = b.
Proof.
  intros H. unfold byte_of_Z. rewrite H. unfold Z_of_byte.
  rewrite N2Z.id, Byte.of_to_N. reflexivity.
Qed.

Lemma be_value_bytes (v : Z) : be_value (be_bytes v) = to_uint32 v.
Proof.
  unfold be_value, be_bytes, to_uint32. cbn [nth].
  rewrite !Z_of_byte_of_Z.
  change (2 ^ 24) with 16777216. change (2 ^ 16) with 65536.
  change (2 ^ 8) with 256. change (2 ^ 32) with 4294967296.
  Z.div_mod_to_equations. lia.
Qed.

Lemma be_bytes_value (b0 b1 b2 b3 : byte) (bs : list byte) :
  be_bytes (be_value (b0 :: b1 :: b2 :: b3 :: bs)) = [b0; b1; b2; b3].
Proof.
  unfold be_value, be_bytes. cbn [nth].
  pose proof (Z_of_byte_range b0). pose proof (Z_of_byte_range b1).
  pose proof (Z_of_byte_range b2). pose proof (Z_of_byte_range b3).
  change (2 ^ 24) with 16777216. change (2 ^ 16) with 65536.
  change (2 ^ 8) with 256.
  repeat f_equal; apply byte_of_Z_mod; Z.div_mod_to_equations; lia.
Qed.

Lemma store_htonl (host : endianness) (v : Z) :
  store_u32 host (htonl host v) = be_bytes v.
Proof.
  unfold htonl, load_u32, store_u32.
  destruct host; unfold be_bytes at 2 3; cbn [take rev app].
  - rewrite be_bytes_value. reflexivity.
  - apply be_bytes_value.
Qed.

Lemma ntohl_load (host : endianness) (b0 b1 b2 b3 : byte) (bs : list byte) :
  ntohl host (load_u32 host (b0 :: b1 :: b2 :: b3 :: bs))
  = be_value [b0; b1; b2; b3].
Proof.
  unfold ntohl, load_u32, store_u32.
  change (take 4 (b0 :: b1 :: b2 :: b3 :: bs)) with [b0; b1; b2; b3].
  destruct host; cbn [rev app]; rewrite be_bytes_value; reflexivity.
Qed.

Lemma ntohl_htonl (host : endianness) (v : Z) :
  ntohl host (htonl host v) = to_uint32 v.
Proof. unfold ntohl. rewrite store_htonl. apply be_value_bytes. Qed.

Lemma length_be_bytes (v : Z) : length (be_bytes v) = 4%nat.
Proof. reflexivity. Qed.

(** ** The codec *)

Lemma take_memcpy (dst src : list byte) (n : Z) :
  (Z.to_nat n <= length src)%nat ->
  take (Z.to_nat n) (memcpy dst src n) = take (Z.to_nat n) src.
Proof.
  intros H. unfold memcpy.
  rewrite take_app_le by (rewrite length_take; lia).
  apply take_idemp.
Qed.

Lemma length_memcpy_ge (dst src : list byte) (n : Z) :
  (Z.to_nat n <= length src)%nat ->
  (Z.to_nat n <= length (memcpy dst src n))%nat.
Proof. intros H. unfold memcpy. rewrite length_app, length_take. lia. Qed.

Lemma memcpy_whole (dst src : list byte) (n : Z) :
  Z.to_nat n = length src -> memcpy dst src n = src ++ drop (Z.to_nat n) dst.
Proof. intros H. unfold memcpy. rewrite take_ge by lia. reflexivity. Qed.

Lemma memcpy_same_prefix (dst src src' : list byte) (n : Z) :
  take (Z.to_nat n) src = take (Z.to_nat n) src' ->
  memcpy dst src n = memcpy dst src' n.
Proof. intros H. unfold memcpy. rewrite H. reflexivity. Qed.

Lemma pack_can_frame_passes (host : endianness) (frame : can_frame)
    (packed_frame : packed_can_frame) :
  0 <= can_dlc frame <= 8 ->
  pack_can_frame host frame packed_frame =
  Passed ({| packed_can_id := htonl host (can_id frame);
             packed_data := memcpy (packed_data packed_frame) (data frame)
                              (can_dlc frame) |},
          4 + can_dlc frame).
Proof.
  intros H. unfold pack_can_frame, assert, checked_bind.
  unfold PACKED_CAN_FRAME_MAX_DATA_SIZE.
  destruct (Z.leb_spec (can_dlc frame) 8) as [_|]; [|lia].
  unfold PACKED_CAN_FRAME_HDR_SIZE, sizeof_packed_can_frame,
    PACKED_CAN_FRAME_MAX_DATA_SIZE, to_size_t.
  rewrite Z.mod_small by lia. do 2 f_equal. lia.
Qed.

Lemma wire_of_packed (host : endianness) (id n : Z) (d : list byte) :
  0 <= n -> (Z.to_nat n <= length d)%nat ->
  wire host {| packed_can_id := htonl host id; packed_data := d |} (4 + n)
  = be_bytes id ++ take (Z.to_nat n) d.
Proof.
  intros Hn Hd. unfold wire, packed_bytes. cbn [packed_can_id packed_data].
  rewrite store_htonl.
  replace (Z.to_nat (4 + n)) with (length (be_bytes id) + Z.to_nat n)%nat
    by (rewrite length_be_bytes; lia).
  apply take_app_add'. reflexivity.
Qed.

Lemma unpack_can_frame_passes (host : endianness) (packed : packed_can_frame)
    (size : Z) (frame : can_frame) :
  4 <= size <= 12 ->
  unpack_can_frame host packed size frame =
  Passed {| can_id := ntohl host (packed_can_id packed);
            can_dlc := size - 4;
            data := memcpy (data frame) (packed_data packed) (size - 4) |}.
Proof.
  intros H. unfold unpack_can_frame, assert, checked_bind.
  unfold PACKED_CAN_FRAME_HDR_SIZE, sizeof_packed_can_frame,
    PACKED_CAN_FRAME_MAX_DATA_SIZE, to_size_t, to_uint8.
  change (12 - 8) with 4.
  destruct (Z.leb_spec size 12) as [_|]; [|lia].
  rewrite (Z.mod_small (size - 4)) by lia.
  destruct (Z.leb_spec (size - 4) 8) as [_|]; [|lia].
  rewrite Z.mod_small by lia. reflexivity.
Qed.

Lemma ntohl_load_be_bytes (host : endianness) (v : Z) (rest : list byte) :
  ntohl host (load_u32 host (be_bytes v ++ rest)) = to_uint32 v.
Proof.
  unfold be_bytes at 1. cbn [app].
  rewrite ntohl_load. apply be_value_bytes.
Qed.

(** C1. Round trip of the codec: a frame with [can_dlc <= 8] that is
    packed and then unpacked at the length [4 + can_dlc] comes back with the
    same identifier, the same [can_dlc] and the same data bytes. This holds
    when [unpack_can_frame] is given the packed object itself and when it is
    given any receive buffer into which the [4 + can_dlc] wire bytes were
    copied. *)
Theorem codec_round_trip (host : endianness) (f : can_frame)
    (packed_frame : packed_can_frame) (frame : can_frame) :
  valid_frame f ->
  exists packed f',
    pack_can_frame host f packed_frame = Passed (packed, 4 + can_dlc f) /\
    unpack_can_frame host packed (4 + can_dlc f) frame = Passed f' /\
    (forall buf : list byte,
       unpack_can_frame host
         (packed_of_bytes host
            (memcpy buf (wire host packed (4 + can_dlc f)) (4 + can_dlc f)))
         (4 + can_dlc f) frame = Passed f') /\
    can_id f' = can_id f /\
    can_dlc f' = can_dlc f /\
    payload f' = payload f.
Proof.
  intros (Hid & Hdlc & Hlen).
  eexists. eexists.
  split; [apply pack_can_frame_passes; exact Hdlc|].
  assert (Hn : (Z.to_nat (can_dlc f) <= length (data f))%nat) by lia.
  split; [|split; [|split; [|split]]].
  - rewrite unpack_can_frame_passes by lia.
    replace (4 + can_dlc f - 4) with (can_dlc f) by lia.
    reflexivity.
  - intros buf.
    rewrite unpack_can_frame_passes by lia.
    replace (4 + can_dlc f - 4) with (can_dlc f) by lia.
    rewrite wire_of_packed by (try apply length_memcpy_ge; lia).
    rewrite take_memcpy by exact Hn.
    rewrite memcpy_whole
      by (rewrite length_app, length_be_bytes, length_take; lia).
    unfold packed_of_bytes. cbn [packed_can_id packed_data].
    rewrite <- app_assoc, ntohl_load_be_bytes, ntohl_htonl.
    rewrite (drop_app_length' _ _ 4) by reflexivity.
    do 2 f_equal. apply memcpy_same_prefix.
    rewrite take_app_le by (rewrite length_take; lia).
    rewrite take_idemp. symmetry. apply take_memcpy. exact Hn.
  - cbn [can_id packed_can_id]. rewrite ntohl_htonl.
    unfold to_uint32. apply Z.mod_small. exact Hid.
  - reflexivity.
  - unfold payload. cbn [can_dlc data packed_data].
    rewrite take_memcpy.
    + apply take_memcpy. exact Hn.
    + apply length_memcpy_ge. exact Hn.
Qed.

Lemma valid_frame_123 : valid_frame frame_123.
Proof. unfold valid_frame, frame_123; cbn. repeat split; lia. Defined.

Lemma codec_round_trip_witness :
  exists packed f',
    pack_can_frame LittleEndian frame_123 blank_packed_frame
      = Passed (packed, 4 + can_dlc frame_123) /\
    unpack_can_frame LittleEndian packed (4 + can_dlc frame_123) blank_frame
      = Passed f' /\
    (forall buf : list byte,
       unpack_can_frame LittleEndian
         (packed_of_bytes LittleEndian
            (memcpy buf (wire LittleEndian packed (4 + can_dlc frame_123))
               (4 + can_dlc frame_123)))
         (4 + can_dlc frame_123) blank_frame = Passed f') /\
    can_id f' = can_id frame_123 /\
    can_dlc f' = can_dlc frame_123 /\
    payload f' = payload frame_123.
Proof.
  exact (codec_round_trip LittleEndian frame_123 blank_packed_frame blank_frame
           valid_frame_123).
Defined.

(** C5. Boundary lengths of [unpack_can_frame]: at a length between 4
    and 12 the frame has [can_dlc = length - 4]; at length 4 that is 0, with
    no data, and at length 12 it is 8. *)
Theorem unpack_can_frame_dlc (host : endianness) (packed : packed_can_frame)
    (frame : can_frame) :
  (forall size, 4 <= size <= 12 ->
     exists f, unpack_can_frame host packed size frame = Passed f /\
               can_dlc f = size - 4) /\
  (exists f, unpack_can_frame host packed 4 frame = Passed f /\
             can_dlc f = 0 /\ payload f = []) /\
  (exists f, unpack_can_frame host packed 12 frame = Passed f /\
             can_dlc f = 8).
Proof.
  split; [|split].
  - intros size H. eexists. split.
    + apply unpack_can_frame_passes. exact H.
    + reflexivity.
  - eexists. split; [apply unpack_can_frame_passes; lia|].
    split; reflexivity.
  - eexists. split; [apply unpack_can_frame_passes; lia|]. reflexivity.
Qed.

Lemma unpack_can_frame_dlc_witness :
  exists f,
    unpack_can_frame LittleEndian blank_packed_frame 7 blank_frame = Passed f /\
            can_dlc f = 7 - 4.
Proof.
  apply (proj1 (unpack_can_frame_dlc LittleEndian blank_packed_frame
                  blank_frame) 7).
  lia.
Defined.

(** C6. Layout of the encoding: for a frame with [can_dlc <= 8],
    [pack_can_frame] passes its assertion, the size it reports is
    [4 + can_dlc], and the bytes sent are the identifier, most significant
    byte first, followed by the data bytes; they depend neither on the byte
    order of the host nor on what the packed frame held before. The frame
    with identifier 0x123 and data DE AD BE EF is sent as
    00 00 01 23 DE AD BE EF. *)
Theorem pack_can_frame_layout :
  (forall (host : endianness) (frame : can_frame)
          (packed_frame : packed_can_frame),
     0 <= can_dlc frame <= 8 -> length (data frame) = 8%nat ->
     exists packed,
       pack_can_frame host frame packed_frame
         = Passed (packed, 4 + can_dlc frame) /\
       wire host packed (4 + can_dlc frame)
         = be_bytes (can_id frame) ++ payload frame /\
       Z.of_nat (length (wire host packed (4 + can_dlc frame)))
         = 4 + can_dlc frame) /\
  (forall (host : endianness) (packed_frame : packed_can_frame),
     exists packed,
       pack_can_frame host frame_123 packed_frame = Passed (packed, 8) /\
       wire host packed 8 = [x00; x00; x01; x23; xde; xad; xbe; xef]).
Proof.
  assert (General : forall host frame packed_frame,
    0 <= can_dlc frame <= 8 -> length (data frame) = 8%nat ->
    exists packed,
      pack_can_frame host frame packed_frame
        = Passed (packed, 4 + can_dlc frame) /\
      wire host packed (4 + can_dlc frame)
        = be_bytes (can_id frame) ++ payload frame /\
      Z.of_nat (length (wire host packed (4 + can_dlc frame)))
        = 4 + can_dlc frame).
  { intros host frame packed_frame Hdlc Hlen.
    assert (Hn : (Z.to_nat (can_dlc frame) <= length (data frame))%nat) by lia.
    eexists. split; [apply pack_can_frame_passes; exact Hdlc|].
    rewrite wire_of_packed by (try apply length_memcpy_ge; lia).
    rewrite take_memcpy by exact Hn.
    split; [reflexivity|].
    rewrite length_app, length_be_bytes, length_take. lia. }
  split; [exact General|].
  intros host packed_frame.
  destruct (General host frame_123 packed_frame) as (packed & Hp & Hw & _);
    [cbn; lia | reflexivity |].
  exists packed. split; [exact Hp|].
  change (4 + can_dlc frame_123) with 8 in Hw. rewrite Hw. reflexivity.
Qed.

Lemma pack_can_frame_layout_witness :
  exists packed,
    pack_can_frame BigEndian frame_123 blank_packed_frame
      = Passed (packed, 4 + can_dlc frame_123) /\
    wire BigEndian packed (4 + can_dlc frame_123)
      = be_bytes (can_id frame_123) ++ payload frame_123 /\
    Z.of_nat (length (wire BigEndian packed (4 + can_dlc frame_123)))
      = 4 + can_dlc frame_123.
Proof.
  apply (proj1 pack_can_frame_layout BigEndian frame_123 blank_packed_frame).
  - cbn. lia.
  - reflexivity.
Defined.

(** ** Receiving and sending *)

Lemma with_udp_socket_twice (w : world) (fd : Z) (s s' : socket (list byte)) :
  with_udp_socket fd s' (with_udp_socket fd s w) = with_udp_socket fd s' w.
Proof.
  unfold with_udp_socket. cbn [can_sockets udp_sockets stdout polls].
  rewrite insert_insert_eq. reflexivity.
Qed.

Lemma recv_udp_failed (fd : Z) (buf : list byte) (len : Z) (w : world) (e : Z) :
  udp_arrival fd w = inl e ->
  recv_udp fd buf len w = (inl e, after_udp_recv fd w).
Proof.
  unfold udp_arrival, after_udp_recv, recv_udp.
  destruct (recv (udp_sockets w !! fd)) as [r s]. cbn [fst snd].
  intros ->. reflexivity.
Qed.

Lemma recv_udp_datagram (fd : Z) (buf : list byte) (len : Z) (w : world)
    (d : list byte) :
  udp_arrival fd w = inr d ->
  recv_udp fd buf len w =
  (inr (Z.of_nat (length d), memcpy buf d (Z.min (Z.of_nat (length d)) len)),
   after_udp_recv fd w).
Proof.
  unfold udp_arrival, after_udp_recv, recv_udp.
  destruct (recv (udp_sockets w !! fd)) as [r s]. cbn [fst snd].
  intros ->. reflexivity.
Qed.

Lemma recv_can_eq (fd : Z) (w : world) :
  recv_can fd w = (can_arrival fd w, after_can_recv fd w).
Proof.
  unfold can_arrival, after_can_recv, recv_can.
  destruct (recv (can_sockets w !! fd)) as [r s]. reflexivity.
Qed.

(** A [recv] leaves the other kind of sockets, the output and the [poll]
    reports alone. *)
Lemma after_udp_recv_frame (fd : Z) (w : world) :
  can_sockets (after_udp_recv fd w) = can_sockets w /\
  stdout (after_udp_recv fd w) = stdout w /\
  polls (after_udp_recv fd w) = polls w.
Proof.
  unfold after_udp_recv.
  destruct (recv (udp_sockets w !! fd)) as [r [s|]]; cbn; auto.
Qed.

Lemma after_can_recv_frame (fd : Z) (w : world) :
  udp_sockets (after_can_recv fd w) = udp_sockets w /\
  stdout (after_can_recv fd w) = stdout w /\
  polls (after_can_recv fd w) = polls w.
Proof.
  unfold after_can_recv.
  destruct (recv (can_sockets w !! fd)) as [r [s|]]; cbn; auto.
Qed.

(** The frame [unpack_can_frame] reads from a receive buffer that holds
    the first [size] bytes of the datagram [d]. *)
Lemma unpack_received (host : endianness) (buf d : list byte) (size : Z)
    (frame : can_frame) :
  4 <= size <= 12 -> size <= Z.of_nat (length d) ->
  unpack_can_frame host (packed_of_bytes host (memcpy buf d size)) size frame =
  Passed {| can_id := be_value (take 4 d);
            can_dlc := size - 4;
            data := take (Z.to_nat (size - 4)) (drop 4 d) ++
                    drop (Z.to_nat (size - 4)) (data frame) |}.
Proof.
  intros Hsize Hlen.
  rewrite unpack_can_frame_passes by exact Hsize.
  destruct d as [|b0 [|b1 [|b2 [|b3 rest]]]]; cbn [length] in Hlen; try lia.
  assert (Hnat : Z.to_nat size = S (S (S (S (Z.to_nat (size - 4)))))) by lia.
  assert (Hm : memcpy buf (b0 :: b1 :: b2 :: b3 :: rest) size =
               b0 :: b1 :: b2 :: b3 ::
               (take (Z.to_nat (size - 4)) rest ++ drop (Z.to_nat size) buf)).
  { unfold memcpy. rewrite Hnat at 1. reflexivity. }
  rewrite Hm. unfold packed_of_bytes. cbn [packed_can_id packed_data drop].
  rewrite ntohl_load. do 2 f_equal.
  rewrite !drop_0. unfold memcpy. f_equal.
  rewrite take_app_le by (rewrite length_take; lia).
  apply take_idemp.
Qed.

Lemma to_size_t_small (z : Z) : 0 <= z < 2 ^ 64 -> to_size_t z = z.
Proof. intros H. unfold to_size_t. apply Z.mod_small. exact H. Qed.

(** ** The forwarding operations *)

Section Forwarding.
Variable host : endianness.
Variable uninit_frame : world -> can_frame.
Variable uninit_packed_frame : world -> packed_can_frame.

Lemma udp_to_can_recv_failed (conn : connection) (w : world) (e : Z) :
  udp_arrival (in_sfd conn) w = inl e ->
  udp_to_can host uninit_frame uninit_packed_frame conn w =
  Returned (say conn UDP_to_CAN (recv_failed e)
              (after_udp_recv (in_sfd conn) w)).
Proof.
  intros H. unfold udp_to_can.
  rewrite (recv_udp_failed _ _ _ _ _ H). reflexivity.
Qed.

Lemma udp_to_can_too_short (conn : connection) (w : world) (d : list byte) :
  udp_arrival (in_sfd conn) w = inr d ->
  (length d < 4)%nat ->
  udp_to_can host uninit_frame uninit_packed_frame conn w =
  Returned (say conn UDP_to_CAN
              (message_too_short (Z.of_nat (length d)) 4)
              (after_udp_recv (in_sfd conn) w)).
Proof.
  intros H Hlen. unfold udp_to_can.
  rewrite (recv_udp_datagram _ _ _ _ _ H).
  rewrite to_size_t_small by lia.
  change PACKED_CAN_FRAME_HDR_SIZE with 4.
  destruct (Z.ltb_spec (Z.of_nat (length d)) 4); [reflexivity|lia].
Qed.

Lemma udp_to_can_fits (conn : connection) (w : world) (d : list byte) :
  udp_arrival (in_sfd conn) w = inr d ->
  4 <= Z.of_nat (length d) <= 12 ->
  let w1 := after_udp_recv (in_sfd conn) w in
  udp_to_can host uninit_frame uninit_packed_frame conn w =
  Returned (forward_to_bus conn
              (received_frame d (Z.of_nat (length d)) (uninit_frame w1)) w1).
Proof.
  intros H Hlen w1. unfold udp_to_can.
  rewrite (recv_udp_datagram _ _ _ _ _ H). fold w1.
  rewrite to_size_t_small by lia.
  change PACKED_CAN_FRAME_HDR_SIZE with 4.
  change sizeof_packed_can_frame with 12.
  destruct (Z.ltb_spec (Z.of_nat (length d)) 4); [lia|].
  rewrite Z.gtb_ltb.
  destruct (Z.ltb_spec 12 (Z.of_nat (length d))); [lia|].
  rewrite to_size_t_small by lia.
  rewrite Z.min_l by lia.
  rewrite unpack_received by lia.
  unfold forward_to_bus, received_frame.
  destruct (send_can _ _ _) as [[e|] w2]; reflexivity.
Qed.

Lemma udp_to_can_oversized (conn : connection) (w : world) (d : list byte) :
  udp_arrival (in_sfd conn) w = inr d ->
  12 < Z.of_nat (length d) < 2 ^ 63 ->
  let w1 := say conn UDP_to_CAN
              (message_truncated (Z.of_nat (length d)) 12)
              (after_udp_recv (in_sfd conn) w) in
  udp_to_can host uninit_frame uninit_packed_frame conn w =
  Returned (forward_to_bus conn (received_frame d 12 (uninit_frame w1)) w1).
Proof.
  intros H Hlen w1. unfold udp_to_can.
  rewrite (recv_udp_datagram _ _ _ _ _ H).
  rewrite to_size_t_small by lia.
  change PACKED_CAN_FRAME_HDR_SIZE with 4.
  change sizeof_packed_can_frame with 12.
  destruct (Z.ltb_spec (Z.of_nat (length d)) 4); [lia|].
  rewrite Z.gtb_ltb.
  destruct (Z.ltb_spec 12 (Z.of_nat (length d))); [|lia].
  fold w1. rewrite to_size_t_small by lia.
  rewrite Z.min_r by lia.
  rewrite unpack_received by lia.
  unfold forward_to_bus, received_frame.
  destruct (send_can _ _ _) as [[e|] w2]; reflexivity.
Qed.

Lemma can_to_udp_recv_failed (conn : connection) (w : world) (e : Z) :
  can_arrival (can_sfd conn) w = inl e ->
  can_to_udp host uninit_packed_frame conn w =
  Returned (say conn CAN_to_UDP (recv_failed e)
              (after_can_recv (can_sfd conn) w)).
Proof.
  intros H. unfold can_to_udp.
  rewrite recv_can_eq, H. reflexivity.
Qed.

Lemma can_to_udp_frame (conn : connection) (w : world) (frame : can_frame) :
  can_arrival (can_sfd conn) w = inr frame ->
  0 <= can_dlc frame <= 8 ->
  let w1 := say conn CAN_to_UDP (forwarded (str_can_frame frame))
              (after_can_recv (can_sfd conn) w) in
  can_to_udp host uninit_packed_frame conn w =
  Returned (forward_to_network conn
              (packed_bytes host
                 {| packed_can_id := htonl host (can_id frame);
                    packed_data :=
                      memcpy (packed_data (uninit_packed_frame w1))
                        (data frame) (can_dlc frame) |})
              (4 + can_dlc frame) w1).
Proof.
  intros H Hdlc w1. unfold can_to_udp.
  rewrite recv_can_eq, H. fold w1.
  rewrite pack_can_frame_passes by exact Hdlc.
  unfold forward_to_network.
  destruct (send_udp _ _ _ _) as [[e|] w2]; reflexivity.
Qed.

End Forwarding.

(** ** What forwarding changes *)

Lemma forward_to_bus_sends (conn : connection) (frame : can_frame) (w : world)
    (s : socket can_frame) :
  can_sockets w !! can_sfd conn = Some s ->
  (forall e, head (tx s) <> Some (Some e)) ->
  forward_to_bus conn frame w =
  with_can_socket (can_sfd conn)
    {| rx := rx s; tx := tail (tx s); sent := sent s ++ [frame] |}
    (say conn UDP_to_CAN (forwarded (str_can_frame frame)) w).
Proof.
  intros Hs Htx. unfold forward_to_bus, send_can, say, printf.
  cbn [can_sockets]. rewrite Hs. unfold send.
  destruct (tx s) as [|[e|] t]; cbn in *; try reflexivity.
  exfalso. apply (Htx e). reflexivity.
Qed.

Lemma forward_to_bus_send_fails (conn : connection) (frame : can_frame)
    (w : world) (s : socket can_frame) (e : Z) (t : list (option Z)) :
  can_sockets w !! can_sfd conn = Some s ->
  tx s = Some e :: t ->
  forward_to_bus conn frame w =
  say conn UDP_to_CAN (send_failed e)
    (with_can_socket (can_sfd conn) {| rx := rx s; tx := t; sent := sent s |}
       (say conn UDP_to_CAN (forwarded (str_can_frame frame)) w)).
Proof.
  intros Hs Htx. unfold forward_to_bus, send_can, say, printf.
  cbn [can_sockets]. rewrite Hs. unfold send. rewrite Htx. reflexivity.
Qed.

Lemma forward_to_network_send_fails (conn : connection) (buf : list byte)
    (size : Z) (w : world) (s : socket (list byte)) (e : Z)
    (t : list (option Z)) :
  udp_sockets w !! out_sfd conn = Some s ->
  tx s = Some e :: t ->
  forward_to_network conn buf size w =
  say conn CAN_to_UDP (send_failed e)
    (with_udp_socket (out_sfd conn) {| rx := rx s; tx := t; sent := sent s |} w).
Proof.
  intros Hs Htx. unfold forward_to_network, send_udp.
  rewrite Hs. unfold send. rewrite Htx. reflexivity.
Qed.

(** A line printed before [forward_to_bus] stays in front of its lines and
    changes nothing else. *)
Lemma forward_to_bus_after_printf (conn : connection) (frame : can_frame)
    (l : log_line) (w : world) :
  can_sockets (forward_to_bus conn frame (printf l w))
    = can_sockets (forward_to_bus conn frame w) /\
  udp_sockets (forward_to_bus conn frame (printf l w))
    = udp_sockets (forward_to_bus conn frame w) /\
  exists lines,
    stdout (forward_to_bus conn frame w) = stdout w ++ lines /\
    stdout (forward_to_bus conn frame (printf l w)) = stdout w ++ l :: lines.
Proof.
  unfold forward_to_bus, send_can, say, printf. cbn [can_sockets].
  destruct (send (can_sockets w !! can_sfd conn) frame) as [[e|] [s|]];
    cbn; repeat split;
    eexists; rewrite <- ?app_assoc; cbn; split; reflexivity.
Qed.

(** ** Network to bus *)

(** C4. Rejection: when the datagram received is shorter than 4 bytes, and
    when the receive fails, [udp_to_can] returns after one line of output
    (message too short, or recv failed); the datagram or the error is taken
    from the queue of [in_sfd] and nothing else changes: no CAN socket is
    written to or otherwise touched. *)
Theorem udp_to_can_rejects (host : endianness)
    (uninit_frame : world -> can_frame)
    (uninit_packed_frame : world -> packed_can_frame)
    (conn : connection) (w : world) :
  (forall d : list byte,
     udp_arrival (in_sfd conn) w = inr d ->
     (length d < 4)%nat ->
     exists w',
       udp_to_can host uninit_frame uninit_packed_frame conn w = Returned w' /\
       w' = say conn UDP_to_CAN (message_too_short (Z.of_nat (length d)) 4)
              (after_udp_recv (in_sfd conn) w) /\
       can_sockets w' = can_sockets w /\
       stdout w' = stdout w ++
         [ {| line_config := str_config (conn_config conn);
              line_direction := UDP_to_CAN;
              line_report := message_too_short (Z.of_nat (length d)) 4 |} ]) /\
  (forall errno : Z,
     udp_arrival (in_sfd conn) w = inl errno ->
     exists w',
       udp_to_can host uninit_frame uninit_packed_frame conn w = Returned w' /\
       w' = say conn UDP_to_CAN (recv_failed errno)
              (after_udp_recv (in_sfd conn) w) /\
       can_sockets w' = can_sockets w /\
       stdout w' = stdout w ++
         [ {| line_config := str_config (conn_config conn);
              line_direction := UDP_to_CAN;
              line_report := recv_failed errno |} ]).
Proof.
  destruct (after_udp_recv_frame (in_sfd conn) w) as (Hcan & Hout & _).
  split.
  - intros d Hd Hlen. eexists.
    split; [exact (udp_to_can_too_short host uninit_frame
                     uninit_packed_frame conn w d Hd Hlen)|].
    split; [reflexivity|].
    unfold say, printf. cbn [can_sockets stdout].
    rewrite Hcan, Hout. split; reflexivity.
  - intros errno He. eexists.
    split; [exact (udp_to_can_recv_failed host uninit_frame
                     uninit_packed_frame conn w errno He)|].
    split; [reflexivity|].
    unfold say, printf. cbn [can_sockets stdout].
    rewrite Hcan, Hout. split; reflexivity.
Qed.

Lemma udp_to_can_rejects_witness :
  (exists w',
     udp_to_can LittleEndian (fun _ => blank_frame)
       (fun _ => blank_packed_frame) bridge0 world_short = Returned w' /\
     can_sockets w' = can_sockets world_short) /\
  (exists w',
     udp_to_can LittleEndian (fun _ => blank_frame)
       (fun _ => blank_packed_frame) bridge0 world_quiet = Returned w' /\
     can_sockets w' = can_sockets world_quiet).
Proof.
  split.
  - destruct (proj1 (udp_to_can_rejects LittleEndian (fun _ => blank_frame)
                       (fun _ => blank_packed_frame) bridge0 world_short)
                [x00; x00; x01] eq_refl ltac:(cbn; lia))
      as (w' & Hrun & _ & Hcan & _).
    exists w'. split; assumption.
  - destruct (proj2 (udp_to_can_rejects LittleEndian (fun _ => blank_frame)
                       (fun _ => blank_packed_frame) bridge0 world_quiet)
                EAGAIN eq_refl)
      as (w' & Hrun & _ & Hcan & _).
    exists w'. split; assumption.
Defined.

(** C9. The assertions of [unpack_can_frame] cannot fail under the checks
    of [udp_to_can]: at a size between 4 and 12 both asserted conditions
    hold and the frame is unpacked, and [udp_to_can] returns whatever it
    receives. *)
Theorem unpack_assertions_hold (host : endianness)
    (uninit_frame : world -> can_frame)
    (uninit_packed_frame : world -> packed_can_frame) :
  (forall (size : Z) (packed : packed_can_frame) (frame : can_frame),
     4 <= size <= 12 ->
     (size <=? sizeof_packed_can_frame) = true /\
     (to_size_t (size - PACKED_CAN_FRAME_HDR_SIZE)
        <=? PACKED_CAN_FRAME_MAX_DATA_SIZE) = true /\
     exists f, unpack_can_frame host packed size frame = Passed f) /\
  (forall (conn : connection) (w : world),
     exists w',
       udp_to_can host uninit_frame uninit_packed_frame conn w = Returned w').
Proof.
  split.
  - intros size packed frame H.
    unfold sizeof_packed_can_frame, PACKED_CAN_FRAME_HDR_SIZE,
      PACKED_CAN_FRAME_MAX_DATA_SIZE, sizeof_packed_can_frame.
    change (12 - 8) with 4.
    rewrite to_size_t_small by lia.
    repeat split; try (apply Z.leb_le; lia).
    eexists. apply unpack_can_frame_passes. exact H.
  - intros conn w. unfold udp_to_can.
    destruct (recv_udp _ _ _ w) as [[e|[size buf]] w1]; [eexists; reflexivity|].
    change PACKED_CAN_FRAME_HDR_SIZE with 4.
    change sizeof_packed_can_frame with 12.
    assert (Hs : 0 <= to_size_t size < 2 ^ 64)
      by (apply Z.mod_pos_bound; lia).
    destruct (Z.ltb_spec (to_size_t size) 4); [eexists; reflexivity|].
    rewrite Z.gtb_ltb.
    destruct (Z.ltb_spec 12 (to_size_t size)).
    + rewrite unpack_can_frame_passes by (rewrite to_size_t_small; lia).
      destruct (send_can _ _ _) as [[e|] w2]; eexists; reflexivity.
    + rewrite unpack_can_frame_passes by lia.
      destruct (send_can _ _ _) as [[e|] w2]; eexists; reflexivity.
Qed.

Lemma unpack_assertions_hold_witness :
  (5 <=? sizeof_packed_can_frame) = true /\
  (to_size_t (5 - PACKED_CAN_FRAME_HDR_SIZE)
     <=? PACKED_CAN_FRAME_MAX_DATA_SIZE) = true /\
  exists f,
    unpack_can_frame LittleEndian blank_packed_frame 5 blank_frame = Passed f.
Proof.
  apply (proj1 (unpack_assertions_hold LittleEndian (fun _ => blank_frame)
                  (fun _ => blank_packed_frame)) 5 blank_packed_frame
           blank_frame).
  lia.
Defined.

(** C2, as stated, fails: the datagram 00 00 00 AB AB puts a frame on the
    bus whose identifier is 0xAB, not 0x00. *)
Lemma scenario_2_counterexample :
  exists w' s f,
    udp_to_can LittleEndian (fun _ => blank_frame) (fun _ => blank_packed_frame)
      bridge0 world_scenario_2 = Returned w' /\
    can_sockets w' !! can_sfd bridge0 = Some s /\
    sent s = [f] /\
    can_id f = 0xAB /\
    can_id f <> 0x00.
Proof.
  eexists. eexists. eexists.
  split; [vm_compute; reflexivity|].
  split; [vm_compute; reflexivity|].
  split; [reflexivity|].
  split; [reflexivity|]. cbn. lia.
Qed.

(** C2. End-to-end scenario 2: the 5-byte datagram 00 00 00 AB AB makes
    [udp_to_can] forward a frame with identifier 0xAB (the big-endian value
    of its first four bytes), [can_dlc = 1] and the data byte AB; when the
    [send] on the CAN socket succeeds, that frame is what is added to
    the bus. *)
Theorem scenario_2 (host : endianness) (uninit_frame : world -> can_frame)
    (uninit_packed_frame : world -> packed_can_frame)
    (conn : connection) (w : world) :
  udp_arrival (in_sfd conn) w = inr [x00; x00; x00; xab; xab] ->
  exists frame,
    udp_to_can host uninit_frame uninit_packed_frame conn w =
    Returned (forward_to_bus conn frame (after_udp_recv (in_sfd conn) w)) /\
    can_id frame = 0xAB /\
    can_dlc frame = 1 /\
    payload frame = [xab] /\
    forall s : socket can_frame,
      can_sockets w !! can_sfd conn = Some s ->
      (forall e, head (tx s) <> Some (Some e)) ->
      exists s',
        can_sockets
          (world_of (udp_to_can host uninit_frame uninit_packed_frame conn w))
          !! can_sfd conn = Some s' /\
        sent s' = sent s ++ [frame].
Proof.
  intros H.
  pose proof (udp_to_can_fits host uninit_frame uninit_packed_frame conn w
                _ H ltac:(cbn; lia)) as Hrun.
  cbv zeta in Hrun. eexists. split; [exact Hrun|].
  split; [reflexivity|]. split; [reflexivity|]. split; [reflexivity|].
  intros s Hs Htx. rewrite Hrun. cbn [world_of].
  destruct (after_udp_recv_frame (in_sfd conn) w) as (Hcan & _).
  rewrite (forward_to_bus_sends _ _ _ s) by (rewrite ?Hcan; assumption).
  eexists. split; [apply lookup_insert_eq|]. reflexivity.
Qed.

Lemma scenario_2_witness :
  exists frame s',
    udp_to_can BigEndian (fun _ => blank_frame) (fun _ => blank_packed_frame)
      bridge0 world_scenario_2 =
    Returned (forward_to_bus bridge0 frame
                (after_udp_recv (in_sfd bridge0) world_scenario_2)) /\
    can_id frame = 0xAB /\ can_dlc frame = 1 /\ payload frame = [xab] /\
    can_sockets
      (world_of (udp_to_can BigEndian (fun _ => blank_frame)
                   (fun _ => blank_packed_frame) bridge0 world_scenario_2))
      !! can_sfd bridge0 = Some s' /\
    sent s' = [frame].
Proof.
  destruct (scenario_2 BigEndian (fun _ => blank_frame)
              (fun _ => blank_packed_frame) bridge0 world_scenario_2 eq_refl)
    as (frame & H1 & H2 & H3 & H4 & H5).
  destruct (H5 idle eq_refl ltac:(intros e H; discriminate H))
    as (s' & Hs & Hsent).
  exists frame, s'. repeat split; assumption.
Defined.

Lemma received_frame_full (d : list byte) (frame : can_frame) :
  length (data frame) = 8%nat ->
  received_frame d 12 frame =
  {| can_id := be_value (take 4 d); can_dlc := 8; data := take 8 (drop 4 d) |}.
Proof.
  intros H. unfold received_frame.
  change (Z.to_nat (12 - 4)) with 8%nat. change (12 - 4) with 8.
  rewrite (drop_ge (data frame)) by lia.
  rewrite app_nil_r. reflexivity.
Qed.

Lemma received_frame_prefix (d : list byte) (frame : can_frame) :
  received_frame (take 12 d) 12 frame = received_frame d 12 frame.
Proof.
  unfold received_frame. change (Z.to_nat (12 - 4)) with 8%nat.
  rewrite take_take. change (4 `min` 12)%nat with 4%nat.
  rewrite !take_drop_commute. change (4 + 8)%nat with 12%nat.
  rewrite take_idemp. reflexivity.
Qed.

(** C3. Truncation: a datagram of more than 12 bytes is forwarded, after
    the line that reports the truncation, as the frame that
    [unpack_can_frame] reads from its first 12 bytes; the sockets end as
    they do when only those 12 bytes arrive, and the output differs by that
    one line. *)
Theorem udp_to_can_truncation (host : endianness)
    (uninit_frame : world -> can_frame)
    (uninit_packed_frame : world -> packed_can_frame)
    (conn : connection) (w : world) (s : socket (list byte))
    (d : list byte) (q : list (arrival (list byte))) :
  (forall w', length (data (uninit_frame w')) = 8%nat) ->
  udp_sockets w !! in_sfd conn = Some s ->
  rx s = arrival_message d :: q ->
  12 < Z.of_nat (length d) < 2 ^ 63 ->
  let cut :=
    with_udp_socket (in_sfd conn)
      {| rx := arrival_message (take 12 d) :: q; tx := tx s; sent := sent s |}
      w in
  let warning :=
    {| line_config := str_config (conn_config conn);
       line_direction := UDP_to_CAN;
       line_report := message_truncated (Z.of_nat (length d)) 12 |} in
  exists (frame : can_frame) (w1 : world) (lines : list log_line),
    (forall buf, unpack_can_frame host
                   (packed_of_bytes host (memcpy buf (take 12 d) 12)) 12
                   (uninit_frame w) = Passed frame) /\
    udp_to_can host uninit_frame uninit_packed_frame conn cut =
      Returned (forward_to_bus conn frame w1) /\
    udp_to_can host uninit_frame uninit_packed_frame conn w =
      Returned (forward_to_bus conn frame (printf warning w1)) /\
    can_sockets (forward_to_bus conn frame (printf warning w1))
      = can_sockets (forward_to_bus conn frame w1) /\
    udp_sockets (forward_to_bus conn frame (printf warning w1))
      = udp_sockets (forward_to_bus conn frame w1) /\
    stdout (forward_to_bus conn frame w1) = stdout w ++ lines /\
    stdout (forward_to_bus conn frame (printf warning w1))
      = stdout w ++ warning :: lines.
Proof.
  intros Hjunk Hs Hrx Hlen cut warning.
  assert (Hlen12 : length (take 12 d) = 12%nat)
    by (rewrite length_take; lia).
  assert (Harr : udp_arrival (in_sfd conn) w = inr d).
  { unfold udp_arrival. rewrite Hs. unfold recv. rewrite Hrx. reflexivity. }
  assert (Hcut : udp_arrival (in_sfd conn) cut = inr (take 12 d)).
  { unfold udp_arrival, cut, with_udp_socket. cbn [udp_sockets].
    rewrite lookup_insert_eq. reflexivity. }
  assert (Hafter : after_udp_recv (in_sfd conn) cut
                   = after_udp_recv (in_sfd conn) w).
  { assert (Hl : udp_sockets cut !! in_sfd conn =
                  Some {| rx := arrival_message (take 12 d) :: q;
                          tx := tx s; sent := sent s |})
      by apply lookup_insert_eq.
    unfold after_udp_recv. rewrite Hl, Hs.
    unfold recv. cbn [rx tx sent]. rewrite Hrx. cbn [snd put_udp_socket].
    apply with_udp_socket_twice. }
  exists {| can_id := be_value (take 4 d); can_dlc := 8;
            data := take 8 (drop 4 d) |},
    (after_udp_recv (in_sfd conn) w).
  destruct (forward_to_bus_after_printf conn
              {| can_id := be_value (take 4 d); can_dlc := 8;
                 data := take 8 (drop 4 d) |}
              warning (after_udp_recv (in_sfd conn) w))
    as (Hcan & Hudp & lines & Hout & Hout').
  destruct (after_udp_recv_frame (in_sfd conn) w) as (_ & Hstd & _).
  rewrite Hstd in Hout, Hout'.
  exists lines.
  split; [|split; [|split; [|repeat split; assumption]]].
  - intros buf. rewrite unpack_received by lia.
    fold (received_frame (take 12 d) 12 (uninit_frame w)).
    rewrite received_frame_prefix. f_equal. apply received_frame_full, Hjunk.
  - pose proof (udp_to_can_fits host uninit_frame uninit_packed_frame conn cut
                  _ Hcut ltac:(lia)) as Hrun.
    cbv zeta in Hrun. rewrite Hrun, Hafter, Hlen12.
    change (Z.of_nat 12) with 12.
    rewrite received_frame_prefix, received_frame_full by apply Hjunk.
    reflexivity.
  - pose proof (udp_to_can_oversized host uninit_frame uninit_packed_frame
                  conn w _ Harr Hlen) as Hrun.
    cbv zeta in Hrun. rewrite Hrun.
    rewrite received_frame_full by apply Hjunk.
    reflexivity.
Qed.

Lemma udp_to_can_truncation_witness :
  exists (frame : can_frame) (w1 : world),
    udp_to_can LittleEndian (fun _ => blank_frame)
      (fun _ => blank_packed_frame) bridge0 world_oversized =
    Returned
      (forward_to_bus bridge0 frame
         (printf {| line_config := str_config (conn_config bridge0);
                    line_direction := UDP_to_CAN;
                    line_report := message_truncated 13 12 |} w1)).
Proof.
  destruct (udp_to_can_truncation LittleEndian (fun _ => blank_frame)
              (fun _ => blank_packed_frame) bridge0 world_oversized
              (pending [arrival_message datagram_13]) datagram_13 []
              (fun _ => eq_refl) eq_refl eq_refl ltac:(cbn; lia))
    as (frame & w1 & lines & _ & _ & Hrun & _).
  exists frame, w1. exact Hrun.
Defined.

(** ** Isolation *)

Lemma touches_only_refl (cfd ufd : Z) (w : world) : touches_only cfd ufd w w.
Proof.
  repeat split; auto. exists []. symmetry. apply app_nil_r.
Qed.

Lemma touches_only_trans (cfd ufd : Z) (w1 w2 w3 : world) :
  touches_only cfd ufd w1 w2 -> touches_only cfd ufd w2 w3 ->
  touches_only cfd ufd w1 w3.
Proof.
  intros (Hp & Hc & Hu & l & Hl) (Hp' & Hc' & Hu' & l' & Hl').
  repeat split.
  - congruence.
  - intros fd' H. rewrite Hc', Hc by exact H. reflexivity.
  - intros fd' H. rewrite Hu', Hu by exact H. reflexivity.
  - exists (l ++ l'). rewrite Hl', Hl, app_assoc. reflexivity.
Qed.

Lemma touches_only_printf (cfd ufd : Z) (l : log_line) (w : world) :
  touches_only cfd ufd w (printf l w).
Proof. repeat split; auto. exists [l]. reflexivity. Qed.

Lemma touches_only_put_udp (cfd ufd : Z) (s : option (socket (list byte)))
    (w : world) :
  touches_only cfd ufd w (put_udp_socket ufd s w).
Proof.
  destruct s as [s|]; [|apply touches_only_refl].
  repeat split; auto.
  - intros fd' H. cbn. apply lookup_insert_ne. congruence.
  - exists []. symmetry. apply app_nil_r.
Qed.

Lemma touches_only_put_can (cfd ufd : Z) (s : option (socket can_frame))
    (w : world) :
  touches_only cfd ufd w (put_can_socket cfd s w).
Proof.
  destruct s as [s|]; [|apply touches_only_refl].
  repeat split; auto.
  - intros fd' H. cbn. apply lookup_insert_ne. congruence.
  - exists []. symmetry. apply app_nil_r.
Qed.

Lemma touches_only_recv_udp (cfd ufd : Z) (buf : list byte) (len : Z)
    (w : world) :
  touches_only cfd ufd w (recv_udp ufd buf len w).2.
Proof.
  unfold recv_udp. destruct (recv (udp_sockets w !! ufd)) as [[e|d] s];
    apply touches_only_put_udp.
Qed.

Lemma touches_only_recv_can (cfd ufd : Z) (w : world) :
  touches_only cfd ufd w (recv_can cfd w).2.
Proof.
  unfold recv_can. destruct (recv (can_sockets w !! cfd)) as [r s].
  apply touches_only_put_can.
Qed.

Lemma touches_only_send_can (cfd ufd : Z) (frame : can_frame) (w : world) :
  touches_only cfd ufd w (send_can cfd frame w).2.
Proof.
  unfold send_can. destruct (send (can_sockets w !! cfd) frame) as [r s].
  apply touches_only_put_can.
Qed.

Lemma touches_only_send_udp (cfd ufd : Z) (buf : list byte) (len : Z)
    (w : world) :
  touches_only cfd ufd w (send_udp ufd buf len w).2.
Proof.
  unfold send_udp. destruct (send (udp_sockets w !! ufd) _) as [r s].
  apply touches_only_put_udp.
Qed.

Create HintDb touches.
#[local] Hint Resolve touches_only_refl touches_only_printf
  touches_only_recv_udp touches_only_recv_can touches_only_send_can
  touches_only_send_udp : touches.

Ltac touches_step :=
  first
    [ eapply touches_only_trans; [|apply touches_only_printf]
    | eassumption
    | solve [auto with touches] ].

(** [udp_to_can] touches the receiving UDP socket and the CAN socket of
    its connection, and the output. *)
Lemma udp_to_can_touches (host : endianness)
    (uninit_frame : world -> can_frame)
    (uninit_packed_frame : world -> packed_can_frame)
    (conn : connection) (w : world) :
  touches_only (can_sfd conn) (in_sfd conn) w
    (world_of (udp_to_can host uninit_frame uninit_packed_frame conn w)).
Proof.
  unfold udp_to_can, say.
  pose proof (touches_only_recv_udp (can_sfd conn) (in_sfd conn)
                (packed_bytes host (uninit_packed_frame w))
                sizeof_packed_can_frame w) as Hrecv.
  destruct (recv_udp _ _ _ w) as [[e|[size buf]] w1]; cbn [snd] in Hrecv.
  { cbn [world_of]. repeat touches_step. }
  destruct (to_size_t size <? PACKED_CAN_FRAME_HDR_SIZE).
  { cbn [world_of]. repeat touches_step. }
  set (guarded := if to_size_t size >? sizeof_packed_can_frame
                  then _ else _).
  assert (Hg : touches_only (can_sfd conn) (in_sfd conn) w guarded.2).
  { unfold guarded. destruct (to_size_t size >? sizeof_packed_can_frame);
      cbn [snd]; repeat touches_step. }
  destruct guarded as [size' w2]. cbn [snd] in Hg.
  destruct (unpack_can_frame _ _ _ _) as [frame|]; [|exact Hg].
  match goal with
  | |- context [send_can ?fd ?f ?w0] =>
      pose proof (touches_only_send_can (can_sfd conn) (in_sfd conn) f w0)
        as Hsend;
      destruct (send_can fd f w0) as [[e|] w3]
  end; cbn [snd world_of] in *.
  - eapply touches_only_trans; [|apply touches_only_printf].
    eapply touches_only_trans; [|exact Hsend].
    eapply touches_only_trans; [exact Hg|apply touches_only_printf].
  - eapply touches_only_trans; [|exact Hsend].
    eapply touches_only_trans; [exact Hg|apply touches_only_printf].
Qed.

(** [can_to_udp] touches the CAN socket and the sending UDP socket of its
    connection, and the output. *)
Lemma can_to_udp_touches (host : endianness)
    (uninit_packed_frame : world -> packed_can_frame)
    (conn : connection) (w : world) :
  touches_only (can_sfd conn) (out_sfd conn) w
    (world_of (can_to_udp host uninit_packed_frame conn w)).
Proof.
  unfold can_to_udp, say.
  pose proof (touches_only_recv_can (can_sfd conn) (out_sfd conn) w) as Hrecv.
  destruct (recv_can _ w) as [[e|frame] w1]; cbn [snd] in Hrecv.
  { cbn [world_of]. repeat touches_step. }
  destruct (pack_can_frame _ _ _) as [[packed size]|]; cbn [world_of].
  2: { repeat touches_step. }
  match goal with
  | |- context [send_udp ?fd ?b ?n ?w0] =>
      pose proof (touches_only_send_udp (can_sfd conn) (out_sfd conn) b n w0)
        as Hsend;
      destruct (send_udp fd b n w0) as [[e|] w3]
  end; cbn [snd world_of] in *.
  - eapply touches_only_trans; [|apply touches_only_printf].
    eapply touches_only_trans; [|exact Hsend].
    eapply touches_only_trans; [exact Hrecv|apply touches_only_printf].
  - eapply touches_only_trans; [|exact Hsend].
    eapply touches_only_trans; [exact Hrecv|apply touches_only_printf].
Qed.

(** ** Recoverable errors *)

(** C8, as stated, fails for an oversized payload: the event is not
    skipped. A datagram of 13 bytes puts a frame on the bus and two lines on
    the output. *)
Lemma oversized_is_forwarded :
  exists w' s f,
    udp_to_can LittleEndian (fun _ => blank_frame) (fun _ => blank_packed_frame)
      bridge0 world_oversized = Returned w' /\
    can_sockets w' !! can_sfd bridge0 = Some s /\
    sent s = [f] /\
    can_sockets w' <> can_sockets world_oversized /\
    length (stdout w') = 2%nat.
Proof.
  eexists. eexists. eexists.
  split; [vm_compute; reflexivity|].
  split; [vm_compute; reflexivity|].
  split; [reflexivity|].
  split; [|reflexivity].
  intros H. apply (f_equal (fun m => m !! 3)) in H.
  vm_compute in H. discriminate H.
Qed.

(** C8. Recoverable errors, one event at a time. In [udp_to_can] a failed
    receive and a too-short datagram each cost one line and nothing is
    forwarded; an oversized datagram costs a warning and the frame of its
    first 12 bytes is still forwarded; a failed [send] on the bus costs a
    line after the line of the frame, one [send] was tried and nothing was
    added to the bus. In [can_to_udp] a failed receive costs one line, and a
    failed [send] to the network a line after the line of the frame, one
    [send] tried and nothing sent. In all these cases the operation
    returns, and whatever an operation does, it leaves the [poll] reports
    and the sockets of every other descriptor as they were and only adds
    lines to the output. *)
Theorem recoverable_errors (host : endianness)
    (uninit_frame : world -> can_frame)
    (uninit_packed_frame : world -> packed_can_frame)
    (conn : connection) (w : world) :
  (forall errno,
     udp_arrival (in_sfd conn) w = inl errno ->
     udp_to_can host uninit_frame uninit_packed_frame conn w =
     Returned (say conn UDP_to_CAN (recv_failed errno)
                 (after_udp_recv (in_sfd conn) w))) /\
  (forall d,
     udp_arrival (in_sfd conn) w = inr d ->
     (length d < 4)%nat ->
     udp_to_can host uninit_frame uninit_packed_frame conn w =
     Returned (say conn UDP_to_CAN
                 (message_too_short (Z.of_nat (length d)) 4)
                 (after_udp_recv (in_sfd conn) w))) /\
  (forall d,
     udp_arrival (in_sfd conn) w = inr d ->
     12 < Z.of_nat (length d) < 2 ^ 63 ->
     let w1 := say conn UDP_to_CAN
                 (message_truncated (Z.of_nat (length d)) 12)
                 (after_udp_recv (in_sfd conn) w) in
     udp_to_can host uninit_frame uninit_packed_frame conn w =
     Returned (forward_to_bus conn
                 (received_frame d 12 (uninit_frame w1)) w1)) /\
  (forall d s e t,
     udp_arrival (in_sfd conn) w = inr d ->
     4 <= Z.of_nat (length d) <= 12 ->
     can_sockets w !! can_sfd conn = Some s ->
     tx s = Some e :: t ->
     let w1 := after_udp_recv (in_sfd conn) w in
     let frame := received_frame d (Z.of_nat (length d)) (uninit_frame w1) in
     udp_to_can host uninit_frame uninit_packed_frame conn w =
     Returned
       (say conn UDP_to_CAN (send_failed e)
          (with_can_socket (can_sfd conn)
             {| rx := rx s; tx := t; sent := sent s |}
             (say conn UDP_to_CAN (forwarded (str_can_frame frame)) w1)))) /\
  (forall errno,
     can_arrival (can_sfd conn) w = inl errno ->
     can_to_udp host uninit_packed_frame conn w =
     Returned (say conn CAN_to_UDP (recv_failed errno)
                 (after_can_recv (can_sfd conn) w))) /\
  (forall frame s e t,
     can_arrival (can_sfd conn) w = inr frame ->
     0 <= can_dlc frame <= 8 ->
     udp_sockets w !! out_sfd conn = Some s ->
     tx s = Some e :: t ->
     can_to_udp host uninit_packed_frame conn w =
     Returned
       (say conn CAN_to_UDP (send_failed e)
          (with_udp_socket (out_sfd conn)
             {| rx := rx s; tx := t; sent := sent s |}
             (say conn CAN_to_UDP (forwarded (str_can_frame frame))
                (after_can_recv (can_sfd conn) w))))) /\
  touches_only (can_sfd conn) (in_sfd conn) w
    (world_of (udp_to_can host uninit_frame uninit_packed_frame conn w)) /\
  touches_only (can_sfd conn) (out_sfd conn) w
    (world_of (can_to_udp host uninit_packed_frame conn w)).
Proof.
  split; [|split; [|split; [|split; [|split; [|split; [|split]]]]]].
  - intros errno H. apply udp_to_can_recv_failed. exact H.
  - intros d H Hlen. apply udp_to_can_too_short; assumption.
  - intros d H Hlen. apply udp_to_can_oversized; assumption.
  - intros d s e t H Hlen Hs Htx. cbv zeta.
    pose proof (udp_to_can_fits host uninit_frame uninit_packed_frame conn w
                  d H Hlen) as Hrun.
    cbv zeta in Hrun. rewrite Hrun. f_equal.
    apply forward_to_bus_send_fails; [|exact Htx].
    destruct (after_udp_recv_frame (in_sfd conn) w) as (-> & _). exact Hs.
  - intros errno H. apply can_to_udp_recv_failed. exact H.
  - intros frame s e t H Hdlc Hs Htx.
    pose proof (can_to_udp_frame host uninit_packed_frame conn w frame H Hdlc)
      as Hrun.
    cbv zeta in Hrun. rewrite Hrun. f_equal.
    apply forward_to_network_send_fails; [|exact Htx].
    unfold say, printf. cbn [udp_sockets].
    destruct (after_can_recv_frame (can_sfd conn) w) as (-> & _). exact Hs.
  - apply udp_to_can_touches.
  - apply can_to_udp_touches.
Qed.

Lemma recoverable_errors_witness :
  udp_to_can LittleEndian (fun _ => blank_frame) (fun _ => blank_packed_frame)
    bridge0 world_quiet =
  Returned (say bridge0 UDP_to_CAN (recv_failed EAGAIN)
              (after_udp_recv 4 world_quiet)) /\
  udp_to_can LittleEndian (fun _ => blank_frame) (fun _ => blank_packed_frame)
    bridge0 world_short =
  Returned (say bridge0 UDP_to_CAN (message_too_short 3 4)
              (after_udp_recv 4 world_short)) /\
  udp_to_can LittleEndian (fun _ => blank_frame) (fun _ => blank_packed_frame)
    bridge0 world_oversized =
  Returned (forward_to_bus bridge0 (received_frame datagram_13 12 blank_frame)
              (say bridge0 UDP_to_CAN (message_truncated 13 12)
                 (after_udp_recv 4 world_oversized))) /\
  udp_to_can LittleEndian (fun _ => blank_frame) (fun _ => blank_packed_frame)
    bridge0 world_bus_down =
  Returned
    (say bridge0 UDP_to_CAN (send_failed 105)
       (with_can_socket 3 {| rx := []; tx := []; sent := [] |}
          (say bridge0 UDP_to_CAN (forwarded "0AB#AB")
             (after_udp_recv 4 world_bus_down)))) /\
  can_to_udp LittleEndian (fun _ => blank_packed_frame) bridge0 world_quiet =
  Returned (say bridge0 CAN_to_UDP (recv_failed EAGAIN)
              (after_can_recv 3 world_quiet)) /\
  can_to_udp LittleEndian (fun _ => blank_packed_frame) bridge0
    world_net_down =
  Returned
    (say bridge0 CAN_to_UDP (send_failed 111)
       (with_udp_socket 5 {| rx := []; tx := []; sent := [] |}
          (say bridge0 CAN_to_UDP (forwarded "123#DEADBEEF")
             (after_can_recv 3 world_net_down)))).
Proof.
  pose proof (fun w => recoverable_errors LittleEndian (fun _ => blank_frame)
                         (fun _ => blank_packed_frame) bridge0 w) as R.
  split; [|split; [|split; [|split; [|split]]]].
  - destruct (R world_quiet) as (H & _). exact (H EAGAIN eq_refl).
  - destruct (R world_short) as (_ & H & _).
    exact (H [x00; x00; x01] eq_refl ltac:(cbn; lia)).
  - destruct (R world_oversized) as (_ & _ & H & _).
    exact (H datagram_13 eq_refl ltac:(cbn; lia)).
  - destruct (R world_bus_down) as (_ & _ & _ & H & _).
    exact (H [x00; x00; x00; xab; xab]
             {| rx := []; tx := [Some 105]; sent := [] |} 105 []
             eq_refl ltac:(cbn; lia) eq_refl eq_refl).
  - destruct (R world_quiet) as (_ & _ & _ & _ & H & _).
    exact (H EAGAIN eq_refl).
  - destruct (R world_net_down) as (_ & _ & _ & _ & _ & H & _).
    exact (H frame_123 {| rx := []; tx := [Some 111]; sent := [] |} 111 []
             eq_refl ltac:(cbn; lia) eq_refl eq_refl).
Defined.

(** ** The multiplexer *)

Section Multiplexer.
Variable host : endianness.
Variable uninit_frame : world -> can_frame.
Variable uninit_packed_frame : world -> packed_can_frame.
Variable POLLIN : Z.
Variable connections : list connection.

Lemma watch_cons (conn : connection) (conns : list connection) :
  watch POLLIN (conn :: conns) =
  {| fd := can_sfd conn; events := POLLIN; revents := 0 |} ::
  {| fd := in_sfd conn; events := POLLIN; revents := 0 |} ::
  watch POLLIN conns.
Proof. reflexivity. Qed.

Lemma length_watch (conns : list connection) :
  length (watch POLLIN conns) = (2 * length conns)%nat.
Proof.
  induction conns as [|conn conns IH]; [reflexivity|].
  rewrite watch_cons. cbn [length]. rewrite IH. lia.
Qed.

Lemma watch_lookup (conns : list connection) (k : nat) (p : pollfd) :
  watch POLLIN conns !! k = Some p ->
  exists conn,
    conns !! (k / 2)%nat = Some conn /\
    fd p = if (k mod 2 =? 0)%nat then can_sfd conn else in_sfd conn.
Proof.
  revert k. induction conns as [|conn conns IH]; intros k H.
  - discriminate H.
  - rewrite watch_cons in H.
    destruct k as [|[|k]]; cbn [lookup list_lookup] in H.
    + injection H as <-. exists conn. split; reflexivity.
    + injection H as <-. exists conn. split; reflexivity.
    + destruct (IH k H) as (conn' & Hc & Hfd).
      exists conn'.
      assert (Hdiv : (S (S k) / 2 = S (k / 2))%nat).
      { change (S (S k)) with (1 * 2 + k)%nat.
        rewrite Nat.div_add_l by lia. reflexivity. }
      assert (Hmod : (S (S k) mod 2 = k mod 2)%nat).
      { change (S (S k)) with (1 * 2 + k)%nat.
        rewrite Nat.add_comm, Nat.Div0.mod_add. reflexivity. }
      rewrite Hdiv, Hmod. split; assumption.
Qed.

Lemma set_revents_lookup (pfds : list pollfd) (rs : list Z) (k : nat)
    (p : pollfd) :
  set_revents pfds rs !! k = Some p ->
  exists p0, pfds !! k = Some p0 /\ fd p = fd p0.
Proof.
  unfold set_revents. rewrite list_lookup_imap.
  destruct (pfds !! k) as [p0|]; [|discriminate].
  cbn. intros [= <-]. exists p0. split; reflexivity.
Qed.

Lemma length_set_revents (pfds : list pollfd) (rs : list Z) :
  length (set_revents pfds rs) = length pfds.
Proof. apply length_imap. Qed.

(** The body of the loop at an entry of the array [main] has built. *)
Lemma dispatch_watched (rs : list Z) (k : nat) (w : world) :
  (k < 2 * length connections)%nat ->
  let pfds := set_revents (watch POLLIN connections) rs in
  dispatch host uninit_frame uninit_packed_frame POLLIN connections pfds
    (Z.of_nat k) w =
  if readable_at POLLIN pfds k
  then perform host uninit_frame uninit_packed_frame connections
         (call_of_index k) w
  else Returned w.
Proof.
  intros Hk pfds. unfold dispatch, readable_at, readable.
  rewrite Nat2Z.id.
  destruct (pfds !! k) as [p|] eqn:Hp.
  2: { apply lookup_ge_None in Hp.
       unfold pfds in Hp. rewrite length_set_revents, length_watch in Hp.
       lia. }
  destruct (Z.land (revents p) POLLIN =? 0); [reflexivity|].
  cbn [negb].
  destruct (set_revents_lookup _ _ _ _ Hp) as (p0 & Hp0 & Hfd).
  destruct (watch_lookup _ _ _ Hp0) as (conn & Hconn & Hfd0).
  replace (Z.to_nat (Z.quot (Z.of_nat k) 2)) with (k / 2)%nat
    by (rewrite Z.quot_div_nonneg by lia;
        change 2 with (Z.of_nat 2);
        rewrite <- Nat2Z.inj_div, Nat2Z.id; reflexivity).
  rewrite Hconn. unfold call_of_index, perform.
  replace (Z.rem (Z.of_nat k) 2 =? 0) with (k mod 2 =? 0)%nat.
  2: { rewrite Z.rem_mod_nonneg by lia.
       change 2 with (Z.of_nat 2). rewrite <- Nat2Z.inj_mod.
       destruct (Nat.eqb_spec (k mod 2) 0),
         (Z.eqb_spec (Z.of_nat (k mod 2)) 0); try reflexivity; lia. }
  rewrite Hfd, Hfd0.
  destruct (k mod 2 =? 0)%nat; rewrite Hconn, Z.eqb_refl; reflexivity.
Qed.

Lemma scan_from_watched (rs : list Z) (count k : nat) (w : world) :
  (k + count <= 2 * length connections)%nat ->
  let pfds := set_revents (watch POLLIN connections) rs in
  scan_from host uninit_frame uninit_packed_frame POLLIN connections pfds
    count (Z.of_nat k) w =
  perform_all host uninit_frame uninit_packed_frame connections
    (map call_of_index (ready_indices POLLIN pfds k count)) w.
Proof.
  intros Hk pfds. revert k w Hk.
  induction count as [|count IH]; intros k w Hk; [reflexivity|].
  cbn [scan_from]. unfold ready_indices. cbn [seq].
  rewrite filter_cons.
  pose proof (dispatch_watched rs k w ltac:(lia)) as Hd.
  cbv zeta in Hd. fold pfds in Hd. rewrite Hd.
  replace (Z.of_nat k + 1) with (Z.of_nat (S k)) by lia.
  destruct (decide (readable_at POLLIN pfds k = true)) as [Hr|Hr].
  - rewrite Hr. cbn [map perform_all].
    destruct (perform _ _ _ _ (call_of_index k) w); try reflexivity.
    apply IH. lia.
  - apply not_true_is_false in Hr. rewrite Hr. apply IH. lia.
Qed.

End Multiplexer.

Lemma set_revents_again (pfds : list pollfd) (rs rs' : list Z) :
  set_revents (set_revents pfds rs) rs' = set_revents pfds rs'.
Proof.
  apply list_eq. intros k. unfold set_revents.
  rewrite !list_lookup_imap.
  destruct (pfds !! k) as [p|]; reflexivity.
Qed.

Lemma set_revents_watch_nil (POLLIN : Z) (connections : list connection) :
  set_revents (watch POLLIN connections) [] = watch POLLIN connections.
Proof.
  apply list_eq. intros k. unfold set_revents.
  rewrite list_lookup_imap.
  destruct (watch POLLIN connections !! k) as [p|] eqn:Hp; [|reflexivity].
  cbn. f_equal. apply list_elem_of_lookup_2 in Hp.
  unfold watch in Hp. apply list_elem_of_In, in_flat_map in Hp.
  destruct Hp as (conn & _ & [<-|[<-|[]]]); reflexivity.
Qed.

Lemma ready_indices_sorted (POLLIN : Z) (pfds : list pollfd) (k count : nat) :
  StronglySorted lt (ready_indices POLLIN pfds k count).
Proof.
  unfold ready_indices. revert k.
  induction count as [|count IH]; intros k; cbn [seq].
  - constructor.
  - rewrite filter_cons. destruct (decide _); [|apply IH].
    constructor; [apply IH|].
    apply Forall_forall. intros i Hi.
    apply list_elem_of_filter in Hi. destruct Hi as [_ Hi].
    apply elem_of_seq in Hi. lia.
Qed.

(** C7. Dispatch of the multiplexer. After a [poll] that reported
    [revents], the scan of the array built by [main] performs, in increasing
    order of index, one call for every entry whose [revents] include
    [POLLIN], and no other call: [can_to_udp] on bridge [i] for entry [2i],
    which watches the CAN socket of that bridge, and [udp_to_can] on
    bridge [i] for entry [2i+1], which watches its receiving UDP socket. *)
Theorem wake_dispatches (host : endianness)
    (uninit_frame : world -> can_frame)
    (uninit_packed_frame : world -> packed_can_frame)
    (POLLIN : Z) (connections : list connection) (rs : list Z) :
  let pfds := set_revents (watch POLLIN connections) rs in
  let ready := ready_indices POLLIN pfds 0 (length pfds) in
  (forall w : world,
     scan host uninit_frame uninit_packed_frame POLLIN connections pfds w =
     perform_all host uninit_frame uninit_packed_frame connections
       (map call_of_index ready) w) /\
  (forall (rs0 : list Z) (w : world),
     head (polls w) = Some (poll_ready rs) ->
     exists w',
       polls w' = tail (polls w) /\ can_sockets w' = can_sockets w /\
       udp_sockets w' = udp_sockets w /\ stdout w' = stdout w /\
       wake host uninit_frame uninit_packed_frame POLLIN connections
         (set_revents (watch POLLIN connections) rs0) w =
       (perform_all host uninit_frame uninit_packed_frame connections
          (map call_of_index ready) w', pfds)) /\
  StronglySorted lt ready /\
  (forall k : nat,
     k ∈ ready <->
     exists p, pfds !! k = Some p /\ Z.land (revents p) POLLIN <> 0) /\
  (forall i : nat,
     call_of_index (2 * i) = bus_to_network i /\
     call_of_index (2 * i + 1) = network_to_bus i) /\
  (forall (i : nat) (conn : connection),
     connections !! i = Some conn ->
     exists bus net,
       pfds !! (2 * i)%nat = Some bus /\ fd bus = can_sfd conn /\
       pfds !! (2 * i + 1)%nat = Some net /\ fd net = in_sfd conn).
Proof.
  intros pfds ready.
  assert (Hlen : length pfds = (2 * length connections)%nat)
    by (unfold pfds; rewrite length_set_revents; apply length_watch).
  assert (Hscan : forall w,
    scan host uninit_frame uninit_packed_frame POLLIN connections pfds w =
    perform_all host uninit_frame uninit_packed_frame connections
      (map call_of_index ready) w).
  { intros w. unfold scan, n_connections, ready. rewrite Hlen.
    replace (Z.to_nat (Z.of_nat (length connections) * 2))
      with (2 * length connections)%nat by lia.
    apply (scan_from_watched host uninit_frame uninit_packed_frame POLLIN
             connections rs (2 * length connections) 0 w). lia. }
  split; [exact Hscan|].
  split; [|split; [|split; [|split]]].
  - intros rs0 w Hpoll. unfold wake.
    destruct (polls w) as [|r rest]; [discriminate Hpoll|].
    injection Hpoll as ->.
    rewrite set_revents_again. fold pfds.
    exists {| can_sockets := can_sockets w; udp_sockets := udp_sockets w;
              stdout := stdout w; polls := rest |}.
    repeat split. rewrite Hscan. reflexivity.
  - apply ready_indices_sorted.
  - intros k. unfold ready, ready_indices.
    rewrite list_elem_of_filter, elem_of_seq.
    unfold readable_at, readable. split.
    + intros [Hr _]. destruct (pfds !! k) as [p|]; [|discriminate Hr].
      exists p. split; [reflexivity|].
      destruct (Z.eqb_spec (Z.land (revents p) POLLIN) 0);
        [discriminate Hr|assumption].
    + intros (p & Hp & Hr). split.
      * rewrite Hp.
        destruct (Z.eqb_spec (Z.land (revents p) POLLIN) 0);
          [contradiction|reflexivity].
      * apply lookup_lt_Some in Hp. lia.
  - intros i. unfold call_of_index.
    rewrite (Nat.mul_comm 2 i), Nat.Div0.mod_mul, Nat.div_mul by lia.
    rewrite (Nat.add_comm (i * 2) 1), Nat.Div0.mod_add, Nat.div_add by lia.
    split; reflexivity.
  - intros i conn Hconn.
    assert (Hi : (i < length connections)%nat)
      by (apply lookup_lt_Some in Hconn; exact Hconn).
    destruct (lookup_lt_is_Some_2 pfds (2 * i)%nat ltac:(lia)) as [bus Hbus].
    destruct (lookup_lt_is_Some_2 pfds (2 * i + 1)%nat ltac:(lia))
      as [net Hnet].
    exists bus, net.
    destruct (set_revents_lookup _ _ _ _ Hbus) as (b0 & Hb0 & Hfb).
    destruct (set_revents_lookup _ _ _ _ Hnet) as (n0 & Hn0 & Hfn).
    destruct (watch_lookup POLLIN _ _ _ Hb0) as (c & Hc & Hfd).
    destruct (watch_lookup POLLIN _ _ _ Hn0) as (c' & Hc' & Hfd').
    rewrite (Nat.mul_comm 2 i) in Hc, Hfd, Hc', Hfd'.
    rewrite Nat.div_mul in Hc by lia.
    rewrite Nat.Div0.mod_mul in Hfd.
    rewrite (Nat.add_comm (i * 2) 1), Nat.div_add in Hc' by lia.
    rewrite (Nat.add_comm (i * 2) 1), Nat.Div0.mod_add in Hfd'.
    cbn in Hc', Hfd, Hfd'.
    assert (c = conn) by congruence. assert (c' = conn) by congruence.
    subst c c'. repeat split; try assumption; congruence.
Qed.

Lemma wake_dispatches_witness :
  (exists w',
     polls w' = [] /\
     wake LittleEndian (fun _ => blank_frame) (fun _ => blank_packed_frame)
       POLLIN_linux [bridge0; bridge1]
       (watch POLLIN_linux [bridge0; bridge1]) world_woken =
     (perform_all LittleEndian (fun _ => blank_frame)
        (fun _ => blank_packed_frame) [bridge0; bridge1]
        [bus_to_network 0; network_to_bus 0] w', pfds_woken)) /\
  (exists bus net,
     pfds_woken !! 2%nat = Some bus /\ fd bus = can_sfd bridge1 /\
     pfds_woken !! 3%nat = Some net /\ fd net = in_sfd bridge1).
Proof.
  pose proof (wake_dispatches LittleEndian (fun _ => blank_frame)
                (fun _ => blank_packed_frame) POLLIN_linux
                [bridge0; bridge1]
                [POLLIN_linux; POLLIN_linux; 0; POLLHUP_linux]) as W.
  cbv zeta in W. destruct W as (_ & Hwake & _ & _ & _ & Hfd).
  split.
  - destruct (Hwake [] world_woken eq_refl)
      as (w' & Hpolls & _ & _ & _ & Hrun).
    exists w'. split; [exact Hpolls|].
    rewrite set_revents_watch_nil in Hrun. exact Hrun.
  - exact (Hfd 1%nat bridge1 eq_refl).
Defined.

Lemma scan_from_idle (host : endianness) (uninit_frame : world -> can_frame)
    (uninit_packed_frame : world -> packed_can_frame) (POLLIN : Z)
    (connections : list connection) (pfds : list pollfd)
    (count k : nat) (w : world) :
  (k + count <= length pfds)%nat ->
  (forall p, p ∈ pfds -> Z.land (revents p) POLLIN = 0) ->
  scan_from host uninit_frame uninit_packed_frame POLLIN connections pfds
    count (Z.of_nat k) w = Returned w.
Proof.
  intros Hk Hidle. revert k Hk.
  induction count as [|count IH]; intros k Hk; [reflexivity|].
  cbn [scan_from]. unfold dispatch. rewrite Nat2Z.id.
  destruct (lookup_lt_is_Some_2 pfds k ltac:(lia)) as [p Hp].
  rewrite Hp, (Hidle p) by (eapply list_elem_of_lookup_2; exact Hp).
  cbn [Z.eqb].
  replace (Z.of_nat k + 1) with (Z.of_nat (S k)) by lia.
  apply IH. lia.
Qed.

(** C10. No dispatch without readability. At an entry whose [revents] do
    not include [POLLIN], whatever else they include, the body of the loop
    leaves the world as it is: no forwarding call and no output. The
    entries for which a call is made all have [POLLIN] in their [revents],
    and a scan in which no entry has it changes nothing. *)
Theorem no_dispatch_without_POLLIN (host : endianness)
    (uninit_frame : world -> can_frame)
    (uninit_packed_frame : world -> packed_can_frame)
    (POLLIN : Z) (connections : list connection) (pfds : list pollfd) :
  (forall (k : nat) (p : pollfd) (w : world),
     pfds !! k = Some p ->
     Z.land (revents p) POLLIN = 0 ->
     dispatch host uninit_frame uninit_packed_frame POLLIN connections pfds
       (Z.of_nat k) w = Returned w) /\
  (forall (k : nat) (p : pollfd) (w : world),
     pfds !! k = Some p ->
     dispatch host uninit_frame uninit_packed_frame POLLIN connections pfds
       (Z.of_nat k) w <> Returned w ->
     Z.land (revents p) POLLIN <> 0) /\
  (forall k count : nat,
     k ∈ ready_indices POLLIN pfds 0 count ->
     exists p, pfds !! k = Some p /\ Z.land (revents p) POLLIN <> 0) /\
  (forall w : world,
     length pfds = (2 * length connections)%nat ->
     (forall p, p ∈ pfds -> Z.land (revents p) POLLIN = 0) ->
     scan host uninit_frame uninit_packed_frame POLLIN connections pfds w
       = Returned w).
Proof.
  assert (Hbody : forall k p w,
    pfds !! k = Some p -> Z.land (revents p) POLLIN = 0 ->
    dispatch host uninit_frame uninit_packed_frame POLLIN connections pfds
      (Z.of_nat k) w = Returned w).
  { intros k p w Hp Hr. unfold dispatch.
    rewrite Nat2Z.id, Hp, Hr. reflexivity. }
  split; [exact Hbody|]. split; [|split].
  - intros k p w Hp Hd Hr. apply Hd. apply (Hbody k p w Hp Hr).
  - intros k count Hk. unfold ready_indices in Hk.
    apply list_elem_of_filter in Hk. destruct Hk as [Hr _].
    unfold readable_at, readable in Hr.
    destruct (pfds !! k) as [p|]; [|discriminate Hr].
    exists p. split; [reflexivity|].
    destruct (Z.eqb_spec (Z.land (revents p) POLLIN) 0);
      [discriminate Hr|assumption].
  - intros w Hlen Hidle. unfold scan, n_connections.
    apply (scan_from_idle host uninit_frame uninit_packed_frame POLLIN
             connections pfds _ 0 w); [lia|exact Hidle].
Qed.

Lemma no_dispatch_without_POLLIN_witness :
  dispatch LittleEndian (fun _ => blank_frame) (fun _ => blank_packed_frame)
    POLLIN_linux [bridge0] hung_up (Z.of_nat 0) world_woken
  = Returned world_woken /\
  Z.land POLLIN_linux POLLIN_linux <> 0 /\
  (exists p, pfds_woken !! 1%nat = Some p /\
             Z.land (revents p) POLLIN_linux <> 0) /\
  scan LittleEndian (fun _ => blank_frame) (fun _ => blank_packed_frame)
    POLLIN_linux [bridge0] hung_up world_woken = Returned world_woken.
Proof.
  pose proof (fun conns pfds =>
                no_dispatch_without_POLLIN LittleEndian (fun _ => blank_frame)
                  (fun _ => blank_packed_frame) POLLIN_linux conns pfds) as N.
  split; [|split; [|split]].
  - destruct (N [bridge0] hung_up) as (H & _).
    exact (H 0%nat _ world_woken eq_refl eq_refl).
  - destruct (N [bridge0; bridge1] pfds_woken) as (_ & H & _).
    apply (H 0%nat {| fd := 3; events := POLLIN_linux;
                      revents := POLLIN_linux |} world_woken eq_refl).
    intros Heq.
    apply (f_equal (fun o => length (stdout (world_of o)))) in Heq.
    vm_compute in Heq. discriminate Heq.
  - destruct (N [bridge0; bridge1] pfds_woken) as (_ & _ & H & _).
    apply (H 1%nat 4%nat).
    apply list_elem_of_In. vm_compute. right. left. reflexivity.
  - destruct (N [bridge0] hung_up) as (_ & _ & _ & H).
    apply H; [reflexivity|].
    intros p Hp. apply list_elem_of_In in Hp.
    destruct Hp as [<-|[<-|[]]]; reflexivity.
Defined.

(** ** The scenarios of the README, run through the loop *)

(** One turn of the loop with a frame 123#DEADBEEF on the bus of the first
    bridge and the datagram 00 00 00 AB AB on its UDP port: the datagram
    00 00 01 23 DE AD BE EF leaves for the network, the frame 0AB#AB goes
    to the bus, and each is reported. *)
Example both_directions :
  exists w' bus net,
    event_loop LittleEndian (fun _ => blank_frame)
      (fun _ => blank_packed_frame) POLLIN_linux 1 [bridge0; bridge1]
      (watch POLLIN_linux [bridge0; bridge1]) world_woken = Returned w' /\
    udp_sockets w' !! out_sfd bridge0 = Some net /\
    sent net = [[x00; x00; x01; x23; xde; xad; xbe; xef]] /\
    can_sockets w' !! can_sfd bridge0 = Some bus /\
    map str_can_frame (sent bus) = ["0AB#AB"] /\
    stdout w' =
      [ {| line_config := "vcan0:8880:127.0.0.1:9990";
           line_direction := CAN_to_UDP;
           line_report := forwarded "123#DEADBEEF" |};
        {| line_config := "vcan0:8880:127.0.0.1:9990";
           line_direction := UDP_to_CAN;
           line_report := forwarded "0AB#AB" |} ].
Proof.
  eexists. eexists. eexists.
  split; [vm_compute; reflexivity|].
  split; [vm_compute; reflexivity|].
  split; [reflexivity|].
  split; [vm_compute; reflexivity|].
  split; reflexivity.
Qed.

(** A datagram of 3 bytes on the first bridge is dropped without a write
    to the bus, and the same scan still serves the second bridge. *)
Example short_datagram_dropped :
  exists w' net,
    event_loop BigEndian (fun _ => blank_frame)
      (fun _ => blank_packed_frame) POLLIN_linux 1 [bridge0; bridge1]
      (watch POLLIN_linux [bridge0; bridge1]) world_scenario_3 = Returned w' /\
    can_sockets w' !! can_sfd bridge0 = Some idle /\
    udp_sockets w' !! out_sfd bridge1 = Some net /\
    sent net = [[x00; x00; x01; x23; xde; xad; xbe; xef]] /\
    stdout w' =
      [ {| line_config := "vcan0:8880:127.0.0.1:9990";
           line_direction := UDP_to_CAN;
           line_report := message_too_short 3 4 |};
        {| line_config := "vcan1:8881:127.0.0.1:9991";
           line_direction := CAN_to_UDP;
           line_report := forwarded "123#DEADBEEF" |} ].
Proof.
  eexists. eexists.
  split; [vm_compute; reflexivity|].
  split; [vm_compute; reflexivity|].
  split; [vm_compute; reflexivity|].
  split; reflexivity.
Qed.

(** ** Configuration strings *)

Lemma append_nil_l (s : string) : "" +:+ s = s.
Proof. reflexivity. Qed.

Lemma append_cons (a : ascii) (s1 s2 : string) :
  String a s1 +:+ s2 = String a (s1 +:+ s2).
Proof. reflexivity. Qed.

Lemma occurrences_app (c : ascii) (s1 s2 : string) :
  occurrences c (s1 +:+ s2) = (occurrences c s1 + occurrences c s2)%nat.
Proof.
  induction s1 as [|a s1 IH]; [reflexivity|].
  rewrite append_cons. cbn [occurrences]. rewrite IH. lia.
Qed.

Lemma cut_at_Some (c : ascii) (s before after : string) :
  cut_at c s = Some (before, after) ->
  s = before +:+ String c after /\ occurrences c before = 0%nat.
Proof.
  revert before. induction s as [|a s IH]; intros before H; cbn in H.
  - discriminate H.
  - destruct (Ascii.eqb_spec a c) as [->|Hne].
    + injection H as <- <-. split; reflexivity.
    + destruct (cut_at c s) as [[b' a']|]; [|discriminate H].
      injection H as <- <-.
      destruct (IH b' eq_refl) as [-> Hocc].
      split; [reflexivity|]. cbn [occurrences].
      destruct (Ascii.eqb_spec a c); [contradiction|exact Hocc].
Qed.

Lemma cut_at_None (c : ascii) (s : string) :
  cut_at c s = None <-> occurrences c s = 0%nat.
Proof.
  induction s as [|a s IH]; cbn; [tauto|].
  destruct (Ascii.eqb_spec a c) as [->|Hne].
  - split; [discriminate|lia].
  - destruct (cut_at c s) as [[b' a']|].
    + split; [discriminate|]. intros H. apply IH in H. discriminate H.
    + cbn. split; intros _; [apply IH|]; reflexivity.
Qed.

Lemma cut_at_app (c : ascii) (before after : string) :
  occurrences c before = 0%nat ->
  cut_at c (before +:+ String c after) = Some (before, after).
Proof.
  induction before as [|a before IH]; intros H.
  - rewrite append_nil_l. cbn [cut_at]. rewrite Ascii.eqb_refl. reflexivity.
  - rewrite append_cons. cbn [cut_at occurrences] in *.
    destruct (Ascii.eqb_spec a c); [discriminate H|].
    rewrite IH by exact H. reflexivity.
Qed.

Lemma cut_at_occurrences (c : ascii) (s before after : string) :
  cut_at c s = Some (before, after) ->
  occurrences c s = S (occurrences c after).
Proof.
  intros H. destruct (cut_at_Some c s before after H) as [-> Hocc].
  rewrite occurrences_app, Hocc. cbn [occurrences Nat.add].
  rewrite Ascii.eqb_refl. reflexivity.
Qed.

Lemma substring_whole (n : nat) (s : string) :
  (String.length s <= n)%nat -> String.substring 0 n s = s.
Proof.
  revert n. induction s as [|a s IH]; intros n H.
  - destruct n; reflexivity.
  - destruct n as [|n]; cbn in H; [lia|].
    cbn. rewrite IH by lia. reflexivity.
Qed.

(** X1. [parse_config] accepts exactly the strings with at least three
    colons: with fewer it exits with the message for an invalid
    configuration, whatever else the string holds, and when [strdup] finds
    no memory it exits for that reason before it looks at the string. *)
Theorem parse_config_accepts (config_str : string) :
  ((exists c, parse_config true config_str = Ready c) <->
   (3 <= occurrences ":" config_str)%nat) /\
  (parse_config true config_str = Fatal (invalid_config config_str) <->
   (occurrences ":" config_str < 3)%nat) /\
  parse_config false config_str = Fatal out_of_memory.
Proof.
  unfold parse_config, xstrdup.
  destruct (cut_at ":" config_str) as [[f1 s1]|] eqn:E1.
  2: { apply cut_at_None in E1. rewrite E1.
       repeat split; try reflexivity; try lia.
       intros [c Hc]. discriminate Hc. }
  rewrite (cut_at_occurrences _ _ _ _ E1).
  destruct (cut_at ":" s1) as [[f2 s2]|] eqn:E2.
  2: { apply cut_at_None in E2. rewrite E2.
       repeat split; try reflexivity; try lia.
       intros [c Hc]. discriminate Hc. }
  rewrite (cut_at_occurrences _ _ _ _ E2).
  destruct (cut_at ":" s2) as [[f3 s3]|] eqn:E3.
  2: { apply cut_at_None in E3. rewrite E3.
       repeat split; try reflexivity; try lia.
       intros [c Hc]. discriminate Hc. }
  rewrite (cut_at_occurrences _ _ _ _ E3).
  repeat split; try lia; try discriminate.
  intros _. eexists. reflexivity.
Qed.

(** X2. What [parse_config] returns: the four fields, joined by colons,
    are the string it was given; the first three hold no colon (the last
    may); and [str_config] prints the string back, whole when it has at
    most 255 characters and cut to 255 otherwise. *)
Theorem parse_config_fields (enough_memory : bool) (config_str : string)
    (c : config) :
  parse_config enough_memory config_str = Ready c ->
  config_text c = config_str /\
  occurrences ":" (can_ifname c) = 0%nat /\
  occurrences ":" (in_port c) = 0%nat /\
  occurrences ":" (out_host c) = 0%nat /\
  str_config c = String.substring 0 255 config_str /\
  ((String.length config_str <= 255)%nat -> str_config c = config_str).
Proof.
  unfold parse_config, xstrdup. destruct enough_memory; [|discriminate].
  destruct (cut_at ":" config_str) as [[f1 s1]|] eqn:E1; [|discriminate].
  destruct (cut_at ":" s1) as [[f2 s2]|] eqn:E2; [|discriminate].
  destruct (cut_at ":" s2) as [[f3 s3]|] eqn:E3; [|discriminate].
  intros [= <-].
  destruct (cut_at_Some _ _ _ _ E1) as [H1 O1].
  destruct (cut_at_Some _ _ _ _ E2) as [H2 O2].
  destruct (cut_at_Some _ _ _ _ E3) as [H3 O3].
  assert (Htext : config_text
            {| can_ifname := f1; in_port := f2; out_host := f3;
               out_port := s3 |} = config_str).
  { unfold config_text. cbn [can_ifname in_port out_host out_port].
    rewrite H1, H2, H3. reflexivity. }
  split; [exact Htext|].
  repeat split; try assumption.
  - unfold str_config. fold (config_text
            {| can_ifname := f1; in_port := f2; out_host := f3;
               out_port := s3 |}).
    rewrite Htext. reflexivity.
  - intros Hlen. unfold str_config. fold (config_text
            {| can_ifname := f1; in_port := f2; out_host := f3;
               out_port := s3 |}).
    rewrite Htext. apply substring_whole. exact Hlen.
Qed.

(** X3. Round trip of the configuration: a configuration whose interface
    name, listen port and host hold no colon is what [parse_config] reads
    from its text, so the text determines the four fields. *)
Theorem parse_config_text (c : config) :
  occurrences ":" (can_ifname c) = 0%nat ->
  occurrences ":" (in_port c) = 0%nat ->
  occurrences ":" (out_host c) = 0%nat ->
  parse_config true (config_text c) = Ready c.
Proof.
  intros O1 O2 O3. unfold parse_config, xstrdup, config_text.
  assert (Hcolon : forall s, ":" +:+ s = String ":" s) by reflexivity.
  rewrite !Hcolon.
  rewrite (cut_at_app _ _ _ O1).
  rewrite (cut_at_app _ _ _ O2).
  rewrite (cut_at_app _ _ _ O3).
  destruct c; reflexivity.
Qed.

(** ** Binding and connecting the UDP sockets *)

Lemma descriptors_cons (rp : candidate) (ai : list candidate) :
  descriptors (rp :: ai) = {[ socket_returns rp ]} ∪ descriptors ai.
Proof. reflexivity. Qed.

Lemma kept_errcode_app (errcode : Z) (ai : list candidate) (rp : candidate)
    (errno : Z) :
  attach_fails rp = Some errno ->
  kept_errcode errcode (ai ++ [rp]) = errno.
Proof.
  intros H. revert errcode.
  induction ai as [|c ai IH]; intros errcode; cbn.
  - rewrite H. reflexivity.
  - apply IH.
Qed.

(** What the loop of [bind_udp] ends with: it stops at the first candidate
    on which [socket] fails or [bind] succeeds, and otherwise runs through
    the list. *)
Lemma bind_udp_loop_spec (ai : list candidate) (sfd0 errcode : Z)
    (open : gset Z) :
  match bind_udp_loop ai sfd0 errcode open with
  | Fatal why =>
    exists before rp after,
      ai = before ++ rp :: after /\ Forall attach_failed before /\
      socket_returns rp = -1 /\ why = socket_failed (socket_errno rp)
  | Ready (sfd, errcode', open') =>
    (exists before rp after,
       ai = before ++ rp :: after /\ Forall attach_failed before /\
       socket_returns rp = sfd /\ sfd <> -1 /\ attach_fails rp = None /\
       open' = {[ sfd ]} ∪ (open ∖ descriptors before)) \/
    (Forall attach_failed ai /\
     sfd = match ai with [] => sfd0 | _ :: _ => -1 end /\
     errcode' = kept_errcode errcode ai /\
     open' = open ∖ descriptors ai)
  end.
Proof.
  revert sfd0 errcode open.
  induction ai as [|rp rest IH]; intros sfd0 errcode open.
  - cbn. right. repeat split; [constructor|]. unfold descriptors. cbn.
    set_solver.
  - cbn [bind_udp_loop].
    destruct (Z.eqb_spec (socket_returns rp) (-1)) as [Hs|Hs].
    { exists [], rp, rest. repeat split; [constructor|exact Hs]. }
    destruct (attach_fails rp) as [errno|] eqn:Ha.
    2: { left. exists [], rp, rest.
         repeat split; try assumption; [constructor|].
         unfold descriptors. cbn. set_solver. }
    specialize (IH (-1) errno (({[socket_returns rp]} ∪ open)
                                 ∖ {[socket_returns rp]})).
    assert (Hrp : attach_failed rp) by (split; [exact Hs|rewrite Ha; eauto]).
    destruct (bind_udp_loop rest _ _ _) as [[[sfd e'] open']|why].
    + destruct IH as [(before & c & after & -> & Hb & Hc & Hne & Hok & Ho)
                     |(Hall & Hsfd & He & Ho)].
      * left. exists (rp :: before), c, after.
        repeat split; try assumption; [constructor; assumption|].
        rewrite Ho, descriptors_cons. set_solver.
      * right. repeat split.
        -- constructor; assumption.
        -- destruct rest; exact Hsfd.
        -- cbn. rewrite Ha. exact He.
        -- rewrite Ho, descriptors_cons. set_solver.
    + destruct IH as (before & c & after & -> & Hb & Hc & Hw).
      exists (rp :: before), c, after.
      repeat split; try assumption. constructor; assumption.
Qed.

Lemma last_descriptor_cons (sfd : Z) (rp : candidate) (ai : list candidate) :
  last_descriptor sfd (rp :: ai) = last_descriptor (socket_returns rp) ai.
Proof.
  destruct ai as [|c ai]; [reflexivity|].
  unfold last_descriptor.
  change (last (rp :: c :: ai)) with (last (c :: ai)).
  destruct (last (c :: ai)) as [x|] eqn:Hl; [reflexivity|].
  apply last_None in Hl. discriminate Hl.
Qed.

(** The loop of [connect_udp]: as for [bind_udp], except for the
    descriptor it holds when every candidate failed. *)
Lemma connect_udp_loop_spec (ai : list candidate) (sfd0 errcode : Z)
    (open : gset Z) :
  match connect_udp_loop ai sfd0 errcode open with
  | Fatal why =>
    exists before rp after,
      ai = before ++ rp :: after /\ Forall attach_failed before /\
      socket_returns rp = -1 /\ why = socket_failed (socket_errno rp)
  | Ready (sfd, errcode', open') =>
    (exists before rp after,
       ai = before ++ rp :: after /\ Forall attach_failed before /\
       socket_returns rp = sfd /\ sfd <> -1 /\ attach_fails rp = None /\
       open' = {[ sfd ]} ∪ (open ∖ descriptors before)) \/
    (Forall attach_failed ai /\
     sfd = last_descriptor sfd0 ai /\
     errcode' = kept_errcode errcode ai /\
     open' = open ∖ descriptors ai)
  end.
Proof.
  revert sfd0 errcode open.
  induction ai as [|rp rest IH]; intros sfd0 errcode open.
  - cbn. right. repeat split; [constructor|]. unfold descriptors. cbn.
    set_solver.
  - cbn [connect_udp_loop].
    destruct (Z.eqb_spec (socket_returns rp) (-1)) as [Hs|Hs].
    { exists [], rp, rest. repeat split; [constructor|exact Hs]. }
    destruct (attach_fails rp) as [errno|] eqn:Ha.
    2: { left. exists [], rp, rest.
         repeat split; try assumption; [constructor|].
         unfold descriptors. cbn. set_solver. }
    specialize (IH (socket_returns rp) errno
                  (({[socket_returns rp]} ∪ open) ∖ {[socket_returns rp]})).
    assert (Hrp : attach_failed rp) by (split; [exact Hs|rewrite Ha; eauto]).
    destruct (connect_udp_loop rest _ _ _) as [[[sfd e'] open']|why].
    + destruct IH as [(before & c & after & -> & Hb & Hc & Hne & Hok & Ho)
                     |(Hall & Hsfd & He & Ho)].
      * left. exists (rp :: before), c, after.
        repeat split; try assumption; [constructor; assumption|].
        rewrite Ho, descriptors_cons. set_solver.
      * right. repeat split.
        -- constructor; assumption.
        -- rewrite last_descriptor_cons. exact Hsfd.
        -- cbn. rewrite Ha. exact He.
        -- rewrite Ho, descriptors_cons. set_solver.
    + destruct IH as (before & c & after & -> & Hb & Hc & Hw).
      exists (rp :: before), c, after.
      repeat split; try assumption. constructor; assumption.
Qed.

Lemma last_descriptor_failed (sfd : Z) (ai : list candidate) :
  Forall attach_failed ai -> ai <> [] -> last_descriptor sfd ai <> -1.
Proof.
  intros Hall Hne. unfold last_descriptor.
  destruct (last ai) as [rp|] eqn:Hl.
  - apply last_Some_elem_of in Hl.
    rewrite Forall_forall in Hall. apply (Hall rp Hl).
  - apply last_None in Hl. contradiction.
Qed.

Lemma last_descriptor_closed (sfd : Z) (ai : list candidate) (open : gset Z) :
  ai <> [] -> last_descriptor sfd ai ∉ open ∖ descriptors ai.
Proof.
  intros Hne. unfold last_descriptor.
  destruct (last ai) as [rp|] eqn:Hl.
  - apply last_Some_elem_of in Hl.
    assert (socket_returns rp ∈ descriptors ai).
    { unfold descriptors. rewrite elem_of_list_to_set.
      apply list_elem_of_fmap. exists rp. split; [reflexivity|exact Hl]. }
    set_solver.
  - apply last_None in Hl. contradiction.
Qed.

(** X4. The descriptor [bind_udp] returns is open and bound: it is the
    socket of the first candidate on which [bind] succeeds, [getaddrinfo]
    had succeeded and [socket] and [bind] were tried on every candidate
    before it, and the sockets of those candidates were closed again, so
    no other descriptor is left open. *)
Theorem bind_udp_ready (errcode : Z) (ai : list candidate) (open : gset Z)
    (sfd : Z) (open' : gset Z) :
  bind_udp errcode ai open = Ready (sfd, open') ->
  errcode = 0 /\ sfd <> -1 /\ sfd ∈ open' /\
  (forall fd, fd ∈ open' -> fd = sfd \/ fd ∈ open) /\
  exists before rp after,
    ai = before ++ rp :: after /\ Forall attach_failed before /\
    socket_returns rp = sfd /\ attach_fails rp = None /\
    open' = {[ sfd ]} ∪ (open ∖ descriptors before).
Proof.
  unfold bind_udp.
  destruct (Z.eqb_spec errcode 0) as [->|]; cbn [negb]; [|discriminate].
  pose proof (bind_udp_loop_spec ai (-1) 0 open) as Hloop.
  destruct (bind_udp_loop ai (-1) 0 open) as [[[s e] o]|why]; [|discriminate].
  destruct (Z.eqb_spec s (-1)) as [Hs|Hs]; [discriminate|].
  intros [= <- <-].
  destruct Hloop as [(before & rp & after & Hai & Hb & Hrp & _ & Hok & Ho)
                    |(_ & Hsfd & _)].
  - repeat split; try assumption; try reflexivity.
    + rewrite Ho. set_solver.
    + intros fd Hfd. rewrite Ho in Hfd. set_solver.
    + exists before, rp, after. repeat split; assumption.
  - destruct ai; contradiction.
Qed.

(** X5. [bind_udp] gives up with "Failed to bind" exactly when [bind]
    failed on every candidate (or there was none), and the [errno] it
    reports is that of the last candidate, which it had saved in [errcode]
    across the [close]. *)
Theorem bind_udp_fails (ai : list candidate) (open : gset Z) (errno : Z) :
  bind_udp 0 ai open = Fatal (bind_failed errno) <->
  Forall attach_failed ai /\ errno = kept_errcode 0 ai.
Proof.
  unfold bind_udp. cbn [Z.eqb negb].
  pose proof (bind_udp_loop_spec ai (-1) 0 open) as Hloop.
  destruct (bind_udp_loop ai (-1) 0 open) as [[[s e] o]|why].
  - destruct Hloop as [(before & rp & after & -> & Hb & Hrp & Hne & Hok & Ho)
                      |(Hall & Hsfd & He & _)].
    + destruct (Z.eqb_spec s (-1)); [contradiction|].
      split; [discriminate|]. intros [Hall _].
      apply Forall_app in Hall. destruct Hall as [_ Hall].
      apply Forall_cons in Hall. destruct Hall as [[_ [x Hx]] _].
      congruence.
    + assert (s = -1) as -> by (destruct ai; exact Hsfd).
      cbn [Z.eqb Pos.eqb]. split.
      * intros [= <-]. split; [exact Hall|exact He].
      * intros [_ ->]. rewrite He. reflexivity.
  - destruct Hloop as (before & rp & after & -> & Hb & Hrp & ->).
    split; [discriminate|]. intros [Hall _].
    apply Forall_app in Hall. destruct Hall as [_ Hall].
    apply Forall_cons in Hall. destruct Hall as [[Hs _] _].
    contradiction.
Qed.

(** X6. When [connect] fails on every candidate, [connect_udp] does not
    give up as [bind_udp] does: it returns the descriptor of the last
    candidate, which it has closed. It reports "Failed to connect" only
    for an empty list. *)
Theorem connect_udp_all_refused (ai : list candidate) (open : gset Z) :
  (Forall attach_failed ai -> ai <> [] ->
   connect_udp 0 ai open
     = Ready (last_descriptor (-1) ai, open ∖ descriptors ai) /\
   last_descriptor (-1) ai ∉ open ∖ descriptors ai) /\
  (forall errno,
     connect_udp 0 ai open = Fatal (connect_failed errno) <->
     ai = [] /\ errno = 0).
Proof.
  unfold connect_udp. cbn [Z.eqb negb].
  pose proof (connect_udp_loop_spec ai (-1) 0 open) as Hloop.
  split.
  - intros Hall Hne.
    split; [|apply last_descriptor_closed; exact Hne].
    destruct (connect_udp_loop ai (-1) 0 open) as [[[s e] o]|why].
    + destruct Hloop as [(before & rp & after & -> & _ & _ & _ & Hok & _)
                        |(_ & -> & _ & ->)].
      * apply Forall_app in Hall. destruct Hall as [_ Hall].
        apply Forall_cons in Hall. destruct Hall as [[_ [x Hx]] _].
        congruence.
      * destruct (Z.eqb_spec (last_descriptor (-1) ai) (-1)) as [Heq|];
          [|reflexivity].
        exfalso. exact (last_descriptor_failed _ _ Hall Hne Heq).
    + destruct Hloop as (before & rp & after & -> & _ & Hrp & _).
      apply Forall_app in Hall. destruct Hall as [_ Hall].
      apply Forall_cons in Hall. destruct Hall as [[Hs _] _].
      contradiction.
  - intros errno.
    destruct (connect_udp_loop ai (-1) 0 open) as [[[s e] o]|why].
    + destruct Hloop as [(before & rp & after & -> & _ & _ & Hne & _)
                        |(Hall & -> & -> & _)].
      * destruct (Z.eqb_spec s (-1)); [contradiction|].
        split; [discriminate|]. intros [H _].
        destruct before; discriminate H.
      * destruct ai as [|rp rest].
        -- cbn. split; [intros [= <-]; split; reflexivity|].
           intros [_ ->]. reflexivity.
        -- destruct (Z.eqb_spec (last_descriptor (-1) (rp :: rest)) (-1))
             as [Heq|].
           ++ exfalso.
              exact (last_descriptor_failed _ _ Hall ltac:(discriminate) Heq).
           ++ split; [discriminate|]. intros [H _]. discriminate H.
    + destruct Hloop as (before & rp & after & -> & _ & _ & ->).
      split; [discriminate|]. intros [H _].
      destruct before; discriminate H.
Qed.

(** X17. What [connect_udp] returns: either the socket of the first
    candidate on which [connect] succeeds, open, with the sockets tried
    before it closed again; or, when no candidate could be connected, a
    descriptor that is closed. *)
Theorem connect_udp_ready (errcode : Z) (ai : list candidate) (open : gset Z)
    (sfd : Z) (open' : gset Z) :
  connect_udp errcode ai open = Ready (sfd, open') ->
  errcode = 0 /\ sfd <> -1 /\
  (((sfd ∈ open') /\
    exists before rp after,
      ai = before ++ rp :: after /\ Forall attach_failed before /\
      socket_returns rp = sfd /\ attach_fails rp = None /\
      open' = {[ sfd ]} ∪ (open ∖ descriptors before)) \/
   ((sfd ∉ open') /\ ai <> [] /\ Forall attach_failed ai /\
    sfd = last_descriptor (-1) ai /\ open' = open ∖ descriptors ai)).
Proof.
  unfold connect_udp.
  destruct (Z.eqb_spec errcode 0) as [->|]; cbn [negb]; [|discriminate].
  pose proof (connect_udp_loop_spec ai (-1) 0 open) as Hloop.
  destruct (connect_udp_loop ai (-1) 0 open) as [[[s e] o]|why];
    [|discriminate].
  destruct (Z.eqb_spec s (-1)) as [Hs|Hs]; [discriminate|].
  intros [= <- <-].
  split; [reflexivity|]. split; [exact Hs|].
  destruct Hloop as [(before & rp & after & Hai & Hb & Hrp & _ & Hok & Ho)
                    |(Hall & Hsfd & _ & Ho)].
  - left. split; [rewrite Ho; set_solver|].
    exists before, rp, after. repeat split; assumption.
  - right.
    assert (Hne : ai <> []).
    { intros ->. apply Hs. exact Hsfd. }
    split; [rewrite Hsfd, Ho; apply last_descriptor_closed; exact Hne|].
    repeat split; assumption.
Qed.

(** ** Frames that get through *)

Lemma forward_to_network_sends (conn : connection) (buf : list byte)
    (size : Z) (w : world) (s : socket (list byte)) :
  udp_sockets w !! out_sfd conn = Some s ->
  (forall e, head (tx s) <> Some (Some e)) ->
  forward_to_network conn buf size w =
  with_udp_socket (out_sfd conn)
    {| rx := rx s; tx := tail (tx s);
       sent := sent s ++ [take (Z.to_nat size) buf] |} w.
Proof.
  intros Hs Htx. unfold forward_to_network, send_udp.
  rewrite Hs. unfold send.
  destruct (tx s) as [|[e|] t]; cbn in *; try reflexivity.
  exfalso. apply (Htx e). reflexivity.
Qed.

Lemma payload_received_frame (d : list byte) (frame : can_frame) :
  4 <= Z.of_nat (length d) ->
  payload (received_frame d (Z.of_nat (length d)) frame) = drop 4 d.
Proof.
  intros H. unfold payload, received_frame. cbn [can_dlc data].
  assert (Hn : Z.to_nat (Z.of_nat (length d) - 4) = length (drop 4 d))
    by (rewrite length_drop; lia).
  rewrite Hn, (take_ge (drop 4 d)) by lia.
  apply take_app_length.
Qed.

Lemma be_bytes_take_4 (d : list byte) :
  4 <= Z.of_nat (length d) -> be_bytes (be_value (take 4 d)) = take 4 d.
Proof.
  intros H.
  destruct d as [|b0 [|b1 [|b2 [|b3 rest]]]]; cbn [length] in H; try lia.
  change (take 4 (b0 :: b1 :: b2 :: b3 :: rest)) with [b0; b1; b2; b3].
  apply be_bytes_value.
Qed.

Lemma be_value_range (bs : list byte) : 0 <= be_value bs < 2 ^ 32.
Proof.
  unfold be_value.
  pose proof (Z_of_byte_range (nth 0 bs x00)).
  pose proof (Z_of_byte_range (nth 1 bs x00)).
  pose proof (Z_of_byte_range (nth 2 bs x00)).
  pose proof (Z_of_byte_range (nth 3 bs x00)).
  change (2 ^ 24) with 16777216. change (2 ^ 16) with 65536.
  change (2 ^ 8) with 256. change (2 ^ 32) with 4294967296. lia.
Qed.

(** X7. Bus to network, when all goes well: a frame with [can_dlc <= 8]
    taken from the bus leaves as one datagram of [4 + can_dlc] bytes, the
    identifier in network byte order followed by the data, on [out_sfd];
    one line reports it, and nothing else happens. *)
Theorem can_to_udp_forwards (host : endianness)
    (uninit_packed_frame : world -> packed_can_frame)
    (conn : connection) (w : world) (frame : can_frame)
    (s : socket (list byte)) :
  can_arrival (can_sfd conn) w = inr frame ->
  0 <= can_dlc frame <= 8 ->
  length (data frame) = 8%nat ->
  udp_sockets w !! out_sfd conn = Some s ->
  (forall e, head (tx s) <> Some (Some e)) ->
  can_to_udp host uninit_packed_frame conn w =
  Returned
    (with_udp_socket (out_sfd conn)
       {| rx := rx s; tx := tail (tx s);
          sent := sent s ++ [be_bytes (can_id frame) ++ payload frame] |}
       (say conn CAN_to_UDP (forwarded (str_can_frame frame))
          (after_can_recv (can_sfd conn) w))) /\
  Z.of_nat (length (be_bytes (can_id frame) ++ payload frame))
    = 4 + can_dlc frame.
Proof.
  intros Harr Hdlc Hlen Hs Htx.
  assert (Hn : (Z.to_nat (can_dlc frame) <= length (data frame))%nat) by lia.
  split.
  - pose proof (can_to_udp_frame host uninit_packed_frame conn w frame
                  Harr Hdlc) as Hrun.
    cbv zeta in Hrun. rewrite Hrun. f_equal.
    rewrite (forward_to_network_sends _ _ _ _ s).
    + do 3 f_equal.
      fold (wire host
              {| packed_can_id := htonl host (can_id frame);
                 packed_data :=
                   memcpy
                     (packed_data
                        (uninit_packed_frame
                           (say conn CAN_to_UDP
                              (forwarded (str_can_frame frame))
                              (after_can_recv (can_sfd conn) w))))
                     (data frame) (can_dlc frame) |} (4 + can_dlc frame)).
      rewrite wire_of_packed by (try apply length_memcpy_ge; lia).
      rewrite take_memcpy by exact Hn. reflexivity.
    + unfold say, printf. cbn [udp_sockets].
      destruct (after_can_recv_frame (can_sfd conn) w) as (-> & _). exact Hs.
    + exact Htx.
  - unfold payload. rewrite length_app, length_be_bytes, length_take. lia.
Qed.

(** X8. Network to bus, when all goes well: a datagram of 4 to 12 bytes
    is written to the bus as one frame whose identifier is the big-endian
    value of its first four bytes, whose [can_dlc] is its length less 4 and
    whose data are its remaining bytes; one line reports it, and nothing
    else happens. *)
Theorem udp_to_can_forwards (host : endianness)
    (uninit_frame : world -> can_frame)
    (uninit_packed_frame : world -> packed_can_frame)
    (conn : connection) (w : world) (d : list byte)
    (s : socket can_frame) :
  udp_arrival (in_sfd conn) w = inr d ->
  4 <= Z.of_nat (length d) <= 12 ->
  can_sockets w !! can_sfd conn = Some s ->
  (forall e, head (tx s) <> Some (Some e)) ->
  exists frame,
    udp_to_can host uninit_frame uninit_packed_frame conn w =
    Returned
      (with_can_socket (can_sfd conn)
         {| rx := rx s; tx := tail (tx s); sent := sent s ++ [frame] |}
         (say conn UDP_to_CAN (forwarded (str_can_frame frame))
            (after_udp_recv (in_sfd conn) w))) /\
    can_id frame = be_value (take 4 d) /\
    can_dlc frame = Z.of_nat (length d) - 4 /\
    payload frame = drop 4 d.
Proof.
  intros Harr Hlen Hs Htx.
  pose proof (udp_to_can_fits host uninit_frame uninit_packed_frame conn w
                d Harr Hlen) as Hrun.
  cbv zeta in Hrun. eexists. split; [|split; [|split]].
  - rewrite Hrun. f_equal. apply forward_to_bus_sends; [|exact Htx].
    destruct (after_udp_recv_frame (in_sfd conn) w) as (-> & _). exact Hs.
  - reflexivity.
  - reflexivity.
  - apply payload_received_frame. lia.
Qed.

(** X9. Two converters back to back: the datagram one of them sends for
    a frame from its bus makes the other, whatever the byte order of
    either machine, write a frame with the same identifier, the same
    [can_dlc] and the same data to its own bus. *)
Theorem relay_preserves_frame (host host' : endianness)
    (uninit_frame : world -> can_frame)
    (uninit_packed_frame uninit_packed_frame' : world -> packed_can_frame)
    (conn conn' : connection) (w : world) (f : can_frame)
    (s : socket (list byte)) :
  valid_frame f ->
  can_arrival (can_sfd conn) w = inr f ->
  udp_sockets w !! out_sfd conn = Some s ->
  (forall e, head (tx s) <> Some (Some e)) ->
  let m := be_bytes (can_id f) ++ payload f in
  exists (w1 : world) (s1 : socket (list byte)),
    can_to_udp host uninit_packed_frame conn w = Returned w1 /\
    udp_sockets w1 !! out_sfd conn = Some s1 /\
    sent s1 = sent s ++ [m] /\
    forall w' : world,
      udp_arrival (in_sfd conn') w' = inr m ->
      exists f',
        udp_to_can host' uninit_frame uninit_packed_frame' conn' w' =
        Returned (forward_to_bus conn' f' (after_udp_recv (in_sfd conn') w')) /\
        can_id f' = can_id f /\
        can_dlc f' = can_dlc f /\
        payload f' = payload f.
Proof.
  intros (Hid & Hdlc & Hlen) Harr Hs Htx m. unfold m. clear m.
  assert (Hpl : length (payload f) = Z.to_nat (can_dlc f))
    by (unfold payload; rewrite length_take; lia).
  pose proof (can_to_udp_frame host uninit_packed_frame conn w f Harr Hdlc)
    as Hrun.
  cbv zeta in Hrun.
  set (w0 := say conn CAN_to_UDP (forwarded (str_can_frame f))
               (after_can_recv (can_sfd conn) w)) in *.
  set (packed := {| packed_can_id := htonl host (can_id f);
                    packed_data :=
                      memcpy (packed_data (uninit_packed_frame w0))
                        (data f) (can_dlc f) |}) in *.
  assert (Hs0 : udp_sockets w0 !! out_sfd conn = Some s).
  { unfold w0, say, printf. cbn [udp_sockets].
    destruct (after_can_recv_frame (can_sfd conn) w) as (-> & _). exact Hs. }
  rewrite (forward_to_network_sends _ _ _ _ s Hs0 Htx) in Hrun.
  assert (Hwire : take (Z.to_nat (4 + can_dlc f)) (packed_bytes host packed)
                  = be_bytes (can_id f) ++ payload f).
  { fold (wire host packed (4 + can_dlc f)). unfold packed.
    rewrite wire_of_packed by (try apply length_memcpy_ge; lia).
    rewrite take_memcpy by lia. reflexivity. }
  rewrite Hwire in Hrun.
  eexists. eexists.
  split; [exact Hrun|]. split; [apply lookup_insert_eq|].
  split; [reflexivity|].
  intros w' Harr'.
  assert (Hm : Z.of_nat (length (be_bytes (can_id f) ++ payload f))
               = 4 + can_dlc f)
    by (rewrite length_app, length_be_bytes, Hpl; lia).
  pose proof (udp_to_can_fits host' uninit_frame uninit_packed_frame'
                conn' w' _ Harr' ltac:(lia)) as Hrun'.
  cbv zeta in Hrun'. eexists. split; [exact Hrun'|].
  split; [|split].
  - cbn [can_id received_frame].
    change (take 4 (be_bytes (can_id f) ++ payload f))
      with (be_bytes (can_id f)).
    rewrite be_value_bytes. unfold to_uint32. apply Z.mod_small. exact Hid.
  - cbn [can_dlc received_frame]. lia.
  - rewrite payload_received_frame by lia.
    rewrite (drop_app_length' (be_bytes (can_id f))) by reflexivity.
    reflexivity.
Qed.

(** X10. Decoding and encoding again gives the datagram back: the frame
    [unpack_can_frame] reads from a received datagram of 4 to 12 bytes is
    packed by [pack_can_frame] into exactly those bytes. *)
Theorem wire_round_trip (host : endianness) (d buf : list byte)
    (frame : can_frame) (packed_frame : packed_can_frame) :
  4 <= Z.of_nat (length d) <= 12 ->
  exists f packed,
    unpack_can_frame host
      (packed_of_bytes host (memcpy buf d (Z.of_nat (length d))))
      (Z.of_nat (length d)) frame = Passed f /\
    pack_can_frame host f packed_frame
      = Passed (packed, Z.of_nat (length d)) /\
    wire host packed (Z.of_nat (length d)) = d.
Proof.
  intros Hlen.
  set (n := Z.of_nat (length d) - 4).
  assert (Hd : Z.of_nat (length d) = 4 + n) by lia.
  assert (Hn : length (drop 4 d) = Z.to_nat n)
    by (rewrite length_drop; lia).
  rewrite Hd. eexists. eexists.
  split; [apply unpack_received; lia|].
  replace (4 + n - 4) with n by lia.
  split.
  - rewrite pack_can_frame_passes by (cbn [can_dlc]; lia).
    reflexivity.
  - cbn [can_dlc can_id data].
    rewrite wire_of_packed.
    + rewrite take_memcpy by (rewrite length_app, length_take; lia).
      rewrite take_app_le by (rewrite length_take; lia).
      rewrite take_idemp, be_bytes_take_4 by lia.
      rewrite <- Hn, (take_ge (drop 4 d)) by lia.
      apply take_drop.
    + lia.
    + apply length_memcpy_ge. rewrite length_app, length_take. lia.
Qed.

(** X11. The sizes [unpack_can_frame] accepts: among the values of a
    [size_t] its assertions hold exactly from 4 to 12. Above 12 the first
    one fails; below 4 the subtraction of the header size wraps around and
    the second one fails. *)
Theorem unpack_can_frame_domain (host : endianness)
    (packed : packed_can_frame) (size : Z) (frame : can_frame) :
  0 <= size < 2 ^ 64 ->
  ((exists f, unpack_can_frame host packed size frame = Passed f) <->
   4 <= size <= 12) /\
  (unpack_can_frame host packed size frame = AssertionFailed <->
   size < 4 \/ 12 < size).
Proof.
  intros Hsize.
  destruct (Z.le_gt_cases 4 size) as [H4|H4];
    [destruct (Z.le_gt_cases size 12) as [H12|H12]|].
  - rewrite unpack_can_frame_passes by lia.
    split; split; try lia; try discriminate.
    intros _. eexists. reflexivity.
  - assert (Hrun : unpack_can_frame host packed size frame = AssertionFailed).
    { unfold unpack_can_frame, assert, checked_bind.
      change sizeof_packed_can_frame with 12.
      destruct (Z.leb_spec size 12); [lia|reflexivity]. }
    rewrite Hrun. split; split; try lia; try reflexivity.
    intros [f Hf]. discriminate Hf.
  - assert (Hrun : unpack_can_frame host packed size frame = AssertionFailed).
    { unfold unpack_can_frame, assert, checked_bind.
      change sizeof_packed_can_frame with 12.
      change PACKED_CAN_FRAME_HDR_SIZE with 4.
      change PACKED_CAN_FRAME_MAX_DATA_SIZE with 8.
      destruct (Z.leb_spec size 12); [|lia].
      assert (Hwrap : to_size_t (size - 4) = size - 4 + 2 ^ 64).
      { unfold to_size_t. symmetry.
        apply (Z.mod_unique_pos _ _ (-1)); lia. }
      rewrite Hwrap.
      destruct (Z.leb_spec (size - 4 + 2 ^ 64) 8); [lia|reflexivity]. }
    rewrite Hrun. split; split; try lia; try reflexivity.
    intros [f Hf]. discriminate Hf.
Qed.

(** ** Direction, reports and the safety of the loop *)

Lemma only_received_refl {A : Type} (s : socket A) : only_received s s.
Proof. repeat split; auto. Qed.

Lemma only_sent_refl {A : Type} (s : socket A) : only_sent s s.
Proof. split; auto. Qed.

Lemma sockets_related_refl {A : Type} (R : socket A -> socket A -> Prop)
    (m : gmap Z (socket A)) :
  (forall s, R s s) -> sockets_related R m m.
Proof.
  intros HR fd. destruct (m !! fd); constructor. apply HR.
Qed.

Lemma sockets_related_insert {A : Type} (R : socket A -> socket A -> Prop)
    (m : gmap Z (socket A)) (fd : Z) (s s' : socket A) :
  (forall s, R s s) -> m !! fd = Some s -> R s s' ->
  sockets_related R m (<[fd := s']> m).
Proof.
  intros HR Hs Hss fd'. destruct (decide (fd' = fd)) as [->|Hne].
  - rewrite lookup_insert_eq, Hs. constructor. exact Hss.
  - rewrite lookup_insert_ne by congruence.
    destruct (m !! fd'); constructor. apply HR.
Qed.

Lemma recv_related {A : Type} (m : gmap Z (socket A)) (fd : Z) :
  sockets_related only_received m
    (match (recv (m !! fd)).2 with Some s => <[fd := s]> m | None => m end).
Proof.
  destruct (m !! fd) as [s|] eqn:Hs; cbn.
  2: { apply sockets_related_refl, @only_received_refl. }
  destruct (rx s) as [|[e|x] q] eqn:Hrx; cbn;
    apply (sockets_related_insert _ _ _ s);
    try apply @only_received_refl; try exact Hs;
    repeat split; cbn; rewrite ?Hrx; auto.
Qed.

Lemma send_related {A : Type} (m : gmap Z (socket A)) (fd : Z) (x : A) :
  sockets_related only_sent m
    (match (send (m !! fd) x).2 with Some s => <[fd := s]> m | None => m end).
Proof.
  destruct (m !! fd) as [s|] eqn:Hs; cbn.
  2: { apply sockets_related_refl, @only_sent_refl. }
  destruct (tx s) as [|[e|] t] eqn:Htx; cbn;
    apply (sockets_related_insert _ _ _ s);
    try apply @only_sent_refl; try exact Hs;
    (split; [reflexivity|]); cbn; rewrite ?Htx; cbn; eauto.
Qed.

Lemma after_can_recv_related (fd : Z) (w : world) :
  sockets_related only_received (can_sockets w)
    (can_sockets (after_can_recv fd w)).
Proof.
  pose proof (recv_related (can_sockets w) fd) as H.
  unfold after_can_recv.
  destruct (recv (can_sockets w !! fd)).2; exact H.
Qed.

Lemma after_udp_recv_related (fd : Z) (w : world) :
  sockets_related only_received (udp_sockets w)
    (udp_sockets (after_udp_recv fd w)).
Proof.
  pose proof (recv_related (udp_sockets w) fd) as H.
  unfold after_udp_recv.
  destruct (recv (udp_sockets w !! fd)).2; exact H.
Qed.

(** What the end of [udp_to_can] changes. *)
Lemma forward_to_bus_effect (conn : connection) (frame : can_frame)
    (w : world) :
  udp_sockets (forward_to_bus conn frame w) = udp_sockets w /\
  sockets_related only_sent (can_sockets w)
    (can_sockets (forward_to_bus conn frame w)) /\
  exists lines,
    stdout (forward_to_bus conn frame w) = stdout w ++ lines /\
    (1 <= length lines <= 2)%nat /\
    Forall (reported_by conn UDP_to_CAN) lines.
Proof.
  pose proof (send_related (can_sockets w) (can_sfd conn) frame) as Hrel.
  unfold forward_to_bus, send_can, say, printf. cbn [can_sockets].
  destruct (send (can_sockets w !! can_sfd conn) frame) as [[e|] [s|]];
    cbn in Hrel |- *; (split; [reflexivity|]); (split; [exact Hrel|]);
    eexists; rewrite <- ?app_assoc;
    (split; [reflexivity|]); cbn; (split; [lia|]);
    repeat constructor.
Qed.

(** What the end of [can_to_udp] changes. *)
Lemma forward_to_network_effect (conn : connection) (buf : list byte)
    (size : Z) (w : world) :
  can_sockets (forward_to_network conn buf size w) = can_sockets w /\
  sockets_related only_sent (udp_sockets w)
    (udp_sockets (forward_to_network conn buf size w)) /\
  exists lines,
    stdout (forward_to_network conn buf size w) = stdout w ++ lines /\
    (length lines <= 1)%nat /\
    Forall (reported_by conn CAN_to_UDP) lines.
Proof.
  pose proof (send_related (udp_sockets w) (out_sfd conn)
                (take (Z.to_nat size) buf)) as Hrel.
  unfold forward_to_network, send_udp, say, printf.
  destruct (send (udp_sockets w !! out_sfd conn) (take (Z.to_nat size) buf))
    as [[e|] [s|]];
    cbn in Hrel |- *; (split; [reflexivity|]); (split; [exact Hrel|]).
  1,2: exists [ {| line_config := str_config (conn_config conn);
                   line_direction := CAN_to_UDP;
                   line_report := send_failed e |} ].
  3,4: exists [].
  all: rewrite ?app_nil_r; (split; [reflexivity|]); cbn; (split; [lia|]);
    repeat constructor.
Qed.

(** The three ways [udp_to_can] ends: with one line, with the frame
    forwarded, or with the warning and then the frame forwarded. *)
Lemma udp_to_can_cases (host : endianness) (uninit_frame : world -> can_frame)
    (uninit_packed_frame : world -> packed_can_frame)
    (conn : connection) (w : world) :
  let w1 := after_udp_recv (in_sfd conn) w in
  (exists r,
     udp_to_can host uninit_frame uninit_packed_frame conn w
       = Returned (say conn UDP_to_CAN r w1)) \/
  (exists frame,
     0 <= can_dlc frame <= 8 /\ 0 <= can_id frame < 2 ^ 32 /\
     udp_to_can host uninit_frame uninit_packed_frame conn w
       = Returned (forward_to_bus conn frame w1)) \/
  (exists frame r,
     0 <= can_dlc frame <= 8 /\ 0 <= can_id frame < 2 ^ 32 /\
     udp_to_can host uninit_frame uninit_packed_frame conn w
       = Returned (forward_to_bus conn frame (say conn UDP_to_CAN r w1))).
Proof.
  intros w1. destruct (udp_arrival (in_sfd conn) w) as [e|d] eqn:Harr.
  { left. exists (recv_failed e). apply udp_to_can_recv_failed. exact Harr. }
  unfold udp_to_can. rewrite (recv_udp_datagram _ _ _ _ _ Harr). fold w1.
  change PACKED_CAN_FRAME_HDR_SIZE with 4.
  change sizeof_packed_can_frame with 12.
  assert (Hs : 0 <= to_size_t (Z.of_nat (length d)) < 2 ^ 64)
    by (apply Z.mod_pos_bound; lia).
  destruct (Z.ltb_spec (to_size_t (Z.of_nat (length d))) 4).
  { left. eexists. reflexivity. }
  rewrite Z.gtb_ltb.
  destruct (Z.ltb_spec 12 (to_size_t (Z.of_nat (length d)))).
  - right. right.
    rewrite unpack_can_frame_passes by (rewrite to_size_t_small; lia).
    match goal with |- context [send_can _ ?f _] => exists f end.
    exists (message_truncated (Z.of_nat (length d)) 12).
    split; [cbn [can_dlc]; rewrite to_size_t_small; lia|].
    split; [cbn [can_id]; apply be_value_range|].
    unfold forward_to_bus.
    destruct (send_can _ _ _) as [[e|] w2]; reflexivity.
  - right. left.
    rewrite unpack_can_frame_passes by lia.
    match goal with |- context [send_can _ ?f _] => exists f end.
    split; [cbn [can_dlc]; lia|].
    split; [cbn [can_id]; apply be_value_range|].
    unfold forward_to_bus.
    destruct (send_can _ _ _) as [[e|] w2]; reflexivity.
Qed.

(** The three ways [can_to_udp] ends: with one line, with the line of the
    frame and a failed assertion, or with that line and the frame sent. *)
Lemma can_to_udp_cases (host : endianness)
    (uninit_packed_frame : world -> packed_can_frame)
    (conn : connection) (w : world) :
  let w1 := after_can_recv (can_sfd conn) w in
  (exists r,
     can_to_udp host uninit_packed_frame conn w
       = Returned (say conn CAN_to_UDP r w1)) \/
  (exists frame,
     can_arrival (can_sfd conn) w = inr frame /\ 8 < can_dlc frame /\
     can_to_udp host uninit_packed_frame conn w
       = Aborted (say conn CAN_to_UDP (forwarded (str_can_frame frame)) w1)) \/
  (exists r buf size,
     can_to_udp host uninit_packed_frame conn w
       = Returned (forward_to_network conn buf size
                     (say conn CAN_to_UDP r w1))).
Proof.
  intros w1. unfold can_to_udp. rewrite recv_can_eq. fold w1.
  destruct (can_arrival (can_sfd conn) w) as [e|frame] eqn:Harr.
  { left. eexists. reflexivity. }
  unfold pack_can_frame, assert, checked_bind.
  change PACKED_CAN_FRAME_MAX_DATA_SIZE with 8.
  destruct (Z.leb_spec (can_dlc frame) 8).
  - right. right.
    match goal with
    | |- context [send_udp _ ?b ?n (say _ _ ?r _)] => exists r, b, n
    end.
    unfold forward_to_network.
    destruct (send_udp _ _ _ _) as [[e|] w2]; reflexivity.
  - right. left. exists frame. repeat split. lia.
Qed.

(** What [udp_to_can] changes. *)
Lemma udp_to_can_effect (host : endianness)
    (uninit_frame : world -> can_frame)
    (uninit_packed_frame : world -> packed_can_frame)
    (conn : connection) (w : world) :
  exists w',
    udp_to_can host uninit_frame uninit_packed_frame conn w = Returned w' /\
    sockets_related only_received (udp_sockets w) (udp_sockets w') /\
    sockets_related only_sent (can_sockets w) (can_sockets w') /\
    exists lines,
      stdout w' = stdout w ++ lines /\
      (1 <= length lines <= 3)%nat /\
      Forall (reported_by conn UDP_to_CAN) lines.
Proof.
  pose proof (after_udp_recv_related (in_sfd conn) w) as Hudp.
  destruct (after_udp_recv_frame (in_sfd conn) w) as (Hcan & Hout & _).
  destruct (udp_to_can_cases host uninit_frame uninit_packed_frame conn w)
    as [(r & ->)|[(frame & _ & _ & ->)|(frame & r & _ & _ & ->)]]; eexists;
    (split; [reflexivity|]).
  - unfold say, printf. cbn [udp_sockets can_sockets stdout].
    rewrite Hcan, Hout.
    split; [exact Hudp|].
    split; [apply sockets_related_refl, @only_sent_refl|].
    eexists. split; [reflexivity|]. cbn. split; [lia|].
    repeat constructor.
  - destruct (forward_to_bus_effect conn frame
                (after_udp_recv (in_sfd conn) w))
      as (-> & Hsent & lines & -> & Hlen & Hall).
    rewrite Hcan in Hsent. rewrite Hout.
    split; [exact Hudp|]. split; [exact Hsent|].
    exists lines. split; [reflexivity|]. split; [lia|exact Hall].
  - remember (say conn UDP_to_CAN r (after_udp_recv (in_sfd conn) w)) as w2
      eqn:Hw2.
    assert (Hc2 : can_sockets w2 = can_sockets w)
      by (rewrite Hw2; exact Hcan).
    assert (Hu2 : udp_sockets w2 = udp_sockets (after_udp_recv (in_sfd conn) w))
      by (rewrite Hw2; reflexivity).
    assert (Ho2 : stdout w2 = stdout w ++
              [ {| line_config := str_config (conn_config conn);
                   line_direction := UDP_to_CAN; line_report := r |} ])
      by (rewrite Hw2; cbn; rewrite Hout; reflexivity).
    destruct (forward_to_bus_effect conn frame w2)
      as (-> & Hsent & lines & -> & Hlen & Hall).
    rewrite Hc2 in Hsent. rewrite Hu2, Ho2.
    split; [exact Hudp|]. split; [exact Hsent|].
    eexists. rewrite <- app_assoc. split; [reflexivity|].
    cbn. split; [lia|]. constructor; [split; reflexivity|exact Hall].
Qed.

(** What [can_to_udp] changes. *)
Lemma can_to_udp_effect (host : endianness)
    (uninit_packed_frame : world -> packed_can_frame)
    (conn : connection) (w : world) :
  let w' := world_of (can_to_udp host uninit_packed_frame conn w) in
  sockets_related only_received (can_sockets w) (can_sockets w') /\
  sockets_related only_sent (udp_sockets w) (udp_sockets w') /\
  exists lines,
    stdout w' = stdout w ++ lines /\
    (1 <= length lines <= 2)%nat /\
    Forall (reported_by conn CAN_to_UDP) lines.
Proof.
  pose proof (after_can_recv_related (can_sfd conn) w) as Hcan.
  destruct (after_can_recv_frame (can_sfd conn) w) as (Hudp & Hout & _).
  destruct (can_to_udp_cases host uninit_packed_frame conn w)
    as [(r & ->)|[(frame & _ & _ & ->)|(r & buf & size & ->)]];
    cbn [world_of].
  1,2: unfold say, printf; cbn [udp_sockets can_sockets stdout];
    rewrite Hudp, Hout;
    (split; [exact Hcan|]);
    (split; [apply sockets_related_refl, @only_sent_refl|]);
    eexists; (split; [reflexivity|]); cbn; (split; [lia|]);
    repeat constructor.
  remember (say conn CAN_to_UDP r (after_can_recv (can_sfd conn) w)) as w2
    eqn:Hw2.
  assert (Hu2 : udp_sockets w2 = udp_sockets w)
    by (rewrite Hw2; exact Hudp).
  assert (Hc2 : can_sockets w2 = can_sockets (after_can_recv (can_sfd conn) w))
    by (rewrite Hw2; reflexivity).
  assert (Ho2 : stdout w2 = stdout w ++
            [ {| line_config := str_config (conn_config conn);
                 line_direction := CAN_to_UDP; line_report := r |} ])
    by (rewrite Hw2; cbn; rewrite Hout; reflexivity).
  destruct (forward_to_network_effect conn buf size w2)
    as (-> & Hsent & lines & -> & Hlen & Hall).
  rewrite Hu2 in Hsent. rewrite Hc2, Ho2.
  split; [exact Hcan|]. split; [exact Hsent|].
  eexists. rewrite <- app_assoc. split; [reflexivity|].
  cbn. split; [lia|]. constructor; [split; reflexivity|exact Hall].
Qed.


(** X13. Every call reports itself: [udp_to_can] adds one to three lines
    to the output and [can_to_udp] one or two, each with the configuration
    of the connection and the direction of the call, and the earlier output
    is left as it was. *)
Theorem forwarding_reports (host : endianness)
    (uninit_frame : world -> can_frame)
    (uninit_packed_frame : world -> packed_can_frame)
    (conn : connection) (w : world) :
  (exists lines,
     stdout (world_of (udp_to_can host uninit_frame uninit_packed_frame
                         conn w)) = stdout w ++ lines /\
     (1 <= length lines <= 3)%nat /\
     Forall (reported_by conn UDP_to_CAN) lines) /\
  (exists lines,
     stdout (world_of (can_to_udp host uninit_packed_frame conn w))
       = stdout w ++ lines /\
     (1 <= length lines <= 2)%nat /\
     Forall (reported_by conn CAN_to_UDP) lines).
Proof.
  split.
  - destruct (udp_to_can_effect host uninit_frame uninit_packed_frame conn w)
      as (u' & -> & _ & _ & Hlines).
    exact Hlines.
  - destruct (can_to_udp_effect host uninit_packed_frame conn w)
      as (_ & _ & Hlines).
    exact Hlines.
Qed.

Lemma can_arrival_waits (fd : Z) (w : world) (f : can_frame) :
  can_arrival fd w = inr f ->
  exists s, can_sockets w !! fd = Some s /\ arrival_message f ∈ rx s.
Proof.
  unfold can_arrival, recv.
  destruct (can_sockets w !! fd) as [s|]; [|discriminate].
  destruct (rx s) as [|[e|x] q] eqn:Hrx; cbn; try discriminate.
  intros [= <-]. exists s. split; [reflexivity|].
  rewrite Hrx. apply list_elem_of_here.
Qed.

Lemma bus_valid_related (R : socket can_frame -> socket can_frame -> Prop)
    (w w' : world) :
  (forall s s', R s s' -> rx s' = rx s \/ rx s' = tail (rx s)) ->
  sockets_related R (can_sockets w) (can_sockets w') ->
  bus_valid w -> bus_valid w'.
Proof.
  intros HR Hrel Hvalid fd s' f Hs' Hf.
  specialize (Hrel fd). rewrite Hs' in Hrel.
  inversion Hrel as [s ? Hss Hs|]; subst.
  apply (Hvalid fd s f); [congruence|].
  destruct (HR _ _ Hss) as [Hrx|Hrx]; rewrite Hrx in Hf; [exact Hf|].
  destruct (rx s) as [|x q]; [exact Hf|]. apply list_elem_of_further, Hf.
Qed.

Lemma only_received_rx {A : Type} (s s' : socket A) :
  only_received s s' -> rx s' = rx s \/ rx s' = tail (rx s).
Proof. intros (_ & _ & H). exact H. Qed.

Lemma only_sent_rx {A : Type} (s s' : socket A) :
  only_sent s s' -> rx s' = rx s \/ rx s' = tail (rx s).
Proof. intros (H & _). left. exact H. Qed.

Lemma udp_to_can_safe (host : endianness) (uninit_frame : world -> can_frame)
    (uninit_packed_frame : world -> packed_can_frame)
    (conn : connection) (w : world) :
  bus_valid w ->
  exists w',
    udp_to_can host uninit_frame uninit_packed_frame conn w = Returned w' /\
    bus_valid w'.
Proof.
  intros Hvalid.
  destruct (udp_to_can_effect host uninit_frame uninit_packed_frame conn w)
    as (w' & Hrun & _ & Hcan & _).
  exists w'. split; [exact Hrun|].
  exact (bus_valid_related _ _ _ (@only_sent_rx _) Hcan Hvalid).
Qed.

Lemma can_to_udp_safe (host : endianness)
    (uninit_packed_frame : world -> packed_can_frame)
    (conn : connection) (w : world) :
  bus_valid w ->
  exists w',
    can_to_udp host uninit_packed_frame conn w = Returned w' /\
    bus_valid w'.
Proof.
  intros Hvalid.
  destruct (can_to_udp_effect host uninit_packed_frame conn w)
    as (Hcan & _).
  pose proof (bus_valid_related _ _ _ (@only_received_rx _) Hcan Hvalid)
    as Hvalid'.
  destruct (can_to_udp_cases host uninit_packed_frame conn w)
    as [(r & Hrun)|[(frame & Harr & Hdlc & _)|(r & buf & size & Hrun)]].
  - rewrite Hrun in Hvalid' |- *. eexists. split; [reflexivity|exact Hvalid'].
  - destruct (can_arrival_waits _ _ _ Harr) as (s & Hs & Hf).
    pose proof (Hvalid _ _ _ Hs Hf). lia.
  - rewrite Hrun in Hvalid' |- *. eexists. split; [reflexivity|exact Hvalid'].
Qed.

Lemma perform_all_safe (host : endianness) (uninit_frame : world -> can_frame)
    (uninit_packed_frame : world -> packed_can_frame)
    (connections : list connection) (ks : list nat) (w : world) :
  Forall (fun k => (k < 2 * length connections)%nat) ks ->
  bus_valid w ->
  exists w',
    perform_all host uninit_frame uninit_packed_frame connections
      (map call_of_index ks) w = Returned w' /\
    bus_valid w'.
Proof.
  intros Hks. revert w. induction Hks as [|k ks Hk _ IH]; intros w Hvalid.
  - exists w. split; [reflexivity|exact Hvalid].
  - cbn [map perform_all].
    assert (Hi : (k / 2 < length connections)%nat)
      by (apply Nat.Div0.div_lt_upper_bound; lia).
    destruct (lookup_lt_is_Some_2 connections (k / 2) Hi) as [conn Hconn].
    unfold call_of_index, perform.
    destruct (k mod 2 =? 0)%nat; rewrite Hconn.
    + destruct (can_to_udp_safe host uninit_packed_frame conn w Hvalid)
        as (w1 & -> & Hvalid1).
      apply IH. exact Hvalid1.
    + destruct (udp_to_can_safe host uninit_frame uninit_packed_frame conn w
                  Hvalid) as (w1 & -> & Hvalid1).
      apply IH. exact Hvalid1.
Qed.

Lemma scan_safe (host : endianness) (uninit_frame : world -> can_frame)
    (uninit_packed_frame : world -> packed_can_frame) (POLLIN : Z)
    (connections : list connection) (rs : list Z) (w : world) :
  bus_valid w ->
  exists w',
    scan host uninit_frame uninit_packed_frame POLLIN connections
      (set_revents (watch POLLIN connections) rs) w = Returned w' /\
    bus_valid w'.
Proof.
  intros Hvalid. unfold scan, n_connections.
  replace (Z.to_nat (Z.of_nat (length connections) * 2))
    with (2 * length connections)%nat by lia.
  pose proof (scan_from_watched host uninit_frame uninit_packed_frame POLLIN
                connections rs (2 * length connections) 0 w ltac:(lia))
    as Hscan.
  cbv zeta in Hscan. change (Z.of_nat 0) with 0 in Hscan. rewrite Hscan.
  destruct (perform_all_safe host uninit_frame uninit_packed_frame
              connections
              (ready_indices POLLIN
                 (set_revents (watch POLLIN connections) rs) 0
                 (2 * length connections)) w) as (w' & Hrun & Hvalid').
  - apply Forall_forall. intros k Hk. unfold ready_indices in Hk.
    apply list_elem_of_filter in Hk. destruct Hk as [_ Hk].
    apply elem_of_seq in Hk. lia.
  - exact Hvalid.
  - exists w'. split; [exact Hrun|exact Hvalid'].
Qed.

Lemma event_loop_safe_from (host : endianness)
    (uninit_frame : world -> can_frame)
    (uninit_packed_frame : world -> packed_can_frame) (POLLIN : Z)
    (connections : list connection) (turns : nat) (rs : list Z) (w : world) :
  bus_valid w ->
  no_crash (event_loop host uninit_frame uninit_packed_frame POLLIN turns
              connections (set_revents (watch POLLIN connections) rs) w) /\
  bus_valid (world_of
               (event_loop host uninit_frame uninit_packed_frame POLLIN turns
                  connections (set_revents (watch POLLIN connections) rs) w)).
Proof.
  revert rs w. induction turns as [|turns IH]; intros rs w Hvalid.
  - split; [exact I|exact Hvalid].
  - cbn [event_loop]. unfold wake.
    destruct (polls w) as [|[e|rs'] rest]; cbn [world_of no_crash].
    + split; [exact I|exact Hvalid].
    + split; [exact I|exact Hvalid].
    + rewrite set_revents_again.
      destruct (scan_safe host uninit_frame uninit_packed_frame POLLIN
                  connections rs'
                  {| can_sockets := can_sockets w;
                     udp_sockets := udp_sockets w;
                     stdout := stdout w; polls := rest |} Hvalid)
        as (w' & -> & Hvalid').
      apply IH. exact Hvalid'.
Qed.

(** X14. The loop cannot crash on valid frames. As long as no frame with
    a data length code above 8 waits on a CAN socket, a scan of the array
    built by [main] returns, whatever [poll] reported: no assertion of the
    loop or of the codec fails and no array is read outside its bounds; and
    any number of turns of the loop ends only by [poll] failing or having
    nothing more to report. *)
Theorem event_loop_safe (host : endianness)
    (uninit_frame : world -> can_frame)
    (uninit_packed_frame : world -> packed_can_frame) (POLLIN : Z)
    (connections : list connection) (w : world) :
  bus_valid w ->
  (forall rs : list Z,
     exists w',
       scan host uninit_frame uninit_packed_frame POLLIN connections
         (set_revents (watch POLLIN connections) rs) w = Returned w' /\
       bus_valid w') /\
  (forall turns : nat,
     no_crash (event_loop host uninit_frame uninit_packed_frame POLLIN turns
                 connections (watch POLLIN connections) w) /\
     bus_valid (world_of
                  (event_loop host uninit_frame uninit_packed_frame POLLIN
                     turns connections (watch POLLIN connections) w))).
Proof.
  intros Hvalid. split.
  - intros rs. apply scan_safe. exact Hvalid.
  - intros turns. rewrite <- (set_revents_watch_nil POLLIN connections).
    apply event_loop_safe_from. exact Hvalid.
Qed.

(** ** The text of a frame *)

Lemma length_append (s1 s2 : string) :
  String.length (s1 +:+ s2) = (String.length s1 + String.length s2)%nat.
Proof.
  induction s1 as [|a s1 IH]; [reflexivity|].
  rewrite append_cons. cbn [String.length]. rewrite IH. reflexivity.
Qed.

Lemma length_concat_map {A : Type} (f : A -> string) (lo hi : nat)
    (l : list A) :
  (forall x, x ∈ l -> (lo <= String.length (f x) <= hi)%nat) ->
  (lo * length l <= String.length (String.concat "" (map f l))
   <= hi * length l)%nat.
Proof.
  induction l as [|x l IH]; intros Hf.
  - cbn. lia.
  - assert (Hx := Hf x (list_elem_of_here _ _)).
    assert (Hl : forall y, y ∈ l -> (lo <= String.length (f y) <= hi)%nat)
      by (intros y Hy; apply Hf, list_elem_of_further, Hy).
    specialize (IH Hl).
    destruct l as [|y l].
    + cbn. lia.
    + change (String.concat "" (map f (x :: y :: l)))
        with (f x +:+ "" +:+ String.concat "" (map f (y :: l))).
      rewrite length_append, append_nil_l.
      cbn [length] in *. lia.
Qed.

Lemma hex_digit_length (d : Z) :
  0 <= d < 16 -> String.length (hex_digit d) = 1%nat.
Proof.
  intros H. unfold hex_digit.
  assert (Hn : (Z.to_nat d < 16)%nat) by lia.
  destruct (Z.to_nat d) as [|n]; [reflexivity|].
  do 15 (destruct n as [|n]; [reflexivity|]). lia.
Qed.

Lemma nibbles_range (v : Z) : Forall (fun d => 0 <= d < 16) (nibbles v).
Proof.
  unfold nibbles. apply Forall_forall. intros d Hd.
  apply list_elem_of_fmap in Hd. destruct Hd as (k & -> & _).
  change 15 with (Z.ones 4). rewrite Z.land_ones by lia.
  apply Z.mod_pos_bound. lia.
Qed.

Lemma strip_zeros_spec (prec : nat) (ds : list Z) :
  Forall (fun d => 0 <= d < 16) ds ->
  Forall (fun d => 0 <= d < 16) (strip_zeros prec ds) /\
  (Nat.min prec (length ds) <= length (strip_zeros prec ds)
   <= length ds)%nat.
Proof.
  induction ds as [|d ds IH]; intros Hds.
  - cbn. split; [constructor|lia].
  - cbn [strip_zeros].
    assert (Hsame : Forall (fun d => 0 <= d < 16) (d :: ds) /\
                    (Nat.min prec (length (d :: ds)) <= length (d :: ds)
                     <= length (d :: ds))%nat) by (split; [exact Hds|lia]).
    destruct d as [|p|p]; try exact Hsame.
    destruct (Nat.ltb_spec prec (length (0 :: ds))) as [Hlt|Hge];
      [|exact Hsame].
    apply Forall_cons in Hds. destruct Hds as [_ Hds].
    destruct (IH Hds) as [Hall Hlen].
    split; [exact Hall|]. cbn [length] in *. lia.
Qed.

Lemma fmt_X_length (prec : nat) (v : Z) :
  (prec <= 8)%nat ->
  (prec <= String.length (fmt_X prec v) <= 8)%nat.
Proof.
  intros Hprec. unfold fmt_X.
  destruct (strip_zeros_spec prec (nibbles (to_uint32 v))
              (nibbles_range _)) as [Hall Hlen].
  change (length (nibbles (to_uint32 v))) with 8%nat in Hlen.
  pose proof (length_concat_map hex_digit 1 1
                (strip_zeros prec (nibbles (to_uint32 v)))) as Hc.
  rewrite Forall_forall in Hall.
  assert (Hd : forall x, x ∈ strip_zeros prec (nibbles (to_uint32 v)) ->
                 (1 <= String.length (hex_digit x) <= 1)%nat)
    by (intros x Hx; rewrite hex_digit_length by (apply Hall, Hx); lia).
  specialize (Hc Hd). lia.
Qed.

Lemma fmt_X_byte_length (b : byte) :
  String.length (fmt_X 2 (Z_of_byte b)) = 2%nat.
Proof. destruct b; reflexivity. Qed.

(** X15. The buffer of [str_can_frame] is large enough: for a frame with
    [can_dlc <= 8] the text is the identifier in at least three
    hexadecimal digits, [#], and two digits for each data byte, at most 25
    characters in all, so nothing of it is cut off by the 32 bytes of the
    buffer. *)
Theorem str_can_frame_fits (frame : can_frame) :
  0 <= can_dlc frame <= 8 ->
  str_can_frame frame =
    fmt_X 3 (can_id frame) +:+ "#" +:+
    String.concat "" (map (fun b => fmt_X 2 (Z_of_byte b)) (payload frame)) /\
  (4 + 2 * length (payload frame) <= String.length (str_can_frame frame)
   <= 9 + 2 * length (payload frame))%nat /\
  (String.length (str_can_frame frame) <= 25)%nat.
Proof.
  intros Hdlc.
  assert (Hpl : (length (payload frame) <= 8)%nat)
    by (unfold payload; rewrite length_take; lia).
  pose proof (fmt_X_length 3 (can_id frame) ltac:(lia)) as Hid.
  pose proof (length_concat_map (fun b => fmt_X 2 (Z_of_byte b)) 2 2
                (payload frame)) as Hdata.
  assert (Hb : forall x, x ∈ payload frame ->
                 (2 <= String.length (fmt_X 2 (Z_of_byte x)) <= 2)%nat)
    by (intros x _; rewrite fmt_X_byte_length; lia).
  specialize (Hdata Hb).
  assert (Hlen : String.length
            (fmt_X 3 (can_id frame) +:+ "#" +:+
             String.concat ""
               (map (fun b => fmt_X 2 (Z_of_byte b)) (payload frame)))
          = (String.length (fmt_X 3 (can_id frame)) + 1 +
             String.length
               (String.concat ""
                  (map (fun b => fmt_X 2 (Z_of_byte b)) (payload frame))))%nat).
  { rewrite !length_append. cbn [String.length]. lia. }
  assert (Htext : str_can_frame frame =
            fmt_X 3 (can_id frame) +:+ "#" +:+
            String.concat ""
              (map (fun b => fmt_X 2 (Z_of_byte b)) (payload frame))).
  { unfold str_can_frame. fold (payload frame).
    apply substring_whole. rewrite Hlen. lia. }
  split; [exact Htext|].
  rewrite Htext, Hlen. lia.
Qed.

(** ** Frames written to the bus *)

Lemma forward_to_bus_adds (conn : connection) (frame : can_frame) (w : world)
    (fd : Z) (s s' : socket can_frame) (f : can_frame) :
  can_sockets w !! fd = Some s ->
  can_sockets (forward_to_bus conn frame w) !! fd = Some s' ->
  sent s' = sent s ++ [f] ->
  f = frame.
Proof.
  intros Hs Hs' Hsent.
  assert (Hno : sent s <> sent s ++ [f]).
  { intros H. apply (f_equal length) in H.
    rewrite length_app in H. cbn in H. lia. }
  unfold forward_to_bus, send_can, say, printf in Hs'.
  cbn [can_sockets] in Hs'.
  destruct (decide (fd = can_sfd conn)) as [->|Hne].
  - rewrite Hs in Hs'. unfold send in Hs'.
    destruct (tx s) as [|[e|] t]; cbn in Hs';
      rewrite lookup_insert_eq in Hs'; injection Hs' as <-;
      cbn [sent] in Hsent.
    + apply app_inj_tail in Hsent. symmetry. apply Hsent.
    + destruct (Hno Hsent).
    + apply app_inj_tail in Hsent. symmetry. apply Hsent.
  - destruct (send (can_sockets w !! can_sfd conn) frame) as [[e|] [x|]];
      cbn in Hs'; rewrite ?lookup_insert_ne in Hs' by congruence;
      rewrite Hs in Hs'; injection Hs' as <-;
      destruct (Hno Hsent).
Qed.

(** X16. Whatever arrives from the network, a frame that [udp_to_can]
    adds to the bus is well formed: its data length code lies between 0
    and 8 and its identifier fits 32 bits. *)
Theorem udp_to_can_writes_valid (host : endianness)
    (uninit_frame : world -> can_frame)
    (uninit_packed_frame : world -> packed_can_frame)
    (conn : connection) (w : world) (fd : Z) (s s' : socket can_frame)
    (f : can_frame) :
  can_sockets w !! fd = Some s ->
  can_sockets
    (world_of (udp_to_can host uninit_frame uninit_packed_frame conn w))
    !! fd = Some s' ->
  sent s' = sent s ++ [f] ->
  0 <= can_dlc f <= 8 /\ 0 <= can_id f < 2 ^ 32.
Proof.
  intros Hs Hs' Hsent.
  destruct (after_udp_recv_frame (in_sfd conn) w) as (Hcan & _).
  destruct (udp_to_can_cases host uninit_frame uninit_packed_frame conn w)
    as [(r & Hrun)|[(frame & Hdlc & Hid & Hrun)
                   |(frame & r & Hdlc & Hid & Hrun)]];
    rewrite Hrun in Hs'; cbn [world_of] in Hs'.
  - unfold say, printf in Hs'. cbn [can_sockets] in Hs'.
    rewrite Hcan, Hs in Hs'. injection Hs' as <-.
    apply (f_equal length) in Hsent. rewrite length_app in Hsent.
    cbn in Hsent. lia.
  - rewrite <- Hcan in Hs.
    rewrite (forward_to_bus_adds _ _ _ _ _ _ _ Hs Hs' Hsent).
    split; assumption.
  - assert (Hs2 : can_sockets
                    (say conn UDP_to_CAN r (after_udp_recv (in_sfd conn) w))
                    !! fd = Some s)
      by (unfold say, printf; cbn [can_sockets]; rewrite Hcan; exact Hs).
    rewrite (forward_to_bus_adds _ _ _ _ _ _ _ Hs2 Hs' Hsent).
    split; assumption.
Qed.

(** ** Instances *)

Lemma parse_config_fields_witness :
  config_text vcan0 = arg_vcan0 /\ str_config vcan0 = arg_vcan0.
Proof.
  destruct (parse_config_fields true arg_vcan0 vcan0 eq_refl)
    as (Htext & _ & _ & _ & _ & Hstr).
  split; [exact Htext|]. apply Hstr. cbn. lia.
Defined.

Lemma parse_config_text_witness :
  parse_config true (config_text vcan0) = Ready vcan0.
Proof.
  exact (parse_config_text vcan0 eq_refl eq_refl eq_refl).
Defined.

Lemma bind_udp_ready_witness :
  exists open' : gset Z,
    bind_udp 0 second_binds ∅ = Ready (4, open') /\ 4 ∈ open'.
Proof.
  assert (H : { open' : gset Z
              | bind_udp 0 second_binds ∅ = Ready (4, open') }).
  { eexists. vm_compute. reflexivity. }
  destruct H as [open' H]. exists open'. split; [exact H|].
  apply (bind_udp_ready 0 second_binds ∅ 4 open' H).
Defined.

Lemma connect_udp_all_refused_witness :
  connect_udp 0 both_refuse ∅
    = Ready (last_descriptor (-1) both_refuse, ∅ ∖ descriptors both_refuse) /\
  last_descriptor (-1) both_refuse ∉ (∅ ∖ descriptors both_refuse : gset Z).
Proof.
  apply (proj1 (connect_udp_all_refused both_refuse ∅)).
  - repeat constructor; cbn; try lia; eauto.
  - discriminate.
Defined.

Lemma connect_udp_ready_witness :
  exists open' : gset Z,
    connect_udp 0 both_refuse ∅ = Ready (5, open') /\ 5 <> -1.
Proof.
  assert (H : { open' : gset Z
              | connect_udp 0 both_refuse ∅ = Ready (5, open') }).
  { eexists. vm_compute. reflexivity. }
  destruct H as [open' H]. exists open'. split; [exact H|].
  apply (connect_udp_ready 0 both_refuse ∅ 5 open' H).
Defined.

Lemma can_to_udp_forwards_witness :
  can_to_udp LittleEndian (fun _ => blank_packed_frame) bridge0 world_woken =
  Returned
    (with_udp_socket 5
       {| rx := []; tx := [];
          sent := [[x00; x00; x01; x23; xde; xad; xbe; xef]] |}
       (say bridge0 CAN_to_UDP (forwarded "123#DEADBEEF")
          (after_can_recv 3 world_woken))).
Proof.
  exact (proj1 (can_to_udp_forwards LittleEndian (fun _ => blank_packed_frame)
                  bridge0 world_woken frame_123 idle eq_refl
                  ltac:(cbn; lia) eq_refl eq_refl
                  ltac:(intros e H; discriminate H))).
Defined.

Lemma udp_to_can_forwards_witness :
  exists frame,
    udp_to_can BigEndian (fun _ => blank_frame) (fun _ => blank_packed_frame)
      bridge0 world_scenario_2 =
    Returned
      (with_can_socket 3 {| rx := []; tx := []; sent := [frame] |}
         (say bridge0 UDP_to_CAN (forwarded (str_can_frame frame))
            (after_udp_recv 4 world_scenario_2))) /\
    can_id frame = 0xAB /\ can_dlc frame = 1 /\ payload frame = [xab].
Proof.
  exact (udp_to_can_forwards BigEndian (fun _ => blank_frame)
           (fun _ => blank_packed_frame) bridge0 world_scenario_2
           [x00; x00; x00; xab; xab] idle eq_refl ltac:(cbn; lia) eq_refl
           ltac:(intros e H; discriminate H)).
Defined.

Lemma relay_preserves_frame_witness :
  exists f',
    udp_to_can BigEndian (fun _ => blank_frame) (fun _ => blank_packed_frame)
      bridge1 world_peer =
    Returned (forward_to_bus bridge1 f' (after_udp_recv 7 world_peer)) /\
    can_id f' = 0x123 /\ can_dlc f' = 4 /\
    payload f' = [xde; xad; xbe; xef].
Proof.
  destruct (relay_preserves_frame LittleEndian BigEndian (fun _ => blank_frame)
              (fun _ => blank_packed_frame) (fun _ => blank_packed_frame)
              bridge0 bridge1 world_woken frame_123 idle
              valid_frame_123 eq_refl eq_refl
              ltac:(intros e H; discriminate H))
    as (w1 & s1 & _ & _ & _ & Hpeer).
  exact (Hpeer world_peer eq_refl).
Defined.

Lemma wire_round_trip_witness :
  exists f packed,
    unpack_can_frame LittleEndian
      (packed_of_bytes LittleEndian
         (memcpy (repeat x00 12) [x00; x00; x00; xab; xab] 5))
      5 blank_frame = Passed f /\
    pack_can_frame LittleEndian f blank_packed_frame = Passed (packed, 5) /\
    wire LittleEndian packed 5 = [x00; x00; x00; xab; xab].
Proof.
  exact (wire_round_trip LittleEndian [x00; x00; x00; xab; xab]
           (repeat x00 12) blank_frame blank_packed_frame ltac:(cbn; lia)).
Defined.

Lemma unpack_can_frame_domain_witness :
  unpack_can_frame LittleEndian blank_packed_frame 3 blank_frame
  = AssertionFailed.
Proof.
  apply (proj2 (unpack_can_frame_domain LittleEndian blank_packed_frame 3
                  blank_frame ltac:(lia))).
  left. lia.
Defined.

Lemma bus_valid_world_woken : bus_valid world_woken.
Proof.
  intros fd s f Hs Hf.
  unfold world_woken, example_world in Hs. cbn [can_sockets] in Hs.
  apply lookup_insert_Some in Hs.
  destruct Hs as [[_ <-]|[_ Hs]].
  - apply list_elem_of_singleton in Hf. injection Hf as ->. cbn. lia.
  - apply lookup_singleton_Some in Hs. destruct Hs as [_ <-].
    apply elem_of_nil in Hf. destruct Hf.
Defined.

Lemma event_loop_safe_witness :
  no_crash (event_loop LittleEndian (fun _ => blank_frame)
              (fun _ => blank_packed_frame) POLLIN_linux 2
              [bridge0; bridge1] (watch POLLIN_linux [bridge0; bridge1])
              world_woken).
Proof.
  exact (proj1 (proj2 (event_loop_safe LittleEndian (fun _ => blank_frame)
                         (fun _ => blank_packed_frame) POLLIN_linux
                         [bridge0; bridge1] world_woken
                         bus_valid_world_woken) 2%nat)).
Defined.

Lemma str_can_frame_fits_witness :
  str_can_frame frame_123 = "123#DEADBEEF" /\
  (String.length (str_can_frame frame_123) <= 25)%nat.
Proof.
  destruct (str_can_frame_fits frame_123 ltac:(cbn; lia)) as (H1 & _ & H3).
  split; [exact H1|exact H3].
Defined.

Lemma udp_to_can_writes_valid_witness :
  0 <= can_dlc frame_ab <= 8 /\ 0 <= can_id frame_ab < 2 ^ 32.
Proof.
  exact (udp_to_can_writes_valid LittleEndian (fun _ => blank_frame)
           (fun _ => blank_packed_frame) bridge0 world_scenario_2 3 idle
           {| rx := []; tx := []; sent := [frame_ab] |} frame_ab
           eq_refl eq_refl eq_refl).
Defined.

(** ** Start-up *)

Lemma bind_udp_descriptor (errcode : Z) (ai : list candidate) (open : gset Z)
    (sfd : Z) (open' : gset Z) :
  bind_udp errcode ai open = Ready (sfd, open') -> sfd <> -1.
Proof.
  unfold bind_udp. destruct (negb (errcode =? 0)); [discriminate|].
  destruct (bind_udp_loop ai (-1) errcode open) as [[[s e] o]|];
    [|discriminate].
  destruct (Z.eqb_spec s (-1)); [discriminate|]. intros [= <- _]. assumption.
Qed.

Lemma connect_udp_descriptor (errcode : Z) (ai : list candidate)
    (open : gset Z) (sfd : Z) (open' : gset Z) :
  connect_udp errcode ai open = Ready (sfd, open') -> sfd <> -1.
Proof.
  unfold connect_udp. destruct (negb (errcode =? 0)); [discriminate|].
  destruct (connect_udp_loop ai (-1) errcode open) as [[[s e] o]|];
    [|discriminate].
  destruct (Z.eqb_spec s (-1)); [discriminate|]. intros [= <- _]. assumption.
Qed.

Lemma setup_connection_ready (IFNAMSIZ : Z) (cfg : config) (a : answers)
    (open : gset Z) (conn : connection) (open' : gset Z) :
  setup_connection IFNAMSIZ cfg a open = Some (Ready (conn, open')) ->
  conn_config conn = cfg /\
  Z.of_nat (String.length (can_ifname cfg)) < IFNAMSIZ /\
  can_sfd conn = can_socket_returns a /\
  can_sfd conn <> -1 /\ in_sfd conn <> -1 /\ out_sfd conn <> -1.
Proof.
  unfold setup_connection, bind_can.
  destruct (Z.eqb_spec (can_socket_returns a) (-1)); [discriminate|].
  destruct (Z.ltb_spec IFNAMSIZ (Z.of_nat (String.length (can_ifname cfg)) + 1));
    [discriminate|].
  destruct (ioctl_fails a); [discriminate|].
  destruct (can_bind_fails a); [discriminate|].
  destruct (bind_udp _ _ _) as [[in' o1]|] eqn:Hin; [|discriminate].
  destruct (connect_udp _ _ _) as [[out' o2]|] eqn:Hout; [|discriminate].
  intros [= <- _]. cbn.
  apply bind_udp_descriptor in Hin. apply connect_udp_descriptor in Hout.
  repeat split; try assumption; lia.
Qed.

Lemma parse_config_memory (m : bool) (config_str : string) (cfg : config) :
  parse_config m config_str = Ready cfg ->
  parse_config true config_str = Ready cfg.
Proof. destruct m; [auto|discriminate]. Qed.

(** What the first loop of [main] leaves in the two arrays. *)
Lemma init_from_ready (IFNAMSIZ POLLIN : Z) (args : list (string * answers)) :
  forall (i : nat) (connections : list connection) (pfds : list pollfd)
         (open : gset Z) (conns' : list connection) (pfds' : list pollfd)
         (open' : gset Z),
    init_from IFNAMSIZ POLLIN i args connections pfds open
      = Some (Ready (conns', pfds', open')) ->
    (i + length args <= length connections)%nat ->
    ((i + length args) * 2 <= length pfds)%nat ->
    length conns' = length connections /\
    length pfds' = length pfds /\
    (forall j, (j < i)%nat -> conns' !! j = connections !! j) /\
    (forall k, (k < i * 2)%nat -> pfds' !! k = pfds !! k) /\
    (forall j config_str a,
       args !! j = Some (config_str, a) ->
       exists conn,
         conns' !! (i + j)%nat = Some conn /\
         set_up IFNAMSIZ config_str a conn /\
         watches POLLIN pfds' ((i + j) * 2) (can_sfd conn) /\
         watches POLLIN pfds' ((i + j) * 2 + 1) (in_sfd conn)).
Proof.
  induction args as [|[config_str a] rest IH];
    intros i connections pfds open conns' pfds' open' Hrun Hc Hp.
  - cbn in Hrun. injection Hrun as <- <- <-.
    repeat split; try reflexivity. intros j ? ? Hj. discriminate Hj.
  - cbn [init_from] in Hrun. cbn [length] in Hc, Hp.
    destruct (parse_config (strdup_memory a) config_str) as [cfg|] eqn:Hparse;
      [|discriminate].
    destruct (setup_connection IFNAMSIZ cfg a open) as [[[conn o1]|]|]
      eqn:Hsetup; try discriminate.
    apply IH in Hrun;
      [|rewrite length_insert; lia|rewrite !length_alter; lia].
    rewrite length_insert, !length_alter in Hrun.
    destruct Hrun as (Hlc & Hlp & Hkeepc & Hkeepp & Hrest).
    destruct (setup_connection_ready _ _ _ _ _ _ Hsetup)
      as (Hcfg & Hname & Hcan & Hcan1 & Hin1 & Hout1).
    split; [exact Hlc|]. split; [exact Hlp|].
    split; [|split].
    + intros j Hj. rewrite Hkeepc by lia.
      apply list_lookup_insert_ne. lia.
    + intros k Hk. rewrite Hkeepp by lia.
      rewrite !list_lookup_alter_ne by lia. reflexivity.
    + intros [|j] s b Hj.
      * cbn in Hj. injection Hj as <- <-.
        rewrite Nat.add_0_r.
        exists conn. split; [|split; [|split]].
        -- rewrite Hkeepc by lia. apply list_lookup_insert_eq. lia.
        -- unfold set_up. rewrite Hcfg.
           split; [exact (parse_config_memory _ _ _ Hparse)|].
           repeat split; assumption.
        -- destruct (lookup_lt_is_Some_2 pfds (i * 2)%nat ltac:(lia))
             as [p0 Hp0].
           exists (watch_fd POLLIN (can_sfd conn) p0).
           split; [|split; reflexivity].
           rewrite Hkeepp by lia.
           rewrite list_lookup_alter_ne by lia.
           rewrite list_lookup_alter_eq, Hp0. reflexivity.
        -- destruct (lookup_lt_is_Some_2 pfds (i * 2 + 1)%nat ltac:(lia))
             as [p0 Hp0].
           exists (watch_fd POLLIN (in_sfd conn) p0).
           split; [|split; reflexivity].
           rewrite Hkeepp by lia.
           rewrite list_lookup_alter_eq.
           rewrite list_lookup_alter_ne by lia.
           rewrite Hp0. reflexivity.
      * cbn in Hj. destruct (Hrest j s b Hj) as (c & Hc' & Hset & Hw1 & Hw2).
        replace (i + S j)%nat with (S i + j)%nat by lia.
        exists c. split; [exact Hc'|]. split; [exact Hset|].
        split; assumption.
Qed.

Lemma watch_lookup_index (POLLIN : Z) (conns : list connection) (j : nat)
    (conn : connection) :
  conns !! j = Some conn ->
  watch POLLIN conns !! (j * 2)%nat
    = Some {| fd := can_sfd conn; events := POLLIN; revents := 0 |} /\
  watch POLLIN conns !! (j * 2 + 1)%nat
    = Some {| fd := in_sfd conn; events := POLLIN; revents := 0 |}.
Proof.
  revert j. induction conns as [|c conns IH]; intros j Hj; [discriminate Hj|].
  rewrite watch_cons. destruct j as [|j].
  - injection Hj as <-. split; reflexivity.
  - cbn in Hj. destruct (IH j Hj) as [H0 H1].
    replace (S j * 2)%nat with (S (S (j * 2))) by lia.
    split; [exact H0|exact H1].
Qed.

(** [poll] leaves the same array behind in two arrays that agree on the
    descriptors and the requested events. *)
Lemma set_revents_agree (pfds pfds' : list pollfd) (rs : list Z) :
  length pfds = length pfds' ->
  (forall k p', pfds' !! k = Some p' ->
     exists p, pfds !! k = Some p /\ fd p = fd p' /\ events p = events p') ->
  set_revents pfds rs = set_revents pfds' rs.
Proof.
  intros Hlen Hagree. apply list_eq. intros k. unfold set_revents.
  rewrite !list_lookup_imap.
  destruct (pfds' !! k) as [p'|] eqn:Hk.
  - destruct (Hagree k p' Hk) as (p & -> & Hfd & Hev).
    cbn. rewrite Hfd, Hev. reflexivity.
  - apply lookup_ge_None in Hk. rewrite <- Hlen in Hk.
    apply lookup_ge_None in Hk. rewrite Hk. reflexivity.
Qed.

Lemma main_init_arrays (IFNAMSIZ POLLIN : Z) (args : list (string * answers))
    (malloc_memory : bool * bool) (heap_connections : nat -> connection)
    (heap_pfds : nat -> pollfd) (open open' : gset Z)
    (conns : list connection) (pfds : list pollfd) :
  main_init IFNAMSIZ POLLIN args malloc_memory heap_connections heap_pfds open
    = Some (Ready (conns, pfds, open')) ->
  args <> [] /\
  length conns = length args /\
  length pfds = (length args * 2)%nat /\
  (forall j config_str a,
     args !! j = Some (config_str, a) ->
     exists conn,
       conns !! j = Some conn /\
       set_up IFNAMSIZ config_str a conn /\
       watches POLLIN pfds (j * 2) (can_sfd conn) /\
       watches POLLIN pfds (j * 2 + 1) (in_sfd conn)).
Proof.
  unfold main_init. destruct args as [|arg args]; [discriminate|].
  cbn [length Nat.add Nat.eqb].
  destruct malloc_memory as [[|] [|]]; cbn [xmalloc fst snd]; try discriminate.
  intros Hrun. apply init_from_ready in Hrun;
    [|rewrite length_fmap, length_seq; cbn [length]; lia
     |rewrite length_fmap, length_seq; cbn [length]; lia].
  rewrite !length_fmap, !length_seq in Hrun.
  destruct Hrun as (Hlc & Hlp & _ & _ & Hargs).
  split; [discriminate|]. split; [exact Hlc|]. split; [exact Hlp|].
  exact Hargs.
Qed.

Lemma main_init_watch (IFNAMSIZ POLLIN : Z) (args : list (string * answers))
    (malloc_memory : bool * bool) (heap_connections : nat -> connection)
    (heap_pfds : nat -> pollfd) (open open' : gset Z)
    (conns : list connection) (pfds : list pollfd) (rs : list Z) :
  main_init IFNAMSIZ POLLIN args malloc_memory heap_connections heap_pfds open
    = Some (Ready (conns, pfds, open')) ->
  set_revents pfds rs = set_revents (watch POLLIN conns) rs.
Proof.
  intros Hrun.
  destruct (main_init_arrays _ _ _ _ _ _ _ _ _ _ Hrun)
    as (_ & Hlc & Hlp & Hargs).
  apply set_revents_agree.
  - rewrite length_watch. lia.
  - intros k p' Hk.
    assert (Hlt : (k < length args * 2)%nat).
    { apply lookup_lt_Some in Hk. rewrite length_watch in Hk. lia. }
    destruct (lookup_lt_is_Some_2 args (k / 2)%nat) as [[s a] Hj].
    { apply Nat.Div0.div_lt_upper_bound. lia. }
    destruct (Hargs _ _ _ Hj)
      as (conn & Hconn & _ & (p0 & Hp0 & Hfd0 & Hev0) & (p1 & Hp1 & Hfd1 & Hev1)).
    destruct (watch_lookup_index POLLIN conns _ conn Hconn) as [Hw0 Hw1].
    pose proof (Nat.div_mod_eq k 2) as Hdm.
    pose proof (Nat.mod_upper_bound k 2 ltac:(lia)) as Hm.
    destruct (k mod 2)%nat as [|[|]] eqn:Hmod; [| |lia].
    + replace (k / 2 * 2)%nat with k in Hp0, Hw0 by lia.
      rewrite Hw0 in Hk. injection Hk as <-.
      exists p0. split; [exact Hp0|]. split; [exact Hfd0|exact Hev0].
    + replace (k / 2 * 2 + 1)%nat with k in Hp1, Hw1 by lia.
      rewrite Hw1 in Hk. injection Hk as <-.
      exists p1. split; [exact Hp1|]. split; [exact Hfd1|exact Hev1].
Qed.

(** The loop looks at the array only after [poll] has written to it. *)
Lemma event_loop_agree (host : endianness)
    (uninit_frame : world -> can_frame)
    (uninit_packed_frame : world -> packed_can_frame) (POLLIN : Z)
    (connections : list connection) (pfds pfds' : list pollfd) :
  (forall rs, set_revents pfds rs = set_revents pfds' rs) ->
  forall (turns : nat) (w : world),
    event_loop host uninit_frame uninit_packed_frame POLLIN turns
      connections pfds w =
    event_loop host uninit_frame uninit_packed_frame POLLIN turns
      connections pfds' w.
Proof.
  intros Hagree [|turns] w; [reflexivity|].
  cbn [event_loop]. unfold wake.
  destruct (polls w) as [|[e|rs] rest]; [reflexivity|reflexivity|].
  rewrite Hagree. reflexivity.
Qed.

(** X18. When the start-up of [main] reaches the loop, there was at least
    one argument, the array of connections holds one connection for each
    argument, in the order of the command line, each with the configuration
    read from its argument, an interface name that fits [ifr_name] and
    three descriptors returned by successful [socket] calls; and entries
    [2 i] and [2 i + 1] of the [pollfd] array watch the CAN socket and the
    listening UDP socket of connection [i] for [POLLIN], the sending socket
    being watched nowhere. *)
Theorem main_init_ready (IFNAMSIZ POLLIN : Z)
    (args : list (string * answers)) (malloc_memory : bool * bool)
    (heap_connections : nat -> connection) (heap_pfds : nat -> pollfd)
    (open open' : gset Z) (conns : list connection) (pfds : list pollfd) :
  main_init IFNAMSIZ POLLIN args malloc_memory heap_connections heap_pfds open
    = Some (Ready (conns, pfds, open')) ->
  args <> [] /\
  length conns = length args /\
  length pfds = (length conns * 2)%nat /\
  (forall i config_str a,
     args !! i = Some (config_str, a) ->
     exists conn,
       conns !! i = Some conn /\
       set_up IFNAMSIZ config_str a conn /\
       watches POLLIN pfds (i * 2) (can_sfd conn) /\
       watches POLLIN pfds (i * 2 + 1) (in_sfd conn)).
Proof.
  intros Hrun.
  destruct (main_init_arrays _ _ _ _ _ _ _ _ _ _ Hrun)
    as (Hne & Hlc & Hlp & Hargs).
  split; [exact Hne|]. split; [exact Hlc|]. split; [lia|exact Hargs].
Qed.

(** X19. The loop of [main] runs on the array that [watch] describes.
    Whatever the two allocated arrays held at first, once the start-up has
    succeeded any number of turns of the loop on the arrays it built has the
    outcome of the same turns on [watch connections]: the [revents] left
    uninitialised by [main] are never read before [poll] has set them. *)
Theorem main_enters_loop (host : endianness)
    (uninit_frame : world -> can_frame)
    (uninit_packed_frame : world -> packed_can_frame) (IFNAMSIZ POLLIN : Z)
    (args : list (string * answers)) (malloc_memory : bool * bool)
    (heap_connections : nat -> connection) (heap_pfds : nat -> pollfd)
    (open open' : gset Z) (conns : list connection) (pfds : list pollfd) :
  main_init IFNAMSIZ POLLIN args malloc_memory heap_connections heap_pfds open
    = Some (Ready (conns, pfds, open')) ->
  forall (turns : nat) (w : world),
    event_loop host uninit_frame uninit_packed_frame POLLIN turns conns pfds w
    = event_loop host uninit_frame uninit_packed_frame POLLIN turns conns
        (watch POLLIN conns) w.
Proof.
  intros Hrun. apply event_loop_agree.
  intros rs. exact (main_init_watch _ _ _ _ _ _ _ _ _ _ rs Hrun).
Qed.

Lemma parse_config_fatal (enough_memory : bool) (config_str : string)
    (why : failure) :
  parse_config enough_memory config_str = Fatal why ->
  (enough_memory = false /\ why = out_of_memory) \/
  (why = invalid_config config_str /\
   (occurrences ":" config_str < 3)%nat).
Proof.
  destruct enough_memory; [|intros [= <-]; left; split; reflexivity].
  unfold parse_config, xstrdup. intros H. right.
  destruct (cut_at ":" config_str) as [[f1 s1]|] eqn:E1.
  2: { apply cut_at_None in E1. rewrite E1. injection H as <-.
       split; [reflexivity|lia]. }
  rewrite (cut_at_occurrences _ _ _ _ E1).
  destruct (cut_at ":" s1) as [[f2 s2]|] eqn:E2.
  2: { apply cut_at_None in E2. rewrite E2. injection H as <-.
       split; [reflexivity|lia]. }
  rewrite (cut_at_occurrences _ _ _ _ E2).
  destruct (cut_at ":" s2) as [[f3 s3]|] eqn:E3.
  2: { apply cut_at_None in E3. rewrite E3. injection H as <-.
       split; [reflexivity|lia]. }
  discriminate H.
Qed.

Lemma bind_udp_loop_fatal (ai : list candidate) :
  forall (sfd errcode : Z) (open : gset Z) (why : failure),
    bind_udp_loop ai sfd errcode open = Fatal why -> system_refused why.
Proof.
  induction ai as [|rp ai IH]; intros sfd errcode open why H; [discriminate H|].
  cbn [bind_udp_loop] in H.
  destruct (socket_returns rp =? -1); [injection H as <-; exact I|].
  destruct (attach_fails rp); [|discriminate H].
  exact (IH _ _ _ _ H).
Qed.

Lemma connect_udp_loop_fatal (ai : list candidate) :
  forall (sfd errcode : Z) (open : gset Z) (why : failure),
    connect_udp_loop ai sfd errcode open = Fatal why -> system_refused why.
Proof.
  induction ai as [|rp ai IH]; intros sfd errcode open why H; [discriminate H|].
  cbn [connect_udp_loop] in H.
  destruct (socket_returns rp =? -1); [injection H as <-; exact I|].
  destruct (attach_fails rp); [|discriminate H].
  exact (IH _ _ _ _ H).
Qed.

Lemma bind_udp_fatal (errcode : Z) (ai : list candidate) (open : gset Z)
    (why : failure) :
  bind_udp errcode ai open = Fatal why -> system_refused why.
Proof.
  unfold bind_udp. destruct (negb (errcode =? 0)); [intros [= <-]; exact I|].
  destruct (bind_udp_loop ai (-1) errcode open) as [[[s e] o]|w] eqn:Hloop.
  - destruct (s =? -1); [intros [= <-]; exact I|discriminate].
  - intros [= <-]. exact (bind_udp_loop_fatal _ _ _ _ _ Hloop).
Qed.

Lemma connect_udp_fatal (errcode : Z) (ai : list candidate) (open : gset Z)
    (why : failure) :
  connect_udp errcode ai open = Fatal why -> system_refused why.
Proof.
  unfold connect_udp. destruct (negb (errcode =? 0)); [intros [= <-]; exact I|].
  destruct (connect_udp_loop ai (-1) errcode open) as [[[s e] o]|w] eqn:Hloop.
  - destruct (s =? -1); [intros [= <-]; exact I|discriminate].
  - intros [= <-]. exact (connect_udp_loop_fatal _ _ _ _ _ Hloop).
Qed.

Lemma setup_connection_fatal (IFNAMSIZ : Z) (cfg : config) (a : answers)
    (open : gset Z) (why : failure) :
  setup_connection IFNAMSIZ cfg a open = Some (Fatal why) ->
  system_refused why.
Proof.
  unfold setup_connection, bind_can.
  destruct (can_socket_returns a =? -1); [intros [= <-]; exact I|].
  destruct (IFNAMSIZ <? _); [discriminate|].
  destruct (ioctl_fails a); [intros [= <-]; exact I|].
  destruct (can_bind_fails a); [intros [= <-]; exact I|].
  destruct (bind_udp _ _ _) as [[in' o1]|w1] eqn:Hin.
  2: { intros [= <-]. exact (bind_udp_fatal _ _ _ _ Hin). }
  destruct (connect_udp _ _ _) as [[out' o2]|w2] eqn:Hout; [discriminate|].
  intros [= <-]. exact (connect_udp_fatal _ _ _ _ Hout).
Qed.

Lemma setup_connection_overflow (IFNAMSIZ : Z) (cfg : config) (a : answers)
    (open : gset Z) :
  setup_connection IFNAMSIZ cfg a open = None <->
  can_socket_returns a <> -1 /\
  IFNAMSIZ <= Z.of_nat (String.length (can_ifname cfg)).
Proof.
  unfold setup_connection, bind_can.
  destruct (Z.eqb_spec (can_socket_returns a) (-1)).
  { split; [discriminate|]. intros [Hs _]. contradiction. }
  destruct (Z.ltb_spec IFNAMSIZ
              (Z.of_nat (String.length (can_ifname cfg)) + 1)).
  { split; [|reflexivity]. intros _. split; [assumption|lia]. }
  split; [|intros [_ Hlen]; lia].
  destruct (ioctl_fails a); [discriminate|].
  destruct (can_bind_fails a); [discriminate|].
  destruct (bind_udp _ _ _) as [[in' o1]|w1]; [|discriminate].
  destruct (connect_udp _ _ _) as [[out' o2]|w2]; discriminate.
Qed.

Lemma init_from_fatal (IFNAMSIZ POLLIN : Z) (args : list (string * answers)) :
  forall (i : nat) (connections : list connection) (pfds : list pollfd)
         (open : gset Z) (why : failure),
    init_from IFNAMSIZ POLLIN i args connections pfds open
      = Some (Fatal why) ->
    why <> usage /\ explained args (true, true) why.
Proof.
  induction args as [|[config_str a] rest IH];
    intros i connections pfds open why Hrun; [discriminate Hrun|].
  cbn [init_from] in Hrun.
  destruct (parse_config (strdup_memory a) config_str) as [cfg|w] eqn:Hparse.
  - destruct (setup_connection IFNAMSIZ cfg a open) as [[[conn o1]|w]|]
      eqn:Hsetup; [| |discriminate].
    + destruct (IH _ _ _ _ _ Hrun) as [Hne Hex]. split; [exact Hne|].
      destruct why; cbn [explained] in *; try discriminate.
      * destruct Hex as (_ & [Hm | (j & s & b & Hj & Hb)]);
          [contradiction|].
        split; [discriminate|]. right. exists (S j), s, b.
        split; assumption.
      * contradiction.
      * destruct Hex as (j & b & Hj & Hocc). exists (S j), b.
        split; assumption.
    + injection Hrun as <-.
      apply setup_connection_fatal in Hsetup.
      destruct w; cbn in Hsetup; try contradiction;
        (split; [discriminate|cbn; discriminate]).
  - injection Hrun as <-.
    destruct (parse_config_fatal _ _ _ Hparse) as [[Hm ->] | [-> Hocc]].
    + split; [discriminate|]. cbn. split; [discriminate|].
      right. exists 0%nat, config_str, a. split; [reflexivity|exact Hm].
    + split; [discriminate|]. cbn. exists 0%nat, a.
      split; [reflexivity|exact Hocc].
Qed.

Lemma init_from_overflow (IFNAMSIZ POLLIN : Z)
    (args : list (string * answers)) :
  forall (i : nat) (connections : list connection) (pfds : list pollfd)
         (open : gset Z),
    init_from IFNAMSIZ POLLIN i args connections pfds open = None ->
    exists j config_str a cfg,
      args !! j = Some (config_str, a) /\
      parse_config true config_str = Ready cfg /\
      IFNAMSIZ <= Z.of_nat (String.length (can_ifname cfg)).
Proof.
  induction args as [|[config_str a] rest IH];
    intros i connections pfds open Hrun; [discriminate Hrun|].
  cbn [init_from] in Hrun.
  destruct (parse_config (strdup_memory a) config_str) as [cfg|w] eqn:Hparse;
    [|discriminate].
  destruct (setup_connection IFNAMSIZ cfg a open) as [[[conn o1]|w]|]
    eqn:Hsetup; [|discriminate|].
  - destruct (IH _ _ _ _ Hrun) as (j & s & b & c & Hj & Hp & Hlen).
    exists (S j), s, b, c. repeat split; assumption.
  - apply setup_connection_overflow in Hsetup. destruct Hsetup as [_ Hlen].
    exists 0%nat, config_str, a, cfg.
    split; [reflexivity|].
    split; [exact (parse_config_memory _ _ _ Hparse)|exact Hlen].
Qed.

(** X20. Why the start-up exits. The usage message is printed exactly when
    there is no argument. An exit for an invalid configuration names an
    argument of the command line that has fewer than three colons; an exit
    for lack of memory means that one of the two [malloc] calls or the
    [strdup] for some argument failed; every other exit reports a call of
    the system that failed, and there was an argument. *)
Theorem main_init_exits (IFNAMSIZ POLLIN : Z)
    (args : list (string * answers)) (malloc_memory : bool * bool)
    (heap_connections : nat -> connection) (heap_pfds : nat -> pollfd)
    (open : gset Z) :
  (args = [] <->
   main_init IFNAMSIZ POLLIN args malloc_memory heap_connections heap_pfds
     open = Some (Fatal usage)) /\
  (forall why,
     main_init IFNAMSIZ POLLIN args malloc_memory heap_connections heap_pfds
       open = Some (Fatal why) ->
     explained args malloc_memory why).
Proof.
  unfold main_init. destruct args as [|arg args].
  { split; [split; reflexivity|]. intros why [= <-]. reflexivity. }
  cbn [length Nat.add Nat.eqb].
  destruct malloc_memory as [[|] [|]]; cbn [xmalloc fst snd].
  - split.
    + split; [discriminate|]. intros H.
      apply init_from_fatal in H. destruct H as [Hne _]. contradiction.
    + intros why H. apply init_from_fatal in H. exact (proj2 H).
  - split; [split; discriminate|]. intros why [= <-]. cbn.
    split; [discriminate|]. left. discriminate.
  - split; [split; discriminate|]. intros why [= <-]. cbn.
    split; [discriminate|]. left. discriminate.
  - split; [split; discriminate|]. intros why [= <-]. cbn.
    split; [discriminate|]. left. discriminate.
Qed.

(** X21. The start-up writes outside [ifr_name] only for a long interface
    name. When the behaviour of the start-up is undefined, some argument
    has a valid configuration whose interface name has at least [IFNAMSIZ]
    characters, which [bind_can] copies with [strcpy] into the [IFNAMSIZ]
    bytes of [ifr_name]; so with interface names shorter than that the
    start-up either exits or reaches the loop. *)
Theorem main_init_overflow (IFNAMSIZ POLLIN : Z)
    (args : list (string * answers)) (malloc_memory : bool * bool)
    (heap_connections : nat -> connection) (heap_pfds : nat -> pollfd)
    (open : gset Z) :
  main_init IFNAMSIZ POLLIN args malloc_memory heap_connections heap_pfds open
    = None ->
  exists i config_str a cfg,
    args !! i = Some (config_str, a) /\
    parse_config true config_str = Ready cfg /\
    IFNAMSIZ <= Z.of_nat (String.length (can_ifname cfg)).
Proof.
  unfold main_init. destruct args as [|arg args]; [discriminate|].
  cbn [length Nat.add Nat.eqb].
  destruct malloc_memory as [[|] [|]]; cbn [xmalloc fst snd];
    try discriminate.
  apply init_from_overflow.
Qed.

(** ** Instances of the start-up *)

Lemma main_init_ready_witness :
  exists (pfds : list pollfd) (open' : gset Z),
    main_init 16 POLLIN_linux args_vcan0 (true, true) stale_connection
      stale_pollfd ∅ = Some (Ready ([bridge0], pfds, open')) /\
    length pfds = 2%nat /\
    watches POLLIN_linux pfds 0 3 /\ watches POLLIN_linux pfds 1 4.
Proof.
  assert (H : { x : list pollfd * gset Z
              | main_init 16 POLLIN_linux args_vcan0 (true, true)
                  stale_connection stale_pollfd ∅
                = Some (Ready ([bridge0], x.1, x.2)) }).
  { eexists (_, _). vm_compute. reflexivity. }
  destruct H as [[pfds open'] H]. cbn [fst snd] in H.
  exists pfds, open'. split; [exact H|].
  destruct (main_init_ready 16 POLLIN_linux args_vcan0 (true, true)
              stale_connection stale_pollfd ∅ open' [bridge0] pfds H)
    as (_ & _ & Hlen & Hargs).
  split; [exact Hlen|].
  destruct (Hargs 0%nat arg_vcan0 answers_vcan0 eq_refl)
    as (conn & Hconn & _ & H0 & H1).
  injection Hconn as <-. split; [exact H0|exact H1].
Defined.

Lemma main_enters_loop_witness :
  exists (pfds : list pollfd) (open' : gset Z),
    main_init 16 POLLIN_linux args_vcan0 (true, true) stale_connection
      stale_pollfd ∅ = Some (Ready ([bridge0], pfds, open')) /\
    event_loop LittleEndian (fun _ => blank_frame)
      (fun _ => blank_packed_frame) POLLIN_linux 2 [bridge0] pfds world_woken
    = event_loop LittleEndian (fun _ => blank_frame)
        (fun _ => blank_packed_frame) POLLIN_linux 2 [bridge0]
        (watch POLLIN_linux [bridge0]) world_woken.
Proof.
  assert (H : { x : list pollfd * gset Z
              | main_init 16 POLLIN_linux args_vcan0 (true, true)
                  stale_connection stale_pollfd ∅
                = Some (Ready ([bridge0], x.1, x.2)) }).
  { eexists (_, _). vm_compute. reflexivity. }
  destruct H as [[pfds open'] H]. cbn [fst snd] in H.
  exists pfds, open'. split; [exact H|].
  exact (main_enters_loop LittleEndian (fun _ => blank_frame)
           (fun _ => blank_packed_frame) 16 POLLIN_linux args_vcan0
           (true, true) stale_connection stale_pollfd ∅ open' [bridge0] pfds
           H 2%nat world_woken).
Defined.

Lemma main_init_exits_witness :
  main_init 16 POLLIN_linux args_short (true, true) stale_connection
    stale_pollfd ∅ = Some (Fatal (invalid_config "vcan1:8881")) /\
  explained args_short (true, true) (invalid_config "vcan1:8881").
Proof.
  assert (H : main_init 16 POLLIN_linux args_short (true, true)
                stale_connection stale_pollfd ∅
              = Some (Fatal (invalid_config "vcan1:8881"))).
  { vm_compute. reflexivity. }
  split; [exact H|].
  exact (proj2 (main_init_exits 16 POLLIN_linux args_short (true, true)
                  stale_connection stale_pollfd ∅) _ H).
Defined.

Lemma main_init_overflow_witness :
  main_init 16 POLLIN_linux [ (arg_long_name, answers_vcan0) ] (true, true)
    stale_connection stale_pollfd ∅ = None /\
  exists i config_str a cfg,
    [ (arg_long_name, answers_vcan0) ] !! i = Some (config_str, a) /\
    parse_config true config_str = Ready cfg /\
    16 <= Z.of_nat (String.length (can_ifname cfg)).
Proof.
  assert (H : main_init 16 POLLIN_linux [ (arg_long_name, answers_vcan0) ]
                (true, true) stale_connection stale_pollfd ∅ = None).
  { vm_compute. reflexivity. }
  split; [exact H|].
  exact (main_init_overflow 16 POLLIN_linux _ (true, true) stale_connection
           stale_pollfd ∅ H).
Defined.
